(** * nt.database.iterator: a shallow embedding of the iterator pipeline

    The source is [src/nt/database/iterator.py].  Python values are
    embedded as trees, exceptions as an error monad, the mutable attributes
    of iterator objects ([ConcatenateIterator._keys], [_chain_map],
    [ReShuffleIterator.permutation]) and numpy's global random state as an
    explicit store keyed by object identity.  The object graph behind
    [copy.deepcopy] is modelled separately in module [Heap]. *)

From Stdlib Require Import ZArith Lia String List Bool.
From stdpp Require Import base option list strings gmap.

#[local] Set Warnings "-register-all".

(** ** Python values and exceptions *)

(** JSON-like example data: what [json.load] produces. *)
Inductive value : Type :=
| VNone
| VBool (b : bool)
| VInt (z : Z)
| VStr (s : string)
| VList (items : list value)
| VDict (items : list (string * value)).

(** The exception classes the module raises or lets through. *)
Inductive exn : Type :=
| IndexError
| KeyError
| TypeError
| ValueError
| AssertionError
| NotImplementedError.

Inductive result (A : Type) : Type :=
| Ok (a : A)
| Raise (e : exn).
Arguments Ok {A} a.
Arguments Raise {A} e.

#[global] Instance result_ret : MRet result := λ A a, Ok a.
#[global] Instance result_bind : MBind result := λ A B f m,
  match m with
  | Ok a => f a
  | Raise e => Raise e
  end.

#[global] Instance exn_eq_dec : EqDecision exn.
Proof. solve_decision. Defined.

(** ** Python containers *)

(** [l[i]] on a list or a one-dimensional numpy array: a negative index
    counts from the end, anything outside [-len, len) is an IndexError. *)
Definition list_getitem {A} (l : list A) (i : Z) : result A :=
  let j := if (i <? 0)%Z then (i + Z.of_nat (length l))%Z else i in
  if (j <? 0)%Z then Raise IndexError
  else match l !! Z.to_nat j with
       | Some x => Ok x
       | None => Raise IndexError
       end.

(** [k in l] for a list of strings. *)
Definition str_in (k : string) (l : list string) : bool :=
  existsb (String.eqb k) l.

(** A dict is kept as its items in insertion order. [d[k]]: *)
Fixpoint dict_get {A} (d : list (string * A)) (k : string) : option A :=
  match d with
  | [] => None
  | (k', v) :: d' => if String.eqb k' k then Some v else dict_get d' k
  end.

(** [d[k] = v]: an existing key keeps its place, a new key goes last. *)
Fixpoint dict_set {A} (d : list (string * A)) (k : string) (v : A)
  : list (string * A) :=
  match d with
  | [] => [(k, v)]
  | (k', v') :: d' =>
      if String.eqb k' k then (k', v) :: d' else (k', v') :: dict_set d' k v
  end.

(** [d[k]] as an expression: a missing key is a KeyError. *)
Definition dict_getitem {A} (d : list (string * A)) (k : string) : result A :=
  match dict_get d k with
  | Some v => Ok v
  | None => Raise KeyError
  end.

(** [x[k] = v] with a string [k]: only a dict supports it. *)
Definition value_setitem (x : value) (k : string) (v : value) : result value :=
  match x with
  | VDict d => Ok (VDict (dict_set d k v))
  | _ => Raise TypeError
  end.

(** [x[k]] with a string [k] on a value. *)
Definition value_getitem (x : value) (k : string) : result value :=
  match x with
  | VDict d => dict_getitem d k
  | _ => Raise TypeError
  end.

(** [copy.deepcopy] on a tree value builds an equal tree; the aliasing it
    removes is invisible at this level and is the subject of module [Heap]. *)
Definition deepcopy (v : value) : value := v.

(** [len(set(l)) == len(l)] *)
Definition all_distinct (l : list string) : bool :=
  Nat.eqb (length (nodup string_dec l)) (length l).

(** A one-dimensional integer numpy array. *)
Abbreviation ndarray := (list Z) (only parsing).

(** [np.arange(n)] *)
Definition arange (n : Z) : ndarray := map Z.of_nat (seq 0 (Z.to_nat n)).

(** [operator.index(a)] for an array [a]: numpy converts only
    zero-dimensional integer arrays and every [ndarray] here has one
    dimension, so no integer ever comes back. *)
Definition ndarray_index (a : ndarray) : result Empty_set := Raise TypeError.

(** [l[a]] where [l] is a Python list and [a] an array: the list asks the
    array for its [__index__]. *)
Definition list_getitem_ndarray {A B} (l : list A) (a : ndarray) : result B :=
  i ← ndarray_index a; match i : Empty_set with end.

(** ** The iterator classes *)

(** One constructor per class.  Objects with attributes that change after
    construction ([ConcatenateIterator], [ReShuffleIterator]) carry their
    identity [oid]; the attributes live in the [store]. *)
Inductive iterator : Type :=
| ExamplesIterator (examples : list (string * value))
| MapIterator (map_function : value → result value) (input_iterator : iterator)
| ShuffleIterator (permutation : ndarray) (input_iterator : iterator)
| ReShuffleIterator (oid : nat) (input_iterator : iterator)
| SliceIterator (slice : ndarray) (input_iterator : iterator)
| FilterIterator (filter_function : value → result bool)
    (input_iterator : iterator)
| ConcatenateIterator (oid : nat) (input_iterators : list iterator)
| MixIterator.

(** The instance attributes of a [ConcatenateIterator]; both start as the
    class attribute [None].  [_chain_map], once set, is
    [ChainMap( *self.input_iterators)], a view on the very same upstream
    objects, so only whether it is set is recorded. *)
Record concat_attrs : Type := ConcatAttrs {
  _keys : option (list string);
  _chain_map : bool
}.

Definition concat_attrs_init : concat_attrs := ConcatAttrs None false.

Section Store.
(** numpy's global random state and [np.random.shuffle], which the module
    imports: any generator, as long as it permutes its argument. *)
Context {rng : Type}.

Record store : Type := Store {
  concatenations : gmap nat concat_attrs;
  permutations : gmap nat ndarray;
  random_state : rng
}.

Definition get_attrs (st : store) (o : nat) : concat_attrs :=
  default concat_attrs_init (concatenations st !! o).

Definition set_attrs (st : store) (o : nat) (a : concat_attrs) : store :=
  Store (<[o := a]> (concatenations st)) (permutations st) (random_state st).

Definition get_permutation (st : store) (o : nat) : ndarray :=
  default [] (permutations st !! o).

Definition set_permutation (st : store) (o : nat) (p : ndarray) : store :=
  Store (concatenations st) (<[o := p]> (permutations st)) (random_state st).

Definition set_random_state (st : store) (g : rng) : store :=
  Store (concatenations st) (permutations st) g.
End Store.
Arguments store : clear implicits.

(** ** Operations that read no mutable attribute *)

(** [__len__] *)
Fixpoint len (self : iterator) : result Z :=
  match self with
  | ExamplesIterator examples => Ok (Z.of_nat (length examples))
  | MapIterator _ input_iterator => len input_iterator
  | ShuffleIterator _ input_iterator => len input_iterator
  | ReShuffleIterator _ input_iterator => len input_iterator
  | SliceIterator slice _ => Ok (Z.of_nat (length slice))
  | FilterIterator _ _ => Raise NotImplementedError
  | ConcatenateIterator _ input_iterators =>
      (fix sum_len (its : list iterator) : result Z :=
         match its with
         | [] => Ok 0%Z
         | i :: rest => n ← len i; s ← sum_len rest; Ok (n + s)%Z
         end) input_iterators
  | MixIterator => Raise NotImplementedError
  end.

Section Iterators.
(** [keys.EXAMPLE_ID] of [nt.database.keys], which is not part of the
    sources at hand: the reserved field name is a parameter. *)
Context (EXAMPLE_ID : string).

(** The tail of [ExamplesIterator.__getitem__], once [key] is known. *)
Definition ExamplesIterator_fetch (examples : list (string * value))
    (key : string) : result value :=
  body ← dict_getitem examples key;
  value_setitem (deepcopy body) EXAMPLE_ID (VStr key).

(** [ExamplesIterator.__getitem__] on a string. *)
Definition ExamplesIterator_getitem_str (examples : list (string * value))
    (item : string) : result value :=
  if str_in item (map fst examples)
  then ExamplesIterator_fetch examples item
  else Raise IndexError.

(** [ExamplesIterator.__getitem__] on an integer. *)
Definition ExamplesIterator_getitem_int (examples : list (string * value))
    (item : Z) : result value :=
  key ← list_getitem (map fst examples) item;
  ExamplesIterator_fetch examples key.

(** [__getitem__] on an integer.  In [ConcatenateIterator] the loop over
    the upstreams can end without a [return]: the call then evaluates to
    [None]. *)
Fixpoint getitem_int (self : iterator) (item : Z) : result value :=
  match self with
  | ExamplesIterator examples => ExamplesIterator_getitem_int examples item
  | MapIterator map_function input_iterator =>
      example ← getitem_int input_iterator item; map_function example
  | ShuffleIterator permutation input_iterator =>
      idx ← list_getitem permutation item; getitem_int input_iterator idx
  | ReShuffleIterator _ _ => Raise TypeError
  | SliceIterator slice input_iterator =>
      idx ← list_getitem slice item; getitem_int input_iterator idx
  | FilterIterator _ _ => Raise AssertionError
  | ConcatenateIterator _ input_iterators =>
      (fix walk (its : list iterator) (item : Z) : result value :=
         match its with
         | [] => Ok VNone
         | iterator :: rest =>
             n ← len iterator;
             if (n <=? item)%Z then walk rest (item - n)%Z
             else getitem_int iterator item
         end) input_iterators item
  | MixIterator => Raise NotImplementedError
  end.

(** ** Operations on the store *)

Context {rng : Type}.
Context (np_random_shuffle : rng → ndarray → ndarray * rng).

(** [keys()].  [SliceIterator.keys] indexes the upstream key list by the
    array [self.slice].  [ConcatenateIterator.keys] assigns [self._keys]
    before it checks it, and on later calls returns whatever is there. *)
Fixpoint keys (self : iterator) (st : store rng)
  : result (list string) * store rng :=
  match self with
  | ExamplesIterator examples => (Ok (map fst examples), st)
  | MapIterator _ input_iterator => keys input_iterator st
  | ShuffleIterator _ input_iterator => keys input_iterator st
  | ReShuffleIterator _ input_iterator => keys input_iterator st
  | SliceIterator slice input_iterator =>
      let (r, st) := keys input_iterator st in
      (ks ← r; list_getitem_ndarray ks slice, st)
  | FilterIterator _ _ => (Raise NotImplementedError, st)
  | ConcatenateIterator oid input_iterators =>
      match _keys (get_attrs st oid) with
      | Some ks => (Ok ks, st)
      | None =>
          let st := set_attrs st oid
                      (ConcatAttrs (Some []) (_chain_map (get_attrs st oid))) in
          let (r, st) :=
            (fix extend (its : list iterator) (st : store rng)
               : result unit * store rng :=
               match its with
               | [] => (Ok (), st)
               | iterator :: rest =>
                   let (r, st) := keys iterator st in
                   match r with
                   | Raise e => (Raise e, st)
                   | Ok ks =>
                       let a := get_attrs st oid in
                       extend rest
                         (set_attrs st oid
                            (ConcatAttrs (Some (default [] (_keys a) ++ ks))
                               (_chain_map a)))
                   end
               end) input_iterators st in
          match r with
          | Raise e => (Raise e, st)
          | Ok _ =>
              let ks := default [] (_keys (get_attrs st oid)) in
              if all_distinct ks then (Ok ks, st)
              else (Raise AssertionError, st)
          end
      end
  | MixIterator => (Raise NotImplementedError, st)
  end.

(** [__getitem__] on a string.  [ChainMap.__getitem__] asks each map in
    turn and goes on to the next one only after a [KeyError]; any other
    exception leaves the loop. *)
Fixpoint getitem_str (self : iterator) (item : string) (st : store rng)
  : result value * store rng :=
  match self with
  | ExamplesIterator examples =>
      (ExamplesIterator_getitem_str examples item, st)
  | MapIterator map_function input_iterator =>
      let (r, st) := getitem_str input_iterator item st in
      (example ← r; map_function example, st)
  | ShuffleIterator _ input_iterator => getitem_str input_iterator item st
  | ReShuffleIterator _ input_iterator => getitem_str input_iterator item st
  | SliceIterator slice input_iterator =>
      let (r, st) := keys (SliceIterator slice input_iterator) st in
      match r with
      | Raise e => (Raise e, st)
      | Ok ks =>
          if str_in item ks then getitem_str input_iterator item st
          else (Raise IndexError, st)
      end
  | FilterIterator filter_function input_iterator =>
      let (r, st) := getitem_str input_iterator item st in
      (ex ← r;
       keep ← filter_function ex;
       if keep : bool then Ok ex else Raise IndexError, st)
  | ConcatenateIterator oid input_iterators =>
      let lookup :=
        fix lookup (maps : list iterator) (st : store rng)
          : result value * store rng :=
          match maps with
          | [] => (Raise KeyError, st)
          | mapping :: rest =>
              let (r, st) := getitem_str mapping item st in
              match r with
              | Raise KeyError => lookup rest st
              | _ => (r, st)
              end
          end in
      if _chain_map (get_attrs st oid) then lookup input_iterators st
      else
        let (r, st) := keys (ConcatenateIterator oid input_iterators) st in
        match r with
        | Raise e => (Raise e, st)
        | Ok _ =>
            let st := set_attrs st oid
                        (ConcatAttrs (_keys (get_attrs st oid)) true) in
            lookup input_iterators st
        end
  | MixIterator => (Raise NotImplementedError, st)
  end.

(** ** Iteration *)

(** What a consumer sees of one pass: the examples yielded, and the
    exception that ended the pass if one did. *)
Abbreviation pass := (list value * option exn)%type (only parsing).

(** A [for] loop whose body evaluates [x] and hands it on; [body] stands
    for everything downstream of the [yield]. *)
Fixpoint for_each (xs : list (result value))
    (body : value → result (list value)) : pass :=
  match xs with
  | [] => ([], None)
  | x :: rest =>
      match x ≫= body with
      | Raise e => ([], Some e)
      | Ok out =>
          let (outs, e) := for_each rest body in (out ++ outs, e)
      end
  end.

(** [__iter__], with the consumer of the generator as [body]: generators
    run on demand, so an exception downstream stops the upstream where it
    is.  [ReShuffleIterator] shuffles its stored array in place first. *)
Fixpoint iterate (self : iterator) (body : value → result (list value))
    (st : store rng) : pass * store rng :=
  match self with
  | ExamplesIterator examples =>
      (for_each (map (ExamplesIterator_getitem_str examples)
                   (map fst examples)) body, st)
  | MapIterator map_function input_iterator =>
      iterate input_iterator (λ example, map_function example ≫= body) st
  | ShuffleIterator permutation input_iterator =>
      (for_each (map (getitem_int input_iterator) permutation) body, st)
  | ReShuffleIterator oid input_iterator =>
      let (p, g) := np_random_shuffle (random_state st)
                      (get_permutation st oid) in
      let st := set_random_state (set_permutation st oid p) g in
      (for_each (map (getitem_int input_iterator) p) body, st)
  | SliceIterator slice input_iterator =>
      (for_each (map (getitem_int input_iterator) slice) body, st)
  | FilterIterator filter_function input_iterator =>
      iterate input_iterator
        (λ example, keep ← filter_function example;
                    if keep : bool then body example else Ok []) st
  | ConcatenateIterator _ input_iterators =>
      (fix chain (its : list iterator) (st : store rng) : pass * store rng :=
         match its with
         | [] => (([], None), st)
         | input_iterator :: rest =>
             let '((out, e), st) := iterate input_iterator body st in
             match e with
             | Some _ => ((out, e), st)
             | None =>
                 let '((outs, e), st) := chain rest st in
                 ((out ++ outs, e), st)
             end
         end) input_iterators st
  | MixIterator => (([], Some NotImplementedError), st)
  end.

(** [list(self)]: the pass with a consumer that keeps every example. *)
Definition iter (self : iterator) (st : store rng) : pass * store rng :=
  iterate self (λ example, Ok [example]) st.

(** ** Constructors *)

(** The argument of [__getitem__] when it is a slice or a list. *)
Inductive selector : Type :=
| SelSlice (start stop step : option Z)
| SelList (positions : list Z).

(** [a[start:stop:step]] on an array of length [n]: the positions picked,
    as [slice.indices] computes them. *)
Definition slice_positions (n : Z) (start stop step : option Z)
  : result (list Z) :=
  let step := default 1%Z step in
  if (step =? 0)%Z then Raise ValueError else
  let clamp (i : Z) : Z :=
    if (i <? 0)%Z then
      let i := (i + n)%Z in
      if (i <? 0)%Z then (if (step <? 0)%Z then (-1)%Z else 0%Z) else i
    else if (n <=? i)%Z then (if (step <? 0)%Z then (n - 1)%Z else n)
    else i in
  let start := match start with
               | Some i => clamp i
               | None => if (step <? 0)%Z then (n - 1)%Z else 0%Z
               end in
  let stop := match stop with
              | Some i => clamp i
              | None => if (step <? 0)%Z then (-1)%Z else n
              end in
  let count :=
    if (step <? 0)%Z
    then (if (stop <? start)%Z then ((start - stop - 1) / (- step) + 1)%Z
          else 0%Z)
    else (if (start <? stop)%Z then ((stop - start - 1) / step + 1)%Z
          else 0%Z) in
  Ok (map (λ i, (start + Z.of_nat i * step)%Z) (seq 0 (Z.to_nat count))).

(** The index array numpy makes of a list of Python integers.  If all of
    them fit the signed 64-bit type, that is the type of the array.  If
    not, but all fit the unsigned 64-bit type, the array is unsigned and
    indexing casts it to the signed type, so that [2^64 - 1] is read as
    [-1].  Otherwise the array holds floating point numbers or objects
    and is refused as an index. *)
Definition index_array (positions : list Z) : result ndarray :=
  if forallb (λ p, (- 2 ^ 63 <=? p)%Z && (p <? 2 ^ 63)%Z) positions
  then Ok positions
  else if forallb (λ p, (0 <=? p)%Z && (p <? 2 ^ 64)%Z) positions
  then Ok (map (λ p, if (p <? 2 ^ 63)%Z then p else (p - 2 ^ 64)%Z)
             positions)
  else Raise IndexError.

(** [a[sel]] for the array [a]. *)
Definition ndarray_getitem (a : ndarray) (sel : selector) : result ndarray :=
  match sel with
  | SelSlice start stop step =>
      ps ← slice_positions (Z.of_nat (length a)) start stop step;
      mapM (list_getitem a) ps
  | SelList positions =>
      idx ← index_array positions;
      mapM (list_getitem a) idx
  end.

(** [SliceIterator.__init__] *)
Definition SliceIterator_init (sel : selector) (input_iterator : iterator)
  : result iterator :=
  n ← len input_iterator;
  slice ← ndarray_getitem (arange n) sel;
  Ok (SliceIterator slice input_iterator).

(** [ShuffleIterator.__init__] *)
Definition ShuffleIterator_init (input_iterator : iterator) (st : store rng)
  : result iterator * store rng :=
  match len input_iterator with
  | Raise e => (Raise e, st)
  | Ok n =>
      let (p, g) := np_random_shuffle (random_state st) (arange n) in
      (Ok (ShuffleIterator p input_iterator), set_random_state st g)
  end.

(** [ReShuffleIterator.__init__]; the new object gets an unused identity. *)
Definition ReShuffleIterator_init (input_iterator : iterator)
    (st : store rng) : result iterator * store rng :=
  match len input_iterator with
  | Raise e => (Raise e, st)
  | Ok n =>
      let oid := fresh (dom (permutations st)) in
      (Ok (ReShuffleIterator oid input_iterator),
       set_permutation st oid (arange n))
  end.

(** [ConcatenateIterator.__init__]: it only stores its arguments. *)
Definition ConcatenateIterator_init (input_iterators : list iterator)
    (st : store rng) : iterator * store rng :=
  let oid := fresh (dom (concatenations st)) in
  (ConcatenateIterator oid input_iterators,
   set_attrs st oid concat_attrs_init).

(** [BaseIterator.map], [filter], [concatenate], [shuffle] *)
Definition map_ (self : iterator) (map_fn : value → result value) : iterator :=
  MapIterator map_fn self.

Definition filter_ (self : iterator) (filter_fn : value → result bool)
  : iterator :=
  FilterIterator filter_fn self.

Definition concatenate (self : iterator) (others : list iterator)
    (st : store rng) : iterator * store rng :=
  ConcatenateIterator_init (self :: others) st.

Definition shuffle (self : iterator) (reshuffle : bool) (st : store rng)
  : result iterator * store rng :=
  if reshuffle then ReShuffleIterator_init self st
  else ShuffleIterator_init self st.

(** [__getitem__] on a slice or a list: [FilterIterator] asserts a string
    first, every other class ends in [BaseIterator.__getitem__]. *)
Definition getitem_sel (self : iterator) (sel : selector) : result iterator :=
  match self with
  | FilterIterator _ _ => Raise AssertionError
  | _ => SliceIterator_init sel self
  end.
End Iterators.

(** ** Example enrichers: the alignment check *)

(** [len(x)] *)
Definition value_len (x : value) : result Z :=
  match x with
  | VStr s => Ok (Z.of_nat (String.length s))
  | VList items => Ok (Z.of_nat (length items))
  | VDict items => Ok (Z.of_nat (length items))
  | _ => Raise TypeError
  end.

(** An operand of integer arithmetic; [bool] is a subclass of [int]. *)
Definition value_int (x : value) : result Z :=
  match x with
  | VInt z => Ok z
  | VBool b => Ok (Z.b2z b)
  | _ => Raise TypeError
  end.

Section Alignment.
(** [keys.ALIGNMENT], [keys.NUM_SAMPLES] and [keys.OBSERVATION] of
    [nt.database.keys], taken as parameters like [EXAMPLE_ID]. *)
Context (ALIGNMENT NUM_SAMPLES OBSERVATION : string).

(** [remove_examples_without_alignment(example)] for an example dict.
    Python's [//] and [np.mod] round towards minus infinity, as [Z.div]
    and [Z.modulo] do for a positive divisor; integers are exact as long
    as the frame count fits numpy's 64 bits. *)
Definition remove_examples_without_alignment
    (example : list (string * value)) : result bool :=
  valid_ali ←
    match dict_get example ALIGNMENT with
    | None => Ok false
    | Some ali => n ← value_len ali; Ok (negb (n =? 0)%Z)
    end;
  if negb valid_ali then Ok false else
  match dict_get example NUM_SAMPLES with
  | Some num_samples =>
      num_samples ←
        match num_samples with
        | VDict d => dict_getitem d OBSERVATION
        | _ => Ok num_samples
        end;
      num_samples ← value_int num_samples;
      let num_frames := ((num_samples - 400 + 160) / 160)%Z in
      let num_frames_lfr := ((num_frames + (- num_frames) mod 3) / 3)%Z in
      ali ← dict_getitem example ALIGNMENT;
      len_ali ← value_len ali;
      let valid_ali :=
        (len_ali =? num_frames)%Z || (len_ali =? num_frames_lfr)%Z in
      if negb valid_ali then Ok false else Ok true
  | None => Ok true
  end.
End Alignment.

(** ** The object graph behind [deepcopy] *)

Module Heap.
(** Lists and dicts are objects with an identity; a value is an immutable
    scalar or a reference to an object.  New objects go to the end of the
    heap. *)
Abbreviation loc := nat (only parsing).

Inductive val : Type :=
| None_
| Bool (b : bool)
| Int (z : Z)
| Str (s : string)
| Ref (l : loc).

Inductive obj : Type :=
| List (items : list val)
| Dict (items : list (string * val)).

Abbreviation heap := (list obj) (only parsing).

(** [y.append(a)] and [y[k] = a] on the object at [y]. *)
Definition append_at (h : heap) (y : loc) (a : val) : heap :=
  alter (λ o, match o with
              | List items => List (items ++ [a])
              | Dict _ => o
              end) y h.

Definition setitem_at (h : heap) (y : loc) (k : string) (a : val) : heap :=
  alter (λ o, match o with
              | Dict items => Dict (dict_set items k a)
              | List _ => o
              end) y h.

(** The loops of [copy._deepcopy_list] and [copy._deepcopy_dict]; [rec]
    is [deepcopy] itself. *)
Fixpoint copy_list
    (rec : val → heap → gmap loc loc → option (val * heap * gmap loc loc))
    (y : loc) (items : list val) (h : heap) (memo : gmap loc loc)
  : option (heap * gmap loc loc) :=
  match items with
  | [] => Some (h, memo)
  | a :: rest =>
      '(a', h, memo) ← rec a h memo;
      copy_list rec y rest (append_at h y a') memo
  end.

Fixpoint copy_dict
    (rec : val → heap → gmap loc loc → option (val * heap * gmap loc loc))
    (y : loc) (items : list (string * val)) (h : heap) (memo : gmap loc loc)
  : option (heap * gmap loc loc) :=
  match items with
  | [] => Some (h, memo)
  | (key, a) :: rest =>
      '(a', h, memo) ← rec a h memo;
      copy_dict rec y rest (setitem_at h y key a') memo
  end.

(** [copy.deepcopy(x, memo)]: scalars are returned as they are; a list or
    dict already in [memo] gives its copy; otherwise the empty copy is
    created and entered in [memo] before the items are copied into it.
    [fuel] bounds the depth of the recursion; [None] is for running out
    of it or meeting a reference to nothing. *)
Fixpoint deepcopy (fuel : nat) (x : val) (h : heap) (memo : gmap loc loc)
  : option (val * heap * gmap loc loc) :=
  match x with
  | Ref l =>
      match memo !! l with
      | Some y => Some (Ref y, h, memo)
      | None =>
          match fuel with
          | 0 => None
          | S fuel =>
              let y := length h in
              match h !! l with
              | Some (List items) =>
                  '(h, memo) ← copy_list (deepcopy fuel) y items
                                 (h ++ [List []]) (<[l := y]> memo);
                  Some (Ref y, h, memo)
              | Some (Dict items) =>
                  '(h, memo) ← copy_dict (deepcopy fuel) y items
                                 (h ++ [Dict []]) (<[l := y]> memo);
                  Some (Ref y, h, memo)
              | None => None
              end
          end
      end
  | _ => Some (x, h, memo)
  end.

Section Source.
Context (EXAMPLE_ID : string).

(** [ExamplesIterator.__getitem__] on a string, with [self.examples]
    the dict at [examples]. *)
Definition getitem_str (fuel : nat) (examples : loc) (item : string)
    (h : heap) : option (result val * heap) :=
  match h !! examples with
  | Some (Dict items) =>
      if str_in item (map fst items) then
        match dict_get items item with
        | None => Some (Raise KeyError, h)
        | Some body =>
            '(example, h, _) ← deepcopy fuel body h ∅;
            match example with
            | Ref y =>
                match h !! y with
                | Some (Dict _) =>
                    Some (Ok example,
                          setitem_at h y EXAMPLE_ID (Str item))
                | _ => Some (Raise TypeError, h)
                end
            | _ => Some (Raise TypeError, h)
            end
        end
      else Some (Raise IndexError, h)
  | _ => None
  end.

(** [ExamplesIterator.__iter__], run to the end or to the first
    exception. *)
Fixpoint iter_keys (fuel : nat) (examples : loc) (ks : list string)
    (h : heap) : option (list val * option exn * heap) :=
  match ks with
  | [] => Some ([], None, h)
  | k :: rest =>
      '(r, h) ← getitem_str fuel examples k h;
      match r with
      | Raise e => Some ([], Some e, h)
      | Ok example =>
          '(out, e, h) ← iter_keys fuel examples rest h;
          Some (example :: out, e, h)
      end
  end.

Definition iter (fuel : nat) (examples : loc) (h : heap)
  : option (list val * option exn * heap) :=
  match h !! examples with
  | Some (Dict items) => iter_keys fuel examples (map fst items) h
  | _ => None
  end.
End Source.

(** *** Observing the heap *)

(** The tree a value stands for, down to depth [n]. *)
Fixpoint unfold (n : nat) (h : heap) (x : val) : option value :=
  match x with
  | None_ => Some VNone
  | Bool b => Some (VBool b)
  | Int z => Some (VInt z)
  | Str s => Some (VStr s)
  | Ref l =>
      match n with
      | 0 => None
      | S n =>
          match h !! l with
          | Some (List items) => VList <$> mapM (unfold n h) items
          | Some (Dict items) =>
              VDict <$> mapM (λ kv, pair kv.1 <$> unfold n h kv.2) items
          | None => None
          end
      end
  end.

(** The references an object holds. *)
Definition obj_vals (o : obj) : list val :=
  match o with
  | List items => items
  | Dict items => map snd items
  end.

(** [reach h x l]: the object at [l] can be reached from [x]. *)
Inductive reach (h : heap) : val → loc → Prop :=
| reach_here l : reach h (Ref l) l
| reach_step l o x l' :
    h !! l = Some o → x ∈ obj_vals o → reach h x l' → reach h (Ref l) l'.

(** The first [n] objects refer only to one another, and their dicts
    have each key once. *)
Definition val_below (n : nat) (x : val) : bool :=
  match x with
  | Ref l => bool_decide (l < n)
  | _ => true
  end.

Definition obj_ok (n : nat) (o : obj) : bool :=
  forallb (val_below n) (obj_vals o) &&
  match o with
  | Dict items => bool_decide (NoDup (map fst items))
  | List _ => true
  end.

Definition region_closed (n : nat) (h : heap) : bool :=
  bool_decide (n ≤ length h) && forallb (obj_ok n) (take n h).

(** *** The relation between an object and its copy *)

(** [x] with every reference replaced by its entry in [memo]. *)
Definition ren (memo : gmap loc loc) (x : val) : option val :=
  match x with
  | Ref l => Ref <$> memo !! l
  | _ => Some x
  end.

(** Two objects of the same kind, with the same keys, whose items are
    related by [R]. *)
Definition obj_lift (R : val → val → Prop) (o o' : obj) : Prop :=
  match o, o' with
  | List xs, List ys => Forall2 R xs ys
  | Dict xs, Dict ys => Forall2 (λ x y, x.1 = y.1 ∧ R x.2 y.2) xs ys
  | _, _ => False
  end.

Definition obj_rel (memo : gmap loc loc) (o o' : obj) : Prop :=
  obj_lift (λ x y, ren memo x = Some y) o o'.

(** The object at [y] in [h] is the finished copy of the one at [l] in
    [h0]. *)
Definition copied (h0 h : heap) (memo : gmap loc loc) (l y : loc) : Prop :=
  ∃ o o', h0 !! l = Some o ∧ h !! y = Some o' ∧ obj_rel memo o o'.

(** A value that is a scalar or refers to an object in [[a, b)]. *)
Definition val_new (a b : nat) (x : val) : Prop :=
  match x with
  | Ref l => a ≤ l < b
  | _ => True
  end.

(** What holds of the heap [h] and [memo] while [deepcopy] runs on the
    heap that started as [h0], with the copies of [stack] still being
    filled. *)
Record copy_inv (n : nat) (h0 h : heap) (memo : gmap loc loc)
    (stack : list loc) : Prop := CopyInv {
  inv_old : ∀ l, l < length h0 → h !! l = h0 !! l;
  inv_len : length h0 ≤ length h;
  inv_memo : ∀ l y, memo !! l = Some y → l < n ∧ length h0 ≤ y < length h;
  inv_inj : ∀ l1 l2 y, memo !! l1 = Some y → memo !! l2 = Some y → l1 = l2;
  inv_new : ∀ l o, length h0 ≤ l → h !! l = Some o →
            Forall (val_new (length h0) (length h)) (obj_vals o);
  inv_copied : ∀ l y, memo !! l = Some y →
               l ∈ stack ∨ copied h0 h memo l y
}.
(** [rec], with [budget] levels of recursion left, copies [x] into new
    objects and touches nothing that was there before. *)
Definition copies (n : nat) (h0 : heap) (budget : nat)
    (rec : val → heap → gmap loc loc → option (val * heap * gmap loc loc))
  : Prop :=
  ∀ x h memo stack,
    copy_inv n h0 h memo stack → val_below n x = true →
    n < budget + size memo →
    ∃ x' h' memo',
      rec x h memo = Some (x', h', memo') ∧
      copy_inv n h0 h' memo' stack ∧
      memo ⊆ memo' ∧
      (∀ l, l < length h → h' !! l = h !! l) ∧
      ren memo' x = Some x'.
(** What iteration yields for the entry [kv] of a source in the heap [h],
    when it ran from the heap [hc] to the heap [h']: a mapping that stands
    for the stored body with the identifier set, and from which only
    objects can be reached that did not exist when the pass began. *)
Definition yielded_for (ID : string) (depth : nat) (h hc h' : heap)
    (out : val) (kv : string * val) : Prop :=
  ∃ y t, out = Ref y ∧ length hc ≤ y ∧
         (∀ l, reach h' out l → length hc ≤ l) ∧
         unfold depth h kv.2 = Some (VDict t) ∧
         unfold depth h' out = Some (VDict (dict_set t ID (VStr kv.1))).
End Heap.

(** ** The loops of [ConcatenateIterator], on their own

    The loops over [self.input_iterators] are local to the methods above;
    these are the same loops as functions of the list, for stating what the
    methods compute. *)

Fixpoint sum_len (its : list iterator) : result Z :=
  match its with
  | [] => Ok 0%Z
  | i :: rest => n ← len i; s ← sum_len rest; Ok (n + s)%Z
  end.

Section Loops.
Context (EXAMPLE_ID : string) {rng : Type}.

Fixpoint walk (its : list iterator) (item : Z) : result value :=
  match its with
  | [] => Ok VNone
  | iterator :: rest =>
      n ← len iterator;
      if (n <=? item)%Z then walk rest (item - n)%Z
      else getitem_int EXAMPLE_ID iterator item
  end.

Fixpoint extend_keys (oid : nat) (its : list iterator) (st : store rng)
  : result unit * store rng :=
  match its with
  | [] => (Ok (), st)
  | iterator :: rest =>
      let (r, st) := keys iterator st in
      match r with
      | Raise e => (Raise e, st)
      | Ok ks =>
          let a := get_attrs st oid in
          extend_keys oid rest
            (set_attrs st oid
               (ConcatAttrs (Some (default [] (_keys a) ++ ks))
                  (_chain_map a)))
      end
  end.

Fixpoint chain_lookup (maps : list iterator) (item : string)
    (st : store rng) : result value * store rng :=
  match maps with
  | [] => (Raise KeyError, st)
  | mapping :: rest =>
      let (r, st) := getitem_str EXAMPLE_ID mapping item st in
      match r with
      | Raise KeyError => chain_lookup rest item st
      | _ => (r, st)
      end
  end.

(** The identities of the [ConcatenateIterator] objects inside a view. *)
Fixpoint concat_oids (self : iterator) : list nat :=
  match self with
  | ExamplesIterator _ | MixIterator => []
  | MapIterator _ i | ShuffleIterator _ i | ReShuffleIterator _ i
  | SliceIterator _ i | FilterIterator _ i => concat_oids i
  | ConcatenateIterator oid its =>
      oid :: (fix go (its : list iterator) : list nat :=
                match its with
                | [] => []
                | i :: rest => concat_oids i ++ go rest
                end) its
  end.
End Loops.

(** The key found at a position; the default is never used in range. *)
Definition key_at (ks : list string) (i : Z) : string :=
  default EmptyString (ks !! Z.to_nat i).

(** [keys()] of each upstream in turn, as the loop of
    [ConcatenateIterator.keys] asks for them. *)
Fixpoint upstream_keys {rng : Type} (its : list iterator) (st : store rng)
  : result (list (list string)) * store rng :=
  match its with
  | [] => (Ok [], st)
  | i :: rest =>
      let (r, st) := keys i st in
      match r with
      | Raise e => (Raise e, st)
      | Ok ks =>
          let (r, st) := upstream_keys rest st in
          (kss ← r; Ok (ks :: kss), st)
      end
  end.

(** No key of one sequence occurs in a later one. *)
Fixpoint pairwise_disjoint (kss : list (list string)) : Prop :=
  match kss with
  | [] => True
  | ks :: rest =>
      Forall (λ ks', ∀ k, k ∈ ks → k ∉ ks') rest ∧ pairwise_disjoint rest
  end.

(** A generator to run the definitions with: it reverses the array and
    counts its calls. *)
Definition reversing_shuffle (g : nat) (a : ndarray) : ndarray * nat :=
  (rev a, S g).

Definition empty_store : store nat := Store ∅ ∅ 0.

(** Two small sources to run the definitions on. *)
Definition source_ab : list (string * value) :=
  [("a"%string, VDict [("x"%string, VInt 1)]);
   ("b"%string, VDict [("x"%string, VInt 2)])].

Definition source_c : list (string * value) :=
  [("c"%string, VDict [("x"%string, VInt 3)])].

(** A heap to run the object model on: the source dict at 3 with the
    bodies at 1 and 2; the body of [a] holds the list at 0. *)
Definition source_heap : Heap.heap :=
  [ Heap.List [Heap.Str "p"; Heap.Str "q"];
    Heap.Dict [("x"%string, Heap.Int 1); ("paths"%string, Heap.Ref 0)];
    Heap.Dict [("x"%string, Heap.Int 2)];
    Heap.Dict [("a"%string, Heap.Ref 1); ("b"%string, Heap.Ref 2)] ].

(** ** Iteration, seen from the consumer *)

Section Passes.
Context (EXAMPLE_ID : string) {rng : Type}.
Context (np_random_shuffle : rng → ndarray → ndarray * rng).

(** The loop of [ConcatenateIterator.__iter__] as a function of the list. *)
Fixpoint chain_iterate (its : list iterator)
    (body : value → result (list value)) (st : store rng)
  : (list value * option exn) * store rng :=
  match its with
  | [] => (([], None), st)
  | input_iterator :: rest =>
      let '((out, e), st) :=
        iterate EXAMPLE_ID np_random_shuffle input_iterator body st in
      match e with
      | Some _ => ((out, e), st)
      | None =>
          let '((outs, e), st) := chain_iterate rest body st in
          ((out ++ outs, e), st)
      end
  end.
End Passes.

(** A consumer [body] run over the examples of a finished pass [p], in
    order: what it yields, and the first exception, its own or the one
    that ended [p]. *)
Definition feed (p : list value * option exn)
    (body : value → result (list value)) : list value * option exn :=
  let (out, e) := for_each (map Ok p.1) body in
  (out, match e with Some _ => e | None => p.2 end).

(** Two consumers that raise at the same example of [out], or not at
    all. *)
Fixpoint same_stop (out : list value)
    (b1 b2 : value → result (list value)) : Prop :=
  match out with
  | [] => True
  | x :: rest =>
      match b1 x, b2 x with
      | Ok _, Ok _ => same_stop rest b1 b2
      | Raise _, Raise _ => True
      | _, _ => False
      end
  end.

(** What the consumer of a generator gets is what it would make of the
    finished pass, and how far the upstream ran depends only on where the
    consumer raised. *)
Definition fuses (EXAMPLE_ID : string) {rng : Type}
    (np_random_shuffle : rng → ndarray → ndarray * rng) (u : iterator)
  : Prop :=
  (∀ body st,
     (iterate EXAMPLE_ID np_random_shuffle u body st).1
     = feed (iter EXAMPLE_ID np_random_shuffle u st).1 body) ∧
  (∀ b1 b2 st,
     same_stop (iter EXAMPLE_ID np_random_shuffle u st).1.1 b1 b2 →
     (iterate EXAMPLE_ID np_random_shuffle u b1 st).2
     = (iterate EXAMPLE_ID np_random_shuffle u b2 st).2).

(** A view whose three ways of reading agree: one pass yields [out] without
    an exception and without touching the store, [len] is the number of
    examples in [out], and position [i] holds the [i]-th of them. *)
Definition yields (EXAMPLE_ID : string) (u : iterator) (out : list value)
  : Prop :=
  len u = Ok (Z.of_nat (length out)) ∧
  (∀ (rng : Type) (np_random_shuffle : rng → ndarray → ndarray * rng)
     (st : store rng),
     iter EXAMPLE_ID np_random_shuffle u st = ((out, None), st)) ∧
  (∀ (i : nat) (x : value),
     out !! i = Some x → getitem_int EXAMPLE_ID u (Z.of_nat i) = Ok x).

(** The example an Example Source makes of a stored entry. *)
Definition example_of (EXAMPLE_ID : string) (kv : string * value)
  : result value :=
  value_setitem (deepcopy kv.2) EXAMPLE_ID (VStr kv.1).

(** What [source_ab] yields. *)
Definition source_ab_examples : list value :=
  [VDict [("x"%string, VInt 1); ("example_id"%string, VStr "a")];
   VDict [("x"%string, VInt 2); ("example_id"%string, VStr "b")]].

(** ** Example filters and enrichers *)

(** [x in id_list] for a list of ids: a value that is no string equals
    none of them. *)
Definition value_in_ids (x : value) (id_list : list string) : bool :=
  match x with
  | VStr s => str_in s id_list
  | _ => false
  end.

(** [IdFilter.__call__], for an [id_list] that is a list of strings. *)
Definition IdFilter_call (EXAMPLE_ID : string) (id_list : list string)
    (example : value) : result bool :=
  eid ← value_getitem example EXAMPLE_ID;
  Ok (value_in_ids eid id_list).

(** [d[key]] for a dict with string keys and any key: another hashable
    value is a missing key, a list or a dict cannot be hashed. *)
Definition dict_getitem_value {A} (d : list (string * A)) (key : value)
  : result A :=
  match key with
  | VStr k => dict_getitem d k
  | VList _ | VDict _ => Raise TypeError
  | _ => Raise KeyError
  end.

(** The attributes of an [AlignmentReader]. *)
Record AlignmentReader : Type := MkAlignmentReader {
  _ali_path : option string;
  _alignments : option (list (string * value));
  _map_fn : value → result value
}.

Section AlignmentReader.
(** [keys.EXAMPLE_ID], [keys.ALIGNMENT] and [keys.NUM_ALIGNMENT_FRAMES] of
    [nt.database.keys], and [kaldi.alignment.import_alignment_data], which
    reads the table from a path: parameters, as they are not part of the
    sources at hand.  Log messages are not modelled, but the expressions
    inside them are evaluated. *)
Context (EXAMPLE_ID ALIGNMENT NUM_ALIGNMENT_FRAMES : string).
Context (import_alignment_data :
           option string → result (list (string * value))).

(** [AlignmentReader.__init__]; [example_id_map_fn] defaults to
    [lambda x: x[keys.EXAMPLE_ID]]. *)
Definition AlignmentReader_init (alignment_path : option string)
    (alignments : option (list (string * value)))
    (example_id_map_fn : option (value → result value))
  : result AlignmentReader :=
  if bool_decide (alignment_path = None) && bool_decide (alignments = None)
  then Raise AssertionError
  else Ok (MkAlignmentReader alignment_path alignments
             (default (λ x, value_getitem x EXAMPLE_ID) example_id_map_fn)).

(** The [try] block of [AlignmentReader.__call__]. *)
Definition AlignmentReader_attach (alignments : list (string * value))
    (map_fn : value → result value) (example : value) : result value :=
  key ← map_fn example;
  ali ← dict_getitem_value alignments key;
  example ← value_setitem example ALIGNMENT ali;
  ali ← value_getitem example ALIGNMENT;
  n ← value_len ali;
  value_setitem example NUM_ALIGNMENT_FRAMES (VInt n).

(** [AlignmentReader.__call__]: the table is read on the first call if it
    was not given; a [KeyError] from the [try] block is answered with a
    warning, whose text looks up the id and maps the example once more. *)
Definition AlignmentReader_call (self : AlignmentReader) (example : value)
  : result value * AlignmentReader :=
  let loaded :=
    match _alignments self with
    | Some alignments => Ok alignments
    | None => import_alignment_data (_ali_path self)
    end in
  match loaded with
  | Raise e => (Raise e, self)
  | Ok alignments =>
      let self :=
        MkAlignmentReader (_ali_path self) (Some alignments) (_map_fn self) in
      (match AlignmentReader_attach alignments (_map_fn self) example with
       | Raise KeyError =>
           _ ← value_getitem example EXAMPLE_ID;
           _ ← _map_fn self example;
           Ok example
       | r => r
       end, self)
  end.
End AlignmentReader.

(** A table of alignments to run the reader on. *)
Definition alignments_a : list (string * value) :=
  [("a"%string, VList [VInt 7; VInt 7; VInt 9])].

(** ** [recursive_transform] *)

Section RecursiveTransform.
(** [np.array(l)] on the list of transformed items: a parameter, as arrays
    are no example data. *)
Context (np_array : list value → result value).

(** [recursive_transform(func, dict_list_val, list2array)]: the
    comprehensions run over the items in order and stop at the first
    exception. *)
Fixpoint recursive_transform (func : value → result value)
    (dict_list_val : value) (list2array : bool) : result value :=
  match dict_list_val with
  | VDict items =>
      d ← (fix go (items : list (string * value))
             : result (list (string * value)) :=
             match items with
             | [] => Ok []
             | (key, val) :: rest =>
                 v ← recursive_transform func val list2array;
                 vs ← go rest;
                 Ok ((key, v) :: vs)
             end) items;
      Ok (VDict d)
  | VList items =>
      l ← (fix go (items : list value) : result (list value) :=
             match items with
             | [] => Ok []
             | val :: rest =>
                 v ← recursive_transform func val list2array;
                 vs ← go rest;
                 Ok (v :: vs)
             end) items;
      if list2array then np_array l else Ok (VList l)
  | _ => func dict_list_val
  end.
End RecursiveTransform.

(** The leaf values of a tree, in the order in which
    [recursive_transform] reaches them. *)
Fixpoint leaves (v : value) : list value :=
  match v with
  | VDict items =>
      (fix go (items : list (string * value)) : list value :=
         match items with
         | [] => []
         | (_, val) :: rest => leaves val ++ go rest
         end) items
  | VList items =>
      (fix go (items : list value) : list value :=
         match items with
         | [] => []
         | val :: rest => leaves val ++ go rest
         end) items
  | _ => [v]
  end.

(** What a call makes of the leaves: [func] is applied to them in order,
    and the leaves of the result are those of what [func] returned. *)
Definition reaches (f : value → result value) (r : result value)
    (v : value) : Prop :=
  match r with
  | Ok w => ∃ ws, mapM f (leaves v) = Ok ws ∧
                  leaves w = concat (map leaves ws)
  | Raise e => mapM f (leaves v) = Raise e
  end.

(** ** Which views have a length, and which passes shuffle *)

(** A Filter or a Mix has no length, and neither has a view that takes
    its length from one. *)
Fixpoint sized (self : iterator) : bool :=
  match self with
  | ExamplesIterator _ | SliceIterator _ _ => true
  | MapIterator _ i | ShuffleIterator _ i | ReShuffleIterator _ i => sized i
  | FilterIterator _ _ | MixIterator => false
  | ConcatenateIterator _ its =>
      (fix go (its : list iterator) : bool :=
         match its with
         | [] => true
         | i :: rest => sized i && go rest
         end) its
  end.

(** Whether a pass over the view runs the pass of a [ReShuffleIterator]:
    static Shuffle and Slice views address their upstream by position and
    never run its pass. *)
Fixpoint reshuffles (self : iterator) : bool :=
  match self with
  | ReShuffleIterator _ _ => true
  | ExamplesIterator _ | ShuffleIterator _ _ | SliceIterator _ _
  | MixIterator => false
  | MapIterator _ i | FilterIterator _ i => reshuffles i
  | ConcatenateIterator _ its =>
      (fix go (its : list iterator) : bool :=
         match its with
         | [] => false
         | i :: rest => reshuffles i || go rest
         end) its
  end.

(** Two stores with the same random state and the same stored
    permutations. *)
Definition same_randomness {rng : Type} (st st' : store rng) : Prop :=
  random_state st' = random_state st ∧ permutations st' = permutations st.

(** ** Facts about the containers *)

(** [List.map] and stdpp's [fmap] on lists are convertible; this turns the
    former into the latter so that stdpp's lemmas rewrite. *)
Ltac map_to_fmap :=
  repeat match goal with
         | |- context [map ?f ?l] => change (map f l) with (f <$> l)
         | H : context [map ?f ?l] |- _ => change (map f l) with (f <$> l) in H
         end.

Lemma str_in_elem_of (k : string) (l : list string) :
  str_in k l = true ↔ k ∈ l.
Proof.
  unfold str_in. rewrite existsb_exists. split.
  - intros (x & Hx & Heq). apply String.eqb_eq in Heq. subst.
    by apply list_elem_of_In.
  - intros Hk. exists k. split; [by apply list_elem_of_In|apply String.eqb_refl].
Qed.

Lemma str_in_not_elem_of (k : string) (l : list string) :
  str_in k l = false ↔ k ∉ l.
Proof.
  rewrite <-str_in_elem_of. destruct (str_in k l); split; congruence.
Qed.

Lemma dict_get_elem_of {A} (d : list (string * A)) (k : string) (v : A) :
  NoDup (map fst d) → (k, v) ∈ d → dict_get d k = Some v.
Proof.
  induction d as [|[k' v'] d IH]; intros Hnd Hin.
  - by apply elem_of_nil in Hin.
  - simpl in *. apply NoDup_cons in Hnd as [Hk' Hnd].
    apply elem_of_cons in Hin as [[= -> ->]|Hin].
    + by rewrite String.eqb_refl.
    + destruct (String.eqb_spec k' k) as [->|_]; [|by apply IH].
      destruct Hk'. apply list_elem_of_In. apply in_map_iff.
      exists (k, v). split; [done|by apply list_elem_of_In].
Qed.

Lemma dict_get_Some_elem_of {A} (d : list (string * A)) (k : string) (v : A) :
  dict_get d k = Some v → (k, v) ∈ d.
Proof.
  induction d as [|[k' v'] d IH]; simpl; [done|].
  destruct (String.eqb_spec k' k) as [->|_].
  - intros [= ->]. apply elem_of_cons. by left.
  - intros H. apply elem_of_cons. right. by apply IH.
Qed.

Lemma dict_get_None_not_key {A} (d : list (string * A)) (k : string) :
  dict_get d k = None ↔ k ∉ map fst d.
Proof.
  induction d as [|[k' v'] d IH]; simpl.
  - split; [intros _; apply not_elem_of_nil|done].
  - rewrite not_elem_of_cons. destruct (String.eqb_spec k' k) as [->|Hne].
    + split; [done|]. intros [? _]. done.
    + rewrite IH. split; [intros ?; split; congruence|by intros [_ ?]].
Qed.

Lemma dict_get_set_eq {A} (d : list (string * A)) (k : string) (v : A) :
  dict_get (dict_set d k v) k = Some v.
Proof.
  induction d as [|[k' v'] d IH]; simpl.
  - by rewrite String.eqb_refl.
  - destruct (String.eqb_spec k' k) as [->|Hne]; simpl.
    + by rewrite String.eqb_refl.
    + by destruct (String.eqb_spec k' k).
Qed.

Lemma dict_get_set_ne {A} (d : list (string * A)) (k k0 : string) (v : A) :
  k ≠ k0 → dict_get (dict_set d k v) k0 = dict_get d k0.
Proof.
  intros Hne. induction d as [|[k' v'] d IH]; simpl.
  - by destruct (String.eqb_spec k k0).
  - destruct (String.eqb_spec k' k) as [->|Hne']; simpl.
    + by destruct (String.eqb_spec k k0).
    + by rewrite IH.
Qed.

Lemma list_getitem_in_range {A} (l : list A) (i : Z) (x : A) :
  (0 ≤ i)%Z → l !! Z.to_nat i = Some x → list_getitem l i = Ok x.
Proof.
  intros Hi Hx. unfold list_getitem.
  assert ((i <? 0)%Z = false) as E by by apply Z.ltb_ge.
  by rewrite !E, Hx.
Qed.

Lemma list_getitem_too_large {A} (l : list A) (i : Z) :
  (Z.of_nat (length l) ≤ i)%Z → list_getitem l i = Raise IndexError.
Proof.
  intros Hi. unfold list_getitem.
  assert ((i <? 0)%Z = false) as E by (apply Z.ltb_ge; lia).
  rewrite !E, lookup_ge_None_2; [done|lia].
Qed.

Lemma all_distinct_NoDup (l : list string) :
  all_distinct l = true ↔ NoDup l.
Proof.
  unfold all_distinct. rewrite Nat.eqb_eq. split.
  - induction l as [|x l IH]; [constructor|]. simpl.
    destruct (in_dec string_dec x l) as [Hin|Hin].
    + intros Hlen. pose proof (NoDup_incl_length (NoDup_nodup string_dec l)
        (λ y Hy, proj1 (nodup_In string_dec l y) Hy)). simpl in *. lia.
    + simpl. intros [= Hlen]. apply NoDup_cons. split; [|by apply IH].
      by rewrite list_elem_of_In.
  - intros Hnd. apply NoDup_ListNoDup in Hnd.
    by rewrite (nodup_fixed_point string_dec Hnd).
Qed.

(** ** Induction on views *)

Section iterator_induction.
Context (P : iterator → Prop).
Context (HExamples : ∀ examples, P (ExamplesIterator examples)).
Context (HMap : ∀ f i, P i → P (MapIterator f i)).
Context (HShuffle : ∀ p i, P i → P (ShuffleIterator p i)).
Context (HReShuffle : ∀ o i, P i → P (ReShuffleIterator o i)).
Context (HSlice : ∀ s i, P i → P (SliceIterator s i)).
Context (HFilter : ∀ f i, P i → P (FilterIterator f i)).
Context (HConcatenate : ∀ o its, Forall P its → P (ConcatenateIterator o its)).
Context (HMix : P MixIterator).

Fixpoint iterator_nested_ind (self : iterator) : P self :=
  match self with
  | ExamplesIterator examples => HExamples examples
  | MapIterator f i => HMap f i (iterator_nested_ind i)
  | ShuffleIterator p i => HShuffle p i (iterator_nested_ind i)
  | ReShuffleIterator o i => HReShuffle o i (iterator_nested_ind i)
  | SliceIterator s i => HSlice s i (iterator_nested_ind i)
  | FilterIterator f i => HFilter f i (iterator_nested_ind i)
  | ConcatenateIterator o its =>
      HConcatenate o its
        ((fix go (its : list iterator) : Forall P its :=
            match its with
            | [] => Forall_nil_2 P
            | i :: rest => Forall_cons_2 P i rest (iterator_nested_ind i) (go rest)
            end) its)
  | MixIterator => HMix
  end.
End iterator_induction.

(** ** The loops, unfolded *)

Lemma len_concatenate (o : nat) (its : list iterator) :
  len (ConcatenateIterator o its) = sum_len its.
Proof.
  simpl. induction its as [|i rest IH]; [done|]. simpl. by rewrite IH.
Qed.

Lemma getitem_int_concatenate (ID : string) (o : nat) (its : list iterator)
    (item : Z) :
  getitem_int ID (ConcatenateIterator o its) item = walk ID its item.
Proof.
  simpl. revert item. induction its as [|i rest IH]; intros item; [done|].
  simpl. destruct (len i) as [n|e]; [|done]. simpl.
  destruct (n <=? item)%Z; [apply IH|done].
Qed.

Lemma len_nonneg (self : iterator) (n : Z) : len self = Ok n → (0 ≤ n)%Z.
Proof.
  revert n.
  induction self as [ex|f i IHi|p i IHi|o i IHi|s i IHi|f i IHi|o its IH|]
    using iterator_nested_ind; intros n Hn.
  7: { rewrite len_concatenate in Hn. revert n Hn.
       induction IH as [|i rest Hi _ IHrest]; intros n; simpl.
       - intros [= <-]. lia.
       - destruct (len i) as [m|] eqn:Hm; [|done]. simpl.
         destruct (sum_len rest) as [s|] eqn:Hs; [|done]. simpl.
         intros [= <-]. specialize (Hi _ eq_refl).
         specialize (IHrest _ eq_refl). lia. }
  all: simpl in Hn; try done; try (injection Hn as <-; lia); by apply IHi.
Qed.

Lemma sum_len_nonneg (its : list iterator) (n : Z) :
  sum_len its = Ok n → (0 ≤ n)%Z.
Proof.
  rewrite <-(len_concatenate 0). apply len_nonneg.
Qed.

(** ** Example Source *)

Lemma ExamplesIterator_fetch_dict (ID : string)
    (examples : list (string * value)) (k : string)
    (body : list (string * value)) :
  NoDup (map fst examples) → (k, VDict body) ∈ examples →
  ExamplesIterator_fetch ID examples k = Ok (VDict (dict_set body ID (VStr k))).
Proof.
  intros Hnd Hin. unfold ExamplesIterator_fetch, dict_getitem.
  by rewrite (dict_get_elem_of _ _ _ Hnd Hin).
Qed.

Lemma ExamplesIterator_getitem_str_dict (ID : string)
    (examples : list (string * value)) (k : string)
    (body : list (string * value)) :
  NoDup (map fst examples) → (k, VDict body) ∈ examples →
  ExamplesIterator_getitem_str ID examples k
  = Ok (VDict (dict_set body ID (VStr k))).
Proof.
  intros Hnd Hin. unfold ExamplesIterator_getitem_str.
  assert (str_in k (map fst examples) = true) as ->.
  { apply str_in_elem_of. apply (list_elem_of_fmap_2 fst _ _ Hin). }
  by apply ExamplesIterator_fetch_dict.
Qed.

Lemma ExamplesIterator_getitem_str_missing (ID : string)
    (examples : list (string * value)) (k : string) :
  k ∉ map fst examples →
  ExamplesIterator_getitem_str ID examples k = Raise IndexError.
Proof.
  intros Hk. unfold ExamplesIterator_getitem_str.
  by rewrite (proj2 (str_in_not_elem_of _ _) Hk).
Qed.

(** C5: an Example Source built from a mapping with N unique ids has length
    N, its keys are the N distinct ids in stored order, and a lookup by key
    [k] gives the stored body with the identifier field set to [k]. *)
Theorem examples_source_contract (ID : string) (rng : Type)
    (examples : list (string * value)) :
  NoDup (map fst examples) →
  len (ExamplesIterator examples) = Ok (Z.of_nat (length examples)) ∧
  (∀ st : store rng,
     keys (ExamplesIterator examples) st = (Ok (map fst examples), st)) ∧
  length (map fst examples) = length examples ∧
  NoDup (map fst examples) ∧
  ∀ (k : string) (body : list (string * value)) (st : store rng),
    (k, VDict body) ∈ examples →
    ∃ ex, getitem_str ID (ExamplesIterator examples) k st = (Ok ex, st) ∧
          ex = VDict (dict_set body ID (VStr k)) ∧
          value_getitem ex ID = Ok (VStr k).
Proof.
  intros Hnd. repeat split; [apply length_map|done|].
  intros k body st Hin. eexists. split; [|split; [reflexivity|]].
  - simpl. by rewrite (ExamplesIterator_getitem_str_dict _ _ _ _ Hnd Hin).
  - simpl. unfold dict_getitem. by rewrite dict_get_set_eq.
Qed.

Lemma examples_source_contract_witness :
  NoDup (map fst source_ab) ∧
  len (ExamplesIterator source_ab) = Ok 2%Z ∧
  getitem_str "example_id" (ExamplesIterator source_ab) "b" empty_store
  = (Ok (VDict [("x"%string, VInt 2);
                ("example_id"%string, VStr "b")]), empty_store).
Proof.
  assert (NoDup (map fst source_ab)) as Hnd
    by (apply (bool_decide_unpack _); vm_compute; exact I).
  destruct (examples_source_contract "example_id" nat source_ab Hnd)
    as (Hlen & _ & _ & _ & Hget).
  split; [exact Hnd|]. split; [exact Hlen|].
  destruct (Hget "b"%string [("x"%string, VInt 2)] empty_store)
    as (ex & Heq & -> & _); [repeat constructor|exact Heq].
Defined.

(** ** Concatenate: positions *)

Lemma walk_owner (ID : string) (pre post : list iterator) (it : iterator)
    (s n i : Z) :
  sum_len pre = Ok s → len it = Ok n → (s ≤ i < s + n)%Z →
  walk ID (pre ++ it :: post) i = getitem_int ID it (i - s).
Proof.
  revert s i. induction pre as [|p pre IH]; intros s i Hs Hn Hi; simpl in *.
  - injection Hs as <-. rewrite Hn. simpl.
    destruct (Z.leb_spec n i); [lia|]. by rewrite Z.sub_0_r.
  - destruct (len p) as [m|] eqn:Hm; [|done]. simpl in *.
    destruct (sum_len pre) as [s'|] eqn:Hs'; [|done]. simpl in *.
    injection Hs as <-.
    pose proof (len_nonneg _ _ Hm). pose proof (sum_len_nonneg _ _ Hs').
    destruct (Z.leb_spec m i); [|lia].
    rewrite (IH s' (i - m)%Z); [f_equal; lia|done|done|lia].
Qed.

Lemma walk_past_end (ID : string) (its : list iterator) (total i : Z) :
  sum_len its = Ok total → (total ≤ i)%Z → walk ID its i = Ok VNone.
Proof.
  revert total i. induction its as [|it its IH]; intros total i Hs Hi; [done|].
  simpl in *. destruct (len it) as [m|] eqn:Hm; [|done]. simpl in *.
  destruct (sum_len its) as [s'|] eqn:Hs'; [|done]. simpl in *.
  injection Hs as <-.
  pose proof (len_nonneg _ _ Hm). pose proof (sum_len_nonneg _ _ Hs').
  destruct (Z.leb_spec m i); [|lia]. apply (IH s'); [done|lia].
Qed.

(** C3: at a position equal to the total length the loop of
    [ConcatenateIterator.__getitem__] runs out of upstreams and the call
    evaluates to [None] instead of raising; positions below the total are
    delegated with the residual offset. *)
Theorem concatenate_position_past_end :
  let view := ConcatenateIterator 0
                [ExamplesIterator source_ab; ExamplesIterator source_c] in
  len view = Ok 3%Z ∧
  getitem_int "example_id" view 2
  = getitem_int "example_id" (ExamplesIterator source_c) 0 ∧
  getitem_int "example_id" view 3 = Ok VNone ∧
  ∀ i, (3 ≤ i)%Z → getitem_int "example_id" view i = Ok VNone.
Proof.
  repeat split. intros i Hi. rewrite getitem_int_concatenate.
  by apply (walk_past_end _ _ 3%Z).
Qed.

(** ** Concatenate: keys *)

Lemma getitem_str_concatenate (ID : string) {rng : Type} (o : nat)
    (its : list iterator) (item : string) (st : store rng) :
  getitem_str ID (ConcatenateIterator o its) item st
  = if _chain_map (get_attrs st o) then chain_lookup ID its item st
    else
      let (r, st) := keys (ConcatenateIterator o its) st in
      match r with
      | Raise e => (Raise e, st)
      | Ok _ =>
          chain_lookup ID its item
            (set_attrs st o (ConcatAttrs (_keys (get_attrs st o)) true))
      end.
Proof.
  assert (∀ st', (fix lookup (maps : list iterator) (st : store rng)
            : result value * store rng :=
            match maps with
            | [] => (Raise KeyError, st)
            | mapping :: rest =>
                let (r, st) := getitem_str ID mapping item st in
                match r with
                | Raise KeyError => lookup rest st
                | _ => (r, st)
                end
            end) its st' = chain_lookup ID its item st') as Heq.
  { induction its as [|i rest IH]; intros st'; [done|]. simpl.
    destruct (getitem_str ID i item st') as [[a|[]] st'']; try done. }
  cbn [getitem_str]. rewrite !Heq. destruct (_chain_map (get_attrs st o)); [done|].
  destruct (keys (ConcatenateIterator o its) st) as [[ks|e] st']; [|done].
  by rewrite Heq.
Qed.

(** [ChainMap] goes on to the next map after a [KeyError] only. *)
Lemma chain_lookup_stops (ID : string) {rng : Type} (m : iterator)
    (rest : list iterator) (item : string) (st st' : store rng) (e : exn) :
  getitem_str ID m item st = (Raise e, st') → e ≠ KeyError →
  chain_lookup ID (m :: rest) item st = (Raise e, st').
Proof. intros Hm He. simpl. rewrite Hm. by destruct e. Qed.

(** C1: for sources with ids [a, b] and [c] the concatenation has length 3
    and keys [a, b, c], but the lookup of [c] does not reach the second
    source: the first one answers with an IndexError, which the chain map
    does not take for a miss. *)
Theorem concatenate_lookup_second_source :
  let '(view, st) :=
    ConcatenateIterator_init
      [ExamplesIterator source_ab; ExamplesIterator source_c] empty_store in
  len view = Ok 3%Z ∧
  (keys view st).1 = Ok ["a"; "b"; "c"]%string ∧
  (getitem_str "example_id" view "a" st).1
  = Ok (VDict [("x"%string, VInt 1); ("example_id"%string, VStr "a")]) ∧
  (getitem_str "example_id" (ExamplesIterator source_c) "c" st).1
  = Ok (VDict [("x"%string, VInt 3); ("example_id"%string, VStr "c")]) ∧
  (getitem_str "example_id" view "c" st).1 = Raise IndexError.
Proof. vm_compute. repeat split. Qed.

(** ** Slice *)

(** The key list of the upstream cannot be indexed by the array of
    positions. *)
Lemma slice_keys_raise {rng : Type} (slice : ndarray) (u : iterator)
    (st st' : store rng) (ks : list string) :
  keys u st = (Ok ks, st') →
  keys (SliceIterator slice u) st = (Raise TypeError, st').
Proof. intros Hu. simpl. by rewrite Hu. Qed.

Lemma slice_getitem_str_raise (ID : string) {rng : Type} (slice : ndarray)
    (u : iterator) (st st' : store rng) (ks : list string) (k : string) :
  keys u st = (Ok ks, st') →
  getitem_str ID (SliceIterator slice u) k st = (Raise TypeError, st').
Proof.
  intros Hu. cbn [getitem_str]. by rewrite (slice_keys_raise _ _ _ _ _ Hu).
Qed.

(** C2: on the slice [0:2] of a three-example source, [keys()] does not
    return the selected keys and a lookup by a selected key is not
    delegated: both end in a TypeError, while positions work. *)
Theorem slice_keys_and_lookup :
  let u := ExamplesIterator (source_ab ++ source_c) in
  ∃ view, SliceIterator_init (SelSlice (Some 0%Z) (Some 2%Z) None) u = Ok view ∧
    view = SliceIterator [0%Z; 1%Z] u ∧
    len view = Ok 2%Z ∧
    getitem_int "example_id" view 1 = getitem_int "example_id" u 1 ∧
    (keys view empty_store).1 = Raise TypeError ∧
    (getitem_str "example_id" view "a" empty_store).1 = Raise TypeError ∧
    (getitem_str "example_id" u "a" empty_store).1
    = Ok (VDict [("x"%string, VInt 1); ("example_id"%string, VStr "a")]).
Proof. eexists. vm_compute. repeat split. Qed.

(** ** Filter *)

(** C6: a lookup by key on a Filter view succeeds exactly when the upstream
    lookup succeeds and the predicate holds of its example, and is an
    IndexError when the upstream has no such key or the predicate is false;
    over an Example Source the upstream lookup succeeds exactly for its
    keys; length and positional access fail for every input. *)
Theorem filter_view_contract (ID : string) (rng : Type)
    (p : value → result bool) (u : iterator) :
  len (FilterIterator p u) = Raise NotImplementedError ∧
  (∀ i : Z, getitem_int ID (FilterIterator p u) i = Raise AssertionError) ∧
  (∀ (k : string) (st : store rng) (ex : value),
     (getitem_str ID (FilterIterator p u) k st).1 = Ok ex
     ↔ (getitem_str ID u k st).1 = Ok ex ∧ p ex = Ok true) ∧
  (∀ (k : string) (st : store rng),
     (getitem_str ID u k st).1 = Raise IndexError
     ∨ (∃ ex, (getitem_str ID u k st).1 = Ok ex ∧ p ex = Ok false) →
     (getitem_str ID (FilterIterator p u) k st).1 = Raise IndexError) ∧
  (∀ (examples : list (string * value)) (k : string) (st : store rng),
     u = ExamplesIterator examples →
     NoDup (map fst examples) →
     Forall (λ kv, ∃ body, kv.2 = VDict body) examples →
     (k ∈ (map fst examples) → ∃ ex, (getitem_str ID u k st).1 = Ok ex) ∧
     (k ∉ (map fst examples) →
      (getitem_str ID u k st).1 = Raise IndexError)).
Proof.
  split; [done|]. split; [done|]. split; [|split].
  - intros k st ex. cbn [getitem_str].
    destruct (getitem_str ID u k st) as [[ex'|e] st']; simpl; [|by split; [|intros []]].
    destruct (p ex') as [[]|e] eqn:Hp; simpl.
    + split; [by intros [= <-]|by intros [[= <-] _]].
    + split; [done|]. intros [[= <-] ?]. congruence.
    + split; [done|]. intros [[= <-] ?]. congruence.
  - intros k st H. cbn [getitem_str].
    destruct (getitem_str ID u k st) as [[ex'|e] st']; simpl in *.
    + destruct H as [?|(ex & [= <-] & ->)]; done.
    + destruct H as [[= ->]|(ex & ? & _)]; done.
  - intros examples k st -> Hnd Hdict. simpl. split.
    + intros Hk. apply list_elem_of_fmap in Hk as ([k' v] & -> & Hin).
      rewrite Forall_forall in Hdict.
      destruct (Hdict _ Hin) as [body Hbody]. simpl in Hbody. subst v.
      eexists. by apply ExamplesIterator_getitem_str_dict.
    + apply ExamplesIterator_getitem_str_missing.
Qed.

(** ** The alignment check *)

Lemma remove_examples_without_alignment_counted (ALI NS OBS : string)
    (example : list (string * value)) (ali : value) (m n : Z) :
  dict_get example ALI = Some ali → value_len ali = Ok m → m ≠ 0%Z →
  dict_get example NS = Some (VInt n)
  ∨ (∃ d, dict_get example NS = Some (VDict d)
          ∧ dict_get d OBS = Some (VInt n)) →
  let num_frames := ((n - 240) / 160)%Z in
  remove_examples_without_alignment ALI NS OBS example
  = Ok (bool_decide
          (m = num_frames ∨ m = ((num_frames + (- num_frames) mod 3) / 3)%Z)).
Proof.
  intros Hali Hm Hm0 Hn num_frames.
  unfold remove_examples_without_alignment, dict_getitem.
  rewrite Hali. simpl. rewrite Hm. simpl.
  destruct (Z.eqb_spec m 0) as [|_]; [done|]. simpl.
  destruct Hn as [->|(d & -> & Hd)]; simpl; [|rewrite Hd; simpl];
    rewrite ?Hm; simpl;
    replace (n - 400 + 160)%Z with (n - 240)%Z by lia; fold num_frames;
    (destruct (Z.eqb_spec m num_frames) as [Heq|Hne]; simpl;
     [by rewrite bool_decide_eq_true_2; [|left]|]);
    (destruct (Z.eqb_spec m ((num_frames + - num_frames mod 3) / 3))
       as [Heq'|Hne']; simpl;
     [by rewrite bool_decide_eq_true_2; [|right]|]);
    (rewrite bool_decide_eq_false_2; [done|]; intros [?|?]; done).
Qed.

(** C9: the alignment check rejects an example with no alignment or an
    empty one, accepts one with a non-empty alignment and no sample count,
    and with a sample count [n] (given directly or per modality, within 64
    bits) accepts exactly when the alignment length is
    [floor((n - 240) / 160)] or that value's low-frame-rate reduction; ten
    alignment entries and 1840 samples are accepted. *)
Theorem alignment_check_contract (ALI NS OBS : string)
    (example : list (string * value)) :
  (dict_get example ALI = None →
   remove_examples_without_alignment ALI NS OBS example = Ok false) ∧
  (∀ ali, dict_get example ALI = Some ali → value_len ali = Ok 0%Z →
   remove_examples_without_alignment ALI NS OBS example = Ok false) ∧
  (∀ ali m, dict_get example ALI = Some ali → value_len ali = Ok m →
   m ≠ 0%Z → dict_get example NS = None →
   remove_examples_without_alignment ALI NS OBS example = Ok true) ∧
  (∀ ali m n, dict_get example ALI = Some ali → value_len ali = Ok m →
   m ≠ 0%Z →
   dict_get example NS = Some (VInt n)
   ∨ (∃ d, dict_get example NS = Some (VDict d)
           ∧ dict_get d OBS = Some (VInt n)) →
   (- 2 ^ 63 ≤ n < 2 ^ 63)%Z →
   let num_frames := ((n - 240) / 160)%Z in
   let num_frames_lfr := ((num_frames + (- num_frames) mod 3) / 3)%Z in
   (m = num_frames ∨ m = num_frames_lfr →
    remove_examples_without_alignment ALI NS OBS example = Ok true) ∧
   (m ≠ num_frames → m ≠ num_frames_lfr →
    remove_examples_without_alignment ALI NS OBS example = Ok false)) ∧
  (∀ items, dict_get example ALI = Some (VList items) → length items = 10 →
   dict_get example NS = Some (VInt 1840) →
   remove_examples_without_alignment ALI NS OBS example = Ok true).
Proof.
  split; [|split; [|split; [|split]]].
  - intros Hali. unfold remove_examples_without_alignment. by rewrite Hali.
  - intros ali Hali Hlen. unfold remove_examples_without_alignment.
    rewrite Hali. simpl. by rewrite Hlen.
  - intros ali m Hali Hlen Hm Hns. unfold remove_examples_without_alignment.
    rewrite Hali. simpl. rewrite Hlen. simpl.
    destruct (Z.eqb_spec m 0) as [|_]; [done|]. simpl. by rewrite Hns.
  - intros ali m n Hali Hlen Hm Hns _ num_frames num_frames_lfr.
    rewrite (remove_examples_without_alignment_counted _ _ _ _ _ _ _
               Hali Hlen Hm Hns).
    fold num_frames. fold num_frames_lfr. split.
    + intros H. by rewrite bool_decide_eq_true_2.
    + intros H1 H2. rewrite bool_decide_eq_false_2; [done|]. by intros [?|?].
  - intros items Hali Hlen Hns.
    rewrite (remove_examples_without_alignment_counted ALI NS OBS example
               (VList items) 10 1840 Hali); [done| |done|by left].
    simpl. by rewrite Hlen.
Qed.

Example alignment_check_accepts :
  remove_examples_without_alignment "alignment" "num_samples" "observation"
    [("alignment"%string, VList (replicate 10 (VInt 1)));
     ("num_samples"%string, VInt 1840)] = Ok true
  ∧ remove_examples_without_alignment "alignment" "num_samples" "observation"
    [("alignment"%string, VList (replicate 9 (VInt 1)));
     ("num_samples"%string, VInt 1840)] = Ok false
  ∧ remove_examples_without_alignment "alignment" "num_samples" "observation"
    [("alignment"%string, VList (replicate 4 (VInt 1)));
     ("num_samples"%string,
      VDict [("observation"%string, VInt 1840)])] = Ok true.
Proof. repeat split. Qed.

(** ** Static Shuffle *)

Lemma length_arange (n : Z) : length (arange n) = Z.to_nat n.
Proof. unfold arange. by rewrite length_map, length_seq. Qed.

Lemma elem_of_arange (n x : Z) : x ∈ arange n ↔ (0 ≤ x < n)%Z.
Proof.
  unfold arange. rewrite list_elem_of_fmap. split.
  - intros (i & -> & Hi). apply elem_of_seq in Hi. lia.
  - intros Hx. exists (Z.to_nat x). split; [lia|]. apply elem_of_seq. lia.
Qed.

Lemma NoDup_arange (n : Z) : NoDup (arange n).
Proof.
  unfold arange. apply NoDup_fmap_2; [apply Nat2Z.inj'|apply NoDup_seq].
Qed.

Lemma arange_lookup (n : Z) (i : nat) :
  i < Z.to_nat n → arange n !! i = Some (Z.of_nat i).
Proof.
  intros Hi. unfold arange. map_to_fmap.
  by rewrite list_lookup_fmap, lookup_seq_lt.
Qed.

Lemma list_getitem_Ok_inv {A} (l : list A) (i : Z) (x : A) :
  (0 ≤ i)%Z → list_getitem l i = Ok x → l !! Z.to_nat i = Some x.
Proof.
  intros Hi. unfold list_getitem.
  assert ((i <? 0)%Z = false) as E by by apply Z.ltb_ge.
  rewrite !E. by destruct (l !! Z.to_nat i); intros [= ->].
Qed.

Section Shuffle.
Context (ID : string) {rng : Type}.
Context (np_random_shuffle : rng → ndarray → ndarray * rng).
Context (np_random_shuffle_permutes :
           ∀ g a, (np_random_shuffle g a).1 ≡ₚ a).

Lemma permutation_positions (p : ndarray) (n : Z) :
  p ≡ₚ arange n →
  (∀ i, (0 ≤ i < n)%Z → ∃ j, (0 ≤ j < n)%Z ∧ list_getitem p i = Ok j) ∧
  (∀ j, (0 ≤ j < n)%Z →
     ∃ i, ((0 ≤ i < n)%Z ∧ list_getitem p i = Ok j) ∧
          ∀ i', (0 ≤ i' < n)%Z ∧ list_getitem p i' = Ok j → i' = i).
Proof.
  intros Hp.
  assert (length p = Z.to_nat n) as Hlen
    by by rewrite Hp, length_arange.
  assert (NoDup p) as Hnd by (rewrite Hp; apply NoDup_arange).
  split.
  - intros i Hi. destruct (lookup_lt_is_Some_2 p (Z.to_nat i)) as [j Hj]; [lia|].
    exists j. split; [|apply list_getitem_in_range; [lia|done]].
    apply elem_of_arange. rewrite <-Hp. by eapply list_elem_of_lookup_2.
  - intros j Hj. apply elem_of_arange in Hj as Hin. rewrite <-Hp in Hin.
    apply list_elem_of_lookup_1 in Hin as [i Hi].
    pose proof (lookup_lt_Some _ _ _ Hi) as Hlt.
    exists (Z.of_nat i). split.
    + split; [lia|]. apply list_getitem_in_range; [lia|].
      by rewrite Nat2Z.id.
    + intros i' [Hi' Hget]. apply list_getitem_Ok_inv in Hget; [|lia].
      pose proof (NoDup_lookup _ _ _ _ Hnd Hget Hi). lia.
Qed.

(** C7: a static Shuffle view, as its constructor builds it over an
    upstream of length [n], has the keys of the upstream; iterating it
    twice gives the same examples in the same order, whatever happened to
    the store in between; its positions [0 .. n) hit every upstream
    position exactly once; and a lookup by key is the upstream lookup. *)
Theorem static_shuffle_contract (u : iterator) (n : Z) (st : store rng) :
  len u = Ok n →
  ∃ p, (ShuffleIterator_init np_random_shuffle u st).1
       = Ok (ShuffleIterator p u) ∧
    p ≡ₚ arange n ∧
    len (ShuffleIterator p u) = Ok n ∧
    (∀ st' : store rng, keys (ShuffleIterator p u) st' = keys u st') ∧
    (∀ ks ks' (st' : store rng), (keys (ShuffleIterator p u) st').1 = Ok ks →
       (keys u st').1 = Ok ks' → ks ≡ₚ ks') ∧
    (∀ k (st' : store rng), getitem_str ID (ShuffleIterator p u) k st'
              = getitem_str ID u k st') ∧
    (∀ st1, let '(pass1, st2) := iter ID np_random_shuffle
                                   (ShuffleIterator p u) st1 in
            let '(pass2, st3) := iter ID np_random_shuffle
                                   (ShuffleIterator p u) st2 in
            pass1 = pass2 ∧ st2 = st1 ∧ st3 = st1) ∧
    (∀ st1 st2, (iter ID np_random_shuffle (ShuffleIterator p u) st1).1
                = (iter ID np_random_shuffle (ShuffleIterator p u) st2).1) ∧
    (∀ i, (0 ≤ i < n)%Z →
       ∃ j, (0 ≤ j < n)%Z ∧ list_getitem p i = Ok j ∧
            getitem_int ID (ShuffleIterator p u) i = getitem_int ID u j) ∧
    (∀ j, (0 ≤ j < n)%Z →
       ∃ i, ((0 ≤ i < n)%Z ∧ list_getitem p i = Ok j) ∧
            ∀ i', (0 ≤ i' < n)%Z ∧ list_getitem p i' = Ok j → i' = i).
Proof.
  intros Hn. unfold ShuffleIterator_init. rewrite Hn.
  pose proof (np_random_shuffle_permutes (random_state st) (arange n)) as Hp.
  destruct (np_random_shuffle (random_state st) (arange n)) as [p g].
  simpl in Hp. exists p. split; [done|]. split; [done|].
  destruct (permutation_positions p n Hp) as [Hfwd Hbwd].
  repeat split; try done.
  - intros ks ks' st'. simpl. by intros -> [= ->].
  - intros i Hi. destruct (Hfwd i Hi) as (j & Hj & Hget).
    exists j. split; [done|]. split; [done|]. simpl. by rewrite Hget.
Qed.
End Shuffle.

(** By contrast a reshuffling Shuffle view shuffles its stored array at the
    start of every pass: with the reversing generator the second pass runs
    the other way round, and positions are refused. *)
Example reshuffle_passes_differ :
  let u := ExamplesIterator (source_ab ++ source_c) in
  let '(r, st) := ReShuffleIterator_init u empty_store in
  ∃ view, r = Ok view ∧
    getitem_int "example_id" view 0 = Raise TypeError ∧
    let '(pass1, st1) := iter "example_id" reversing_shuffle view st in
    let '(pass2, _) := iter "example_id" reversing_shuffle view st1 in
    map (λ ex, value_getitem ex "example_id") pass1.1
    = [Ok (VStr "c"); Ok (VStr "b"); Ok (VStr "a")] ∧
    map (λ ex, value_getitem ex "example_id") pass2.1
    = [Ok (VStr "a"); Ok (VStr "b"); Ok (VStr "c")].
Proof. eexists. by vm_compute. Qed.

Lemma reversing_shuffle_permutes (g : nat) (a : ndarray) :
  (reversing_shuffle g a).1 ≡ₚ a.
Proof. simpl. symmetry. apply Permutation_rev. Qed.

Lemma static_shuffle_contract_witness :
  let u := ExamplesIterator (source_ab ++ source_c) in
  (∀ g a, (reversing_shuffle g a).1 ≡ₚ a) ∧
  len u = Ok 3%Z ∧
  ∃ p, (ShuffleIterator_init reversing_shuffle u empty_store).1
       = Ok (ShuffleIterator p u) ∧
       p ≡ₚ arange 3.
Proof.
  intros u. split; [exact reversing_shuffle_permutes|]. split; [reflexivity|].
  destruct (static_shuffle_contract "example_id" reversing_shuffle
              reversing_shuffle_permutes u 3 empty_store eq_refl)
    as (p & Hinit & Hperm & _).
  exists p. split; [exact Hinit|exact Hperm].
Defined.

(** ** Keys and iteration order *)

Lemma examples_position (ID : string) (examples : list (string * value))
    (idx : Z) :
  NoDup (map fst examples) →
  Forall (λ kv, ∃ body, kv.2 = VDict body) examples →
  (0 ≤ idx < Z.of_nat (length examples))%Z →
  ∃ k body,
    examples !! Z.to_nat idx = Some (k, VDict body) ∧
    list_getitem (map fst examples) idx = Ok k ∧
    getitem_int ID (ExamplesIterator examples) idx
    = Ok (VDict (dict_set body ID (VStr k))).
Proof.
  intros Hnd Hdict Hidx.
  destruct (lookup_lt_is_Some_2 examples (Z.to_nat idx)) as [[k v] Hkv]; [lia|].
  rewrite Forall_forall in Hdict.
  apply list_elem_of_lookup_2 in Hkv as Hin.
  destruct (Hdict _ Hin) as [body Hbody]. simpl in Hbody. subst v.
  exists k, body. split; [done|].
  assert (list_getitem (map fst examples) idx = Ok k) as Hk.
  { apply list_getitem_in_range; [lia|]. map_to_fmap.
    by rewrite list_lookup_fmap, Hkv. }
  split; [done|]. simpl. unfold ExamplesIterator_getitem_int. rewrite Hk.
  simpl. by apply ExamplesIterator_fetch_dict.
Qed.

Lemma key_at_arange (ks : list string) :
  key_at ks <$> arange (Z.of_nat (length ks)) = ks.
Proof.
  apply list_eq. intros i. rewrite list_lookup_fmap.
  destruct (decide (i < length ks)) as [Hi|Hi].
  - rewrite arange_lookup by lia. simpl. unfold key_at. rewrite Nat2Z.id.
    by destruct (lookup_lt_is_Some_2 ks i Hi) as [k ->].
  - rewrite (lookup_ge_None_2 ks) by lia.
    rewrite lookup_ge_None_2; [done|]. rewrite length_arange. lia.
Qed.

Lemma for_each_cons (x : result value) (rest : list (result value))
    (body : value → result (list value)) :
  for_each (x :: rest) body
  = match x ≫= body with
    | Raise e => ([], Some e)
    | Ok out => let (outs, e) := for_each rest body in (out ++ outs, e)
    end.
Proof. done. Qed.

Lemma shuffled_examples (ID : string) (examples : list (string * value))
    (p : list Z) :
  NoDup (map fst examples) →
  Forall (λ kv, ∃ body, kv.2 = VDict body) examples →
  Forall (λ idx, (0 ≤ idx < Z.of_nat (length examples))%Z) p →
  ∃ out,
    for_each (map (getitem_int ID (ExamplesIterator examples)) p)
      (λ example, Ok [example]) = (out, None) ∧
    mapM (list_getitem (map fst examples)) p
    = Ok (key_at (map fst examples) <$> p) ∧
    map (λ ex, value_getitem ex ID) out
    = map (λ k, Ok (VStr k)) (key_at (map fst examples) <$> p).
Proof.
  intros Hnd Hdict Hp. induction Hp as [|idx p Hidx _ IH].
  - by exists [].
  - destruct IH as (out & Hout & Hks & Hids).
    destruct (examples_position ID _ _ Hnd Hdict Hidx)
      as (k & body & Hkv & Hk & Hget).
    exists (VDict (dict_set body ID (VStr k)) :: out).
    assert (key_at (map fst examples) idx = k) as Hkey.
    { unfold key_at. apply list_getitem_Ok_inv in Hk; [|lia]. by rewrite Hk. }
    split; [|split].
    + change (map ?f (idx :: p)) with (f idx :: map f p).
      rewrite for_each_cons, Hget. cbn [mbind result_bind]. by rewrite Hout.
    + cbn. rewrite Hk. cbn. rewrite Hks. cbn. by rewrite Hkey.
    + cbn [map fmap list_fmap]. rewrite Hids, Hkey. f_equal.
      cbn. unfold dict_getitem. by rewrite dict_get_set_eq.
Qed.

Lemma permuted_keys_same_order (ks : list string) (p : list Z) :
  NoDup ks → p ≡ₚ arange (Z.of_nat (length ks)) →
  key_at ks <$> p = ks → p = arange (Z.of_nat (length ks)).
Proof.
  intros Hnd Hp Heq.
  assert (length p = length ks) as Hlen
    by (rewrite Hp, length_arange; lia).
  apply list_eq. intros i.
  destruct (decide (i < length ks)) as [Hi|Hi].
  - rewrite arange_lookup by lia.
    destruct (lookup_lt_is_Some_2 p i) as [x Hx]; [lia|]. rewrite Hx. f_equal.
    assert (0 ≤ x < Z.of_nat (length ks))%Z as Hrange.
    { apply elem_of_arange. rewrite <-Hp. by eapply list_elem_of_lookup_2. }
    assert (ks !! i = Some (key_at ks x)) as H1.
    { rewrite <-Heq at 1. by rewrite list_lookup_fmap, Hx. }
    assert (ks !! Z.to_nat x = Some (key_at ks x)) as H2.
    { unfold key_at.
      by destruct (lookup_lt_is_Some_2 ks (Z.to_nat x)) as [k ->]; [lia|]. }
    pose proof (NoDup_lookup _ _ _ _ Hnd H1 H2). lia.
  - rewrite (lookup_ge_None_2 p) by lia.
    rewrite lookup_ge_None_2; [done|]. rewrite length_arange. lia.
Qed.

(** C10: Map, static Shuffle and reshuffling Shuffle views answer [keys()]
    with the upstream's key sequence as it is.  A static Shuffle over an
    Example Source therefore lists its keys in stored order while it yields
    its examples in the order of the permutation: the same ids, and in the
    same order only for the identity permutation. *)
Theorem keys_follow_upstream (ID : string) (rng : Type)
    (np_random_shuffle : rng → ndarray → ndarray * rng) :
  (∀ f u (st : store rng), keys (MapIterator f u) st = keys u st) ∧
  (∀ p u (st : store rng), keys (ShuffleIterator p u) st = keys u st) ∧
  (∀ o u (st : store rng), keys (ReShuffleIterator o u) st = keys u st) ∧
  (∀ examples p (st : store rng),
     NoDup (map fst examples) →
     Forall (λ kv, ∃ body, kv.2 = VDict body) examples →
     p ≡ₚ arange (Z.of_nat (length examples)) →
     let view := ShuffleIterator p (ExamplesIterator examples) in
     ∃ out yielded,
       iter ID np_random_shuffle view st = ((out, None), st) ∧
       map (λ ex, value_getitem ex ID) out
       = map (λ k, Ok (VStr k)) yielded ∧
       mapM (list_getitem (map fst examples)) p = Ok yielded ∧
       (keys view st).1 = Ok (map fst examples) ∧
       yielded ≡ₚ map fst examples ∧
       (yielded = map fst examples
        ↔ p = arange (Z.of_nat (length examples)))).
Proof.
  repeat split; [].
  intros examples p st Hnd Hdict Hp view.
  assert (Forall (λ idx, (0 ≤ idx < Z.of_nat (length examples))%Z) p) as Hr.
  { apply Forall_forall. intros x Hx. apply elem_of_arange. by rewrite <-Hp. }
  destruct (shuffled_examples ID _ _ Hnd Hdict Hr) as (out & Hout & Hks & Hids).
  assert (length (map fst examples) = length examples) as Hlen
    by apply length_map.
  exists out, (key_at (map fst examples) <$> p).
  split; [|split; [done|split; [done|split; [done|split]]]].
  - unfold iter, view. cbn [iterate]. by rewrite Hout.
  - rewrite Hp, <-Hlen. by rewrite key_at_arange.
  - split.
    + intros Heq. rewrite <-Hlen. apply permuted_keys_same_order; [done| |done].
      by rewrite Hlen.
    + intros ->. rewrite <-Hlen. apply key_at_arange.
Qed.

Example keys_and_iteration_differ :
  let view := ShuffleIterator [2; 0; 1]%Z
                (ExamplesIterator (source_ab ++ source_c)) in
  (keys view empty_store).1 = Ok ["a"; "b"; "c"]%string ∧
  map (λ ex, value_getitem ex "example_id")
    (iter "example_id" reversing_shuffle view empty_store).1.1
  = [Ok (VStr "c"); Ok (VStr "a"); Ok (VStr "b")].
Proof. by vm_compute. Qed.

(** ** Concatenate: the key cache *)

Section Cache.
Context {rng : Type}.
Implicit Types (st : store rng) (o : nat) (a : concat_attrs).

Lemma get_attrs_set_eq st o a : get_attrs (set_attrs st o a) o = a.
Proof. unfold get_attrs, set_attrs. simpl. by rewrite lookup_insert_eq. Qed.

Lemma get_attrs_set_ne st o o' a :
  o ≠ o' → get_attrs (set_attrs st o a) o' = get_attrs st o'.
Proof.
  intros Hne. unfold get_attrs, set_attrs. simpl.
  by rewrite lookup_insert_ne.
Qed.

Lemma set_attrs_set_eq st o a a' :
  set_attrs (set_attrs st o a) o a' = set_attrs st o a'.
Proof. unfold set_attrs. simpl. by rewrite insert_insert_eq. Qed.

Lemma set_attrs_commute st o o' a a' :
  o ≠ o' →
  set_attrs (set_attrs st o a) o' a' = set_attrs (set_attrs st o' a') o a.
Proof.
  intros Hne. unfold set_attrs. simpl. f_equal. by apply insert_insert_ne.
Qed.

Lemma keys_concatenate o (its : list iterator) st :
  keys (ConcatenateIterator o its) st
  = match _keys (get_attrs st o) with
    | Some ks => (Ok ks, st)
    | None =>
        let (r, st) :=
          extend_keys o its
            (set_attrs st o
               (ConcatAttrs (Some []) (_chain_map (get_attrs st o)))) in
        match r with
        | Raise e => (Raise e, st)
        | Ok _ =>
            let ks := default [] (_keys (get_attrs st o)) in
            if all_distinct ks then (Ok ks, st)
            else (Raise AssertionError, st)
        end
    end.
Proof.
  cbn [keys]. destruct (_keys (get_attrs st o)); [done|].
  match goal with
  | |- (let (_, _) := ?f its ?s in _) = _ =>
      assert (∀ st', f its st' = extend_keys o its st') as ->; [|done]
  end.
  induction its as [|i rest IH]; intros st'; [done|]. cbn [extend_keys].
  destruct (keys i st') as [[ks|e] st'']; [|done]. apply IH.
Qed.

Lemma concat_oids_concatenate (x o : nat) (its : list iterator) :
  x ∉ concat_oids (ConcatenateIterator o its)
  ↔ x ≠ o ∧ Forall (λ i, x ∉ concat_oids i) its.
Proof.
  cbn [concat_oids]. rewrite not_elem_of_cons.
  apply and_iff_compat_l. induction its as [|i rest IH].
  - split; [constructor|intros _; apply not_elem_of_nil].
  - rewrite Forall_cons, not_elem_of_app, IH. done.
Qed.

(** A view neither reads nor writes the attributes of a
    [ConcatenateIterator] that is not part of it. *)
Lemma keys_frame (self : iterator) st o a :
  o ∉ concat_oids self →
  keys self (set_attrs st o a)
  = let (r, st') := keys self st in (r, set_attrs st' o a).
Proof.
  revert st.
  induction self as [ex|f i IHi|p i IHi|o' i IHi|s i IHi|f i IHi|o' its IH|]
    using iterator_nested_ind; intros st Ho; try done;
    try (cbn [keys concat_oids] in *; rewrite IHi by done;
         by destruct (keys i st)).
  apply concat_oids_concatenate in Ho as [Hne Hits].
  rewrite !keys_concatenate. rewrite !get_attrs_set_ne by done.
  destruct (_keys (get_attrs st o')); [done|].
  rewrite set_attrs_commute by done.
  assert (∀ st, extend_keys o' its (set_attrs st o a)
                = let (r, st') := extend_keys o' its st in
                  (r, set_attrs st' o a)) as ->.
  { clear st. induction IH as [|i rest Hi _ IHrest]; intros st; [done|].
    apply Forall_cons in Hits as [Hi' Hrest]. cbn [extend_keys].
    rewrite Hi by done. destruct (keys i st) as [[ks|e] st']; [|done].
    rewrite !get_attrs_set_ne by done. rewrite set_attrs_commute by done.
    by apply IHrest. }
  match goal with
  | |- context [extend_keys o' its ?s] =>
      destruct (extend_keys o' its s) as [[[]|e] st']; [|done]
  end.
  rewrite !get_attrs_set_ne by done.
  cbv zeta. by destruct (all_distinct (default [] (_keys (get_attrs st' o')))).
Qed.
End Cache.

Lemma elem_of_concat (k : string) (kss : list (list string)) :
  k ∈ concat kss ↔ ∃ ks, ks ∈ kss ∧ k ∈ ks.
Proof.
  rewrite list_elem_of_In, in_concat. split.
  - intros (ks & H1 & H2). exists ks. by rewrite !list_elem_of_In.
  - intros (ks & H1 & H2). exists ks. by rewrite <-!list_elem_of_In.
Qed.

Lemma NoDup_concat (kss : list (list string)) :
  NoDup (concat kss) ↔ Forall NoDup kss ∧ pairwise_disjoint kss.
Proof.
  induction kss as [|ks rest IH]; simpl.
  - split; [by intros _; split; [constructor|]|intros _; constructor].
  - rewrite NoDup_app, IH, Forall_cons.
    assert ((∀ x, x ∈ ks → x ∉ concat rest)
            ↔ Forall (λ ks', ∀ k, k ∈ ks → k ∉ ks') rest) as ->; [|tauto].
    rewrite Forall_forall. split.
    + intros H ks' Hks' k Hk Hk'. apply (H k Hk).
      apply elem_of_concat. by exists ks'.
    + intros H x Hx (ks' & Hks' & Hx')%elem_of_concat. by apply (H ks' Hks' x).
Qed.

Section CacheContract.
Context (ID : string) {rng : Type}.
Implicit Types (st : store rng) (o : nat).

Lemma extend_keys_run o (its : list iterator) st st'
    (kss : list (list string)) (acc : list string) (cm : bool) :
  Forall (λ i, o ∉ concat_oids i) its →
  upstream_keys its st = (Ok kss, st') →
  extend_keys o its (set_attrs st o (ConcatAttrs (Some acc) cm))
  = (Ok (), set_attrs st' o (ConcatAttrs (Some (acc ++ concat kss)) cm)).
Proof.
  intros Hits. revert st kss acc.
  induction Hits as [|i rest Hi _ IH]; intros st kss acc Hup; simpl in Hup.
  - injection Hup as <- <-. simpl. by rewrite app_nil_r.
  - cbn [extend_keys]. rewrite keys_frame by done.
    destruct (keys i st) as [[ks|e] st1]; [|done].
    destruct (upstream_keys rest st1) as [[kss'|e] st2] eqn:Hrest; [|done].
    simpl in Hup. injection Hup as <- <-.
    rewrite get_attrs_set_eq, set_attrs_set_eq. simpl.
    rewrite (IH _ _ _ Hrest). by rewrite app_assoc.
Qed.

Lemma keys_first_call o (its : list iterator) st st'
    (kss : list (list string)) :
  Forall (λ i, o ∉ concat_oids i) its →
  get_attrs st o = concat_attrs_init →
  upstream_keys its st = (Ok kss, st') →
  keys (ConcatenateIterator o its) st
  = (if all_distinct (concat kss) then Ok (concat kss)
     else Raise AssertionError,
     set_attrs st' o (ConcatAttrs (Some (concat kss)) false)).
Proof.
  intros Hits Hfresh Hup. rewrite keys_concatenate, Hfresh. simpl.
  rewrite (extend_keys_run _ _ _ _ _ _ _ Hits Hup). simpl.
  rewrite get_attrs_set_eq. simpl. by destruct (all_distinct (concat kss)).
Qed.

(** C8: a Concatenate view is built without looking at any key and its
    positional access never asks for keys.  On a view as built, whose
    upstreams report the key sequences [kss]: if these are not pairwise
    disjoint, the first [keys()] and the first lookup by key raise the
    assertion failure; if they are, [keys()] is their concatenation, stored
    in [_keys] and returned from there by every later call. *)
Theorem concatenate_keys_contract o (its : list iterator) st st'
    (kss : list (list string)) :
  Forall (λ i, o ∉ concat_oids i) its →
  get_attrs st o = concat_attrs_init →
  upstream_keys its st = (Ok kss, st') →
  let view := ConcatenateIterator o its in
  let cached := set_attrs st' o (ConcatAttrs (Some (concat kss)) false) in
  (∀ st0, ∃ o0, (ConcatenateIterator_init its st0).1
                = ConcatenateIterator o0 its ∧
                get_attrs (ConcatenateIterator_init its st0).2 o0
                = concat_attrs_init) ∧
  (∀ i, getitem_int ID view i = walk ID its i) ∧
  (¬ pairwise_disjoint kss →
   keys view st = (Raise AssertionError, cached) ∧
   ∀ k, getitem_str ID view k st = (Raise AssertionError, cached)) ∧
  (Forall NoDup kss → pairwise_disjoint kss →
   keys view st = (Ok (concat kss), cached) ∧
   keys view cached = (Ok (concat kss), cached)) ∧
  (∀ its2 st2 ks, _keys (get_attrs st2 o) = Some ks →
   keys (ConcatenateIterator o its2) st2 = (Ok ks, st2)).
Proof.
  intros Hits Hfresh Hup view cached. subst view cached.
  pose proof (keys_first_call _ _ _ _ _ Hits Hfresh Hup) as Hkeys.
  assert (∀ its2 st2 ks, _keys (get_attrs st2 o) = Some ks →
          keys (ConcatenateIterator o its2) st2 = (Ok ks, st2)) as Hcached.
  { intros its2 st2 ks Hks. by rewrite keys_concatenate, Hks. }
  split; [|split; [|split; [|split]]].
  - intros st0. eexists. split; [reflexivity|]. simpl.
    apply get_attrs_set_eq.
  - intros i. apply getitem_int_concatenate.
  - intros Hdup.
    assert (all_distinct (concat kss) = false) as Hd.
    { apply not_true_is_false. rewrite all_distinct_NoDup, NoDup_concat.
      tauto. }
    rewrite Hd in Hkeys. split; [done|]. intros k.
    rewrite getitem_str_concatenate, Hfresh.
    unfold concat_attrs_init. cbn [_chain_map]. by rewrite Hkeys.
  - intros Hnd Hdisj.
    assert (all_distinct (concat kss) = true) as Hd.
    { rewrite all_distinct_NoDup, NoDup_concat. tauto. }
    rewrite Hd in Hkeys. split; [done|].
    apply Hcached. by rewrite get_attrs_set_eq.
  - done.
Qed.
End CacheContract.

(** Two sources that share the id [a]: the view is built and answers
    positions; the first [keys()] raises and, [_keys] being set by then,
    the second returns the list with the repeat. *)
Example concatenate_shared_key :
  let '(view, st) :=
    ConcatenateIterator_init
      [ExamplesIterator source_ab; ExamplesIterator (take 1 source_ab)]
      empty_store in
  getitem_int "example_id" view 2
  = Ok (VDict [("x"%string, VInt 1); ("example_id"%string, VStr "a")]) ∧
  (getitem_str "example_id" view "b" st).1 = Raise AssertionError ∧
  let '(r1, st1) := keys view st in
  let '(r2, _) := keys view st1 in
  r1 = Raise AssertionError ∧ r2 = Ok ["a"; "b"; "a"]%string.
Proof. by vm_compute. Qed.

Lemma concatenate_keys_contract_witness :
  let its := [ExamplesIterator source_ab; ExamplesIterator source_c] in
  Forall (λ i, 0 ∉ concat_oids i) its ∧
  get_attrs empty_store 0 = concat_attrs_init ∧
  upstream_keys its empty_store
  = (Ok [["a"; "b"]; ["c"]]%string, empty_store) ∧
  (keys (ConcatenateIterator 0 its) empty_store).1
  = Ok ["a"; "b"; "c"]%string.
Proof.
  intros its.
  assert (Forall (λ i, 0 ∉ concat_oids i) its) as Hits
    by (repeat constructor; apply not_elem_of_nil).
  split; [exact Hits|]. split; [reflexivity|]. split; [reflexivity|].
  destruct (concatenate_keys_contract "example_id" 0 its empty_store
              empty_store [["a"; "b"]; ["c"]]%string Hits eq_refl eq_refl)
    as (_ & _ & _ & Hdisjoint & _).
  destruct Hdisjoint as [Hkeys _].
  - repeat constructor; by apply (bool_decide_unpack _).
  - repeat constructor; intros k Hk Hk';
      apply list_elem_of_In in Hk, Hk'; simpl in *; intuition congruence.
  - by rewrite Hkeys.
Defined.

(** ** The object graph: copies are new and equal *)

Lemma lookup_append_at_ne (h : Heap.heap) (y l : Heap.loc) (a : Heap.val) :
  l ≠ y → Heap.append_at h y a !! l = h !! l.
Proof. intros Hne. unfold Heap.append_at. by rewrite list_lookup_alter_ne. Qed.

Lemma lookup_append_at_eq (h : Heap.heap) (y : Heap.loc) (a : Heap.val)
    (items : list Heap.val) :
  h !! y = Some (Heap.List items) →
  Heap.append_at h y a !! y = Some (Heap.List (items ++ [a])).
Proof.
  intros Hy. unfold Heap.append_at. by rewrite list_lookup_alter_eq, Hy.
Qed.

Lemma length_append_at (h : Heap.heap) (y : Heap.loc) (a : Heap.val) :
  length (Heap.append_at h y a) = length h.
Proof. apply length_alter. Qed.

Lemma lookup_setitem_at_ne (h : Heap.heap) (y l : Heap.loc) (k : string)
    (a : Heap.val) :
  l ≠ y → Heap.setitem_at h y k a !! l = h !! l.
Proof. intros Hne. unfold Heap.setitem_at. by rewrite list_lookup_alter_ne. Qed.

Lemma lookup_setitem_at_eq (h : Heap.heap) (y : Heap.loc) (k : string)
    (a : Heap.val) (items : list (string * Heap.val)) :
  h !! y = Some (Heap.Dict items) →
  Heap.setitem_at h y k a !! y = Some (Heap.Dict (dict_set items k a)).
Proof.
  intros Hy. unfold Heap.setitem_at. by rewrite list_lookup_alter_eq, Hy.
Qed.

Lemma length_setitem_at (h : Heap.heap) (y : Heap.loc) (k : string)
    (a : Heap.val) :
  length (Heap.setitem_at h y k a) = length h.
Proof. apply length_alter. Qed.

Lemma dict_set_fresh {A} (d : list (string * A)) (k : string) (v : A) :
  k ∉ map fst d → dict_set d k v = d ++ [(k, v)].
Proof.
  induction d as [|[k' v'] d IH]; simpl; [done|].
  rewrite not_elem_of_cons. intros [Hne Hk].
  destruct (String.eqb_spec k' k); [congruence|]. by rewrite IH.
Qed.

Lemma ren_mono (memo memo' : gmap nat nat) (x y : Heap.val) :
  memo ⊆ memo' → Heap.ren memo x = Some y → Heap.ren memo' x = Some y.
Proof.
  intros Hsub. destruct x as [| | | |l]; simpl; try done.
  destruct (memo !! l) as [l'|] eqn:Hl; [|done].
  by rewrite (lookup_weaken _ _ _ _ Hl Hsub).
Qed.

Lemma obj_rel_mono (memo memo' : gmap nat nat) (o o' : Heap.obj) :
  memo ⊆ memo' → Heap.obj_rel memo o o' → Heap.obj_rel memo' o o'.
Proof.
  intros Hsub. destruct o, o'; simpl; try done.
  - intros H. eapply Forall2_impl; [exact H|]. intros x y. by apply ren_mono.
  - intros H. eapply Forall2_impl; [exact H|].
    intros x y [? ?]. split; [done|by eapply ren_mono].
Qed.

Lemma memo_size_bound (memo : gmap nat nat) (n : nat) :
  (∀ l y, memo !! l = Some y → l < n) → size memo ≤ n.
Proof.
  intros Hmemo. rewrite <-size_dom, <-(size_set_seq (C:=gset nat) 0 n).
  apply subseteq_size. intros l Hl. apply elem_of_dom in Hl as [y Hy].
  apply elem_of_set_seq. split; [lia|]. simpl. by eapply Hmemo.
Qed.

Lemma region_closed_lookup (n : nat) (h : Heap.heap) (l : Heap.loc) :
  Heap.region_closed n h = true → l < n →
  ∃ o, h !! l = Some o ∧
       Forall (λ x, Heap.val_below n x = true) (Heap.obj_vals o) ∧
       ∀ items, o = Heap.Dict items → NoDup (map fst items).
Proof.
  unfold Heap.region_closed. rewrite andb_true_iff, forallb_forall.
  intros [Hlen Hall] Hl. apply bool_decide_eq_true in Hlen.
  destruct (lookup_lt_is_Some_2 h l) as [o Ho]; [lia|]. exists o.
  split; [done|].
  assert (In o (take n h)) as Hin.
  { apply list_elem_of_In. apply (list_elem_of_lookup_2 _ l).
    by rewrite lookup_take_lt. }
  specialize (Hall _ Hin). unfold Heap.obj_ok in Hall.
  apply andb_true_iff in Hall as [Hvals Hkeys]. split.
  - apply Forall_forall. intros x Hx. rewrite forallb_forall in Hvals.
    apply Hvals. by apply list_elem_of_In.
  - intros items ->. by apply bool_decide_eq_true in Hkeys.
Qed.

Section Copy.
Context (n : nat) (h0 : Heap.heap).

Lemma ren_val_new (h : Heap.heap) (memo : gmap nat nat) (stack : list nat)
    (x x' : Heap.val) :
  Heap.copy_inv n h0 h memo stack → Heap.ren memo x = Some x' →
  Heap.val_new (length h0) (length h) x'.
Proof.
  intros Hinv. destruct x as [| | | |l]; simpl; try by intros [= <-].
  destruct (memo !! l) as [y|] eqn:Hl; [|done]. intros [= <-]. simpl.
  by destruct (Heap.inv_memo _ _ _ _ _ Hinv l y Hl).
Qed.

Lemma val_new_weaken (a b b' : nat) (x : Heap.val) :
  b ≤ b' → Heap.val_new a b x → Heap.val_new a b' x.
Proof. intros Hb. destruct x; simpl; try done. lia. Qed.

(** Changing the copy that is being filled keeps the invariant. *)
Lemma copy_inv_update (h h' : Heap.heap) (memo : gmap nat nat)
    (stack : list nat) (l y : nat) (o' : Heap.obj) :
  Heap.copy_inv n h0 h memo (l :: stack) → memo !! l = Some y →
  length h' = length h →
  (∀ l0, l0 ≠ y → h' !! l0 = h !! l0) →
  h' !! y = Some o' →
  Forall (Heap.val_new (length h0) (length h)) (Heap.obj_vals o') →
  Heap.copy_inv n h0 h' memo (l :: stack).
Proof.
  intros Hinv Hl Hlen Hother Hy Hnew.
  destruct (Heap.inv_memo _ _ _ _ _ Hinv l y Hl) as [_ [HyA _]].
  split.
  - intros l0 Hl0. rewrite Hother by lia. by apply (Heap.inv_old _ _ _ _ _ Hinv).
  - rewrite Hlen. apply (Heap.inv_len _ _ _ _ _ Hinv).
  - rewrite Hlen. apply (Heap.inv_memo _ _ _ _ _ Hinv).
  - apply (Heap.inv_inj _ _ _ _ _ Hinv).
  - intros l0 o Hl0 Ho. rewrite Hlen. destruct (decide (l0 = y)) as [->|Hne].
    + rewrite Hy in Ho. by injection Ho as <-.
    + rewrite Hother in Ho by done. by apply (Heap.inv_new _ _ _ _ _ Hinv l0).
  - intros l1 y1 Hl1.
    destruct (Heap.inv_copied _ _ _ _ _ Hinv l1 y1 Hl1) as [?|Hcop]; [by left|].
    destruct (decide (y1 = y)) as [->|Hne].
    + left. rewrite (Heap.inv_inj _ _ _ _ _ Hinv l1 l y Hl1 Hl).
      apply elem_of_cons. by left.
    + right. destruct Hcop as (o & o1 & Ho & Ho1 & Hrel).
      exists o, o1. by rewrite Hother.
Qed.

Lemma copy_list_spec (fuel : nat)
    (rec : Heap.val → Heap.heap → gmap nat nat
           → option (Heap.val * Heap.heap * gmap nat nat))
    (items : list Heap.val) :
  Heap.copies n h0 fuel rec →
  ∀ (done done' : list Heap.val) (h : Heap.heap) (memo : gmap nat nat)
    (stack : list nat) (l y : nat),
    Heap.copy_inv n h0 h memo (l :: stack) → memo !! l = Some y →
    h !! y = Some (Heap.List done') →
    Forall2 (λ x x', Heap.ren memo x = Some x') done done' →
    Forall (λ x, Heap.val_below n x = true) items →
    n < fuel + size memo →
    ∃ h' memo' items',
      Heap.copy_list rec y items h memo = Some (h', memo') ∧
      Heap.copy_inv n h0 h' memo' (l :: stack) ∧
      memo ⊆ memo' ∧
      (∀ l0, l0 < length h → l0 ≠ y → h' !! l0 = h !! l0) ∧
      Forall2 (λ x x', Heap.ren memo' x = Some x') (done ++ items) items' ∧
      h' !! y = Some (Heap.List items').
Proof.
  intros Hrec. induction items as [|a rest IH];
    intros done done' h memo stack l y Hinv Hl Hy Hdone Hitems Hfuel.
  - exists h, memo, done'. rewrite app_nil_r.
    split; [done|]. split; [done|]. split; [done|]. by split.
  - apply Forall_cons in Hitems as [Ha Hrest].
    destruct (Hrec a h memo (l :: stack) Hinv Ha Hfuel)
      as (a' & h1 & memo1 & Hcall & Hinv1 & Hsub1 & Hframe1 & Hren1).
    destruct (Heap.inv_memo _ _ _ _ _ Hinv l y Hl) as [_ [_ Hylen]].
    assert (h1 !! y = Some (Heap.List done')) as Hy1
      by by rewrite Hframe1.
    assert (memo1 !! l = Some y) as Hl1 by by eapply lookup_weaken.
    pose proof (lookup_append_at_eq h1 y a' done' Hy1) as Hy2.
    assert (Heap.copy_inv n h0 (Heap.append_at h1 y a') memo1 (l :: stack))
      as Hinv2.
    { eapply (copy_inv_update h1); [done|done|apply length_append_at| |done|].
      - intros l0 Hne. by apply lookup_append_at_ne.
      - simpl. apply Forall_app. split.
        + apply (Heap.inv_new _ _ _ _ _ Hinv1 y (Heap.List done'));
            [|done]. by destruct (Heap.inv_memo _ _ _ _ _ Hinv1 l y Hl1) as [_ []].
        + apply Forall_singleton. by eapply ren_val_new. }
    assert (size memo ≤ size memo1) as Hsize
      by by apply map_subseteq_size.
    destruct (IH (done ++ [a]) (done' ++ [a']) _ memo1 stack l y Hinv2 Hl1 Hy2)
      as (h' & memo' & items' & Hloop & Hinv' & Hsub' & Hframe' & Hall & Hy');
      [|done|lia|].
    { apply Forall2_app; [|by apply Forall2_cons].
      eapply Forall2_impl; [exact Hdone|]. intros x x'. by apply ren_mono. }
    exists h', memo', items'. simpl. rewrite Hcall. simpl.
    split; [done|]. split; [done|]. split; [by etrans|]. split.
    + intros l0 Hl0 Hne. rewrite Hframe'; [|rewrite length_append_at|done].
      * rewrite lookup_append_at_ne by done. by apply Hframe1.
      * apply lookup_lt_is_Some. rewrite Hframe1 by done.
        by apply lookup_lt_is_Some.
    + split; [|done]. by rewrite <-app_assoc in Hall.
Qed.

Lemma dict_rel_keys (memo : gmap nat nat) (d d' : list (string * Heap.val)) :
  Forall2 (λ x x', x.1 = x'.1 ∧ Heap.ren memo x.2 = Some x'.2) d d' →
  map fst d' = map fst d.
Proof.
  induction 1 as [|x x' d d' [Hk _] _ IH]; [done|]. simpl. by rewrite Hk, IH.
Qed.

Lemma copy_dict_spec (fuel : nat)
    (rec : Heap.val → Heap.heap → gmap nat nat
           → option (Heap.val * Heap.heap * gmap nat nat))
    (items : list (string * Heap.val)) :
  Heap.copies n h0 fuel rec →
  ∀ (done done' : list (string * Heap.val)) (h : Heap.heap)
    (memo : gmap nat nat) (stack : list nat) (l y : nat),
    Heap.copy_inv n h0 h memo (l :: stack) → memo !! l = Some y →
    h !! y = Some (Heap.Dict done') →
    Forall2 (λ x x', x.1 = x'.1 ∧ Heap.ren memo x.2 = Some x'.2) done done' →
    Forall (λ x, Heap.val_below n x = true) (map snd items) →
    NoDup (map fst (done ++ items)) →
    n < fuel + size memo →
    ∃ h' memo' items',
      Heap.copy_dict rec y items h memo = Some (h', memo') ∧
      Heap.copy_inv n h0 h' memo' (l :: stack) ∧
      memo ⊆ memo' ∧
      (∀ l0, l0 < length h → l0 ≠ y → h' !! l0 = h !! l0) ∧
      Forall2 (λ x x', x.1 = x'.1 ∧ Heap.ren memo' x.2 = Some x'.2)
        (done ++ items) items' ∧
      h' !! y = Some (Heap.Dict items').
Proof.
  intros Hrec. induction items as [|[key a] rest IH];
    intros done done' h memo stack l y Hinv Hl Hy Hdone Hitems Hnd Hfuel.
  - exists h, memo, done'. rewrite app_nil_r.
    split; [done|]. split; [done|]. split; [done|]. by split.
  - simpl in Hitems. apply Forall_cons in Hitems as [Ha Hrest].
    destruct (Hrec a h memo (l :: stack) Hinv Ha Hfuel)
      as (a' & h1 & memo1 & Hcall & Hinv1 & Hsub1 & Hframe1 & Hren1).
    destruct (Heap.inv_memo _ _ _ _ _ Hinv l y Hl) as [_ [_ Hylen]].
    assert (h1 !! y = Some (Heap.Dict done')) as Hy1
      by by rewrite Hframe1.
    assert (memo1 !! l = Some y) as Hl1 by by eapply lookup_weaken.
    assert (key ∉ map fst done') as Hkey.
    { rewrite (dict_rel_keys _ _ _ Hdone). rewrite map_app in Hnd.
      apply NoDup_app in Hnd as (_ & Hdisj & _). intros Hin.
      apply (Hdisj _ Hin). simpl. apply elem_of_cons. by left. }
    pose proof (lookup_setitem_at_eq h1 y key a' done' Hy1) as Hy2.
    rewrite (dict_set_fresh _ _ _ Hkey) in Hy2.
    assert (Heap.copy_inv n h0 (Heap.setitem_at h1 y key a') memo1
              (l :: stack)) as Hinv2.
    { eapply (copy_inv_update h1); [done|done|apply length_setitem_at| |done|].
      - intros l0 Hne. by apply lookup_setitem_at_ne.
      - simpl. rewrite map_app. apply Forall_app. split.
        + apply (Heap.inv_new _ _ _ _ _ Hinv1 y (Heap.Dict done'));
            [|done]. by destruct (Heap.inv_memo _ _ _ _ _ Hinv1 l y Hl1) as [_ []].
        + apply Forall_singleton. by eapply ren_val_new. }
    assert (size memo ≤ size memo1) as Hsize
      by by apply map_subseteq_size.
    destruct (IH (done ++ [(key, a)]) (done' ++ [(key, a')]) _ memo1 stack l y
                Hinv2 Hl1 Hy2)
      as (h' & memo' & items' & Hloop & Hinv' & Hsub' & Hframe' & Hall & Hy');
      [|done|by rewrite <-app_assoc|lia|].
    { apply Forall2_app; [|by apply Forall2_cons].
      eapply Forall2_impl; [exact Hdone|].
      intros x x' [? ?]. split; [done|by eapply ren_mono]. }
    exists h', memo', items'. simpl. rewrite Hcall. simpl.
    split; [done|]. split; [done|]. split; [by etrans|]. split.
    + intros l0 Hl0 Hne. rewrite Hframe'; [|rewrite length_setitem_at|done].
      * rewrite lookup_setitem_at_ne by done. by apply Hframe1.
      * apply lookup_lt_is_Some. rewrite Hframe1 by done.
        by apply lookup_lt_is_Some.
    + split; [|done]. by rewrite <-app_assoc in Hall.
Qed.

(** Entering an object: its empty copy goes to the end of the heap. *)
Lemma copy_inv_enter (h : Heap.heap) (memo : gmap nat nat)
    (stack : list nat) (l : nat) (o : Heap.obj) :
  Heap.copy_inv n h0 h memo stack → memo !! l = None → l < n →
  Heap.obj_vals o = [] →
  Heap.copy_inv n h0 (h ++ [o]) (<[l := length h]> memo) (l :: stack).
Proof.
  intros Hinv Hl Hln Ho.
  pose proof (Heap.inv_len _ _ _ _ _ Hinv) as Hlen.
  split.
  - intros l0 Hl0. rewrite lookup_app_l by lia.
    by apply (Heap.inv_old _ _ _ _ _ Hinv).
  - rewrite length_app. simpl. lia.
  - intros l1 y1. rewrite length_app. simpl.
    destruct (decide (l = l1)) as [<-|Hne].
    + rewrite lookup_insert_eq. intros [= <-]. lia.
    + rewrite lookup_insert_ne by done. intros H1.
      destruct (Heap.inv_memo _ _ _ _ _ Hinv l1 y1 H1). lia.
  - intros l1 l2 y1.
    destruct (decide (l = l1)) as [<-|Hne1], (decide (l = l2)) as [<-|Hne2];
      rewrite ?lookup_insert_eq, ?lookup_insert_ne by done; try done.
    + intros [= <-] H2. destruct (Heap.inv_memo _ _ _ _ _ Hinv _ _ H2). lia.
    + intros H1 [= <-]. destruct (Heap.inv_memo _ _ _ _ _ Hinv _ _ H1). lia.
    + apply (Heap.inv_inj _ _ _ _ _ Hinv).
  - intros l1 o1 Hl1 Ho1. rewrite length_app. simpl.
    destruct (decide (l1 < length h)) as [Hlt|Hge].
    + rewrite lookup_app_l in Ho1 by done.
      eapply Forall_impl; [by apply (Heap.inv_new _ _ _ _ _ Hinv l1)|].
      intros x. apply val_new_weaken. lia.
    + rewrite lookup_app_r in Ho1 by lia.
      destruct (l1 - length h) as [|k] eqn:Hk; simpl in Ho1; [|done].
      injection Ho1 as <-. rewrite Ho. constructor.
  - intros l1 y1. destruct (decide (l = l1)) as [<-|Hne].
    + intros _. left. apply elem_of_cons. by left.
    + rewrite lookup_insert_ne by done. intros H1.
      destruct (Heap.inv_copied _ _ _ _ _ Hinv l1 y1 H1) as [Hin|Hcop].
      * left. apply elem_of_cons. by right.
      * right. destruct Hcop as (o1 & o1' & Ho1 & Ho1' & Hrel).
        exists o1, o1'. split; [done|]. split.
        -- rewrite lookup_app_l; [done|]. by apply lookup_lt_Some in Ho1'.
        -- eapply obj_rel_mono; [|done]. by apply insert_subseteq.
Qed.

(** Leaving an object: its copy is finished. *)
Lemma copy_inv_leave (h : Heap.heap) (memo : gmap nat nat)
    (stack : list nat) (l y : nat) :
  Heap.copy_inv n h0 h memo (l :: stack) → memo !! l = Some y →
  Heap.copied h0 h memo l y →
  Heap.copy_inv n h0 h memo stack.
Proof.
  intros Hinv Hl Hcop. split; try apply Hinv.
  intros l1 y1 H1.
  destruct (Heap.inv_copied _ _ _ _ _ Hinv l1 y1 H1) as [Hin|?]; [|by right].
  apply elem_of_cons in Hin as [->|Hin]; [|by left].
  right. rewrite Hl in H1. by injection H1 as <-.
Qed.

Context (Hclosed : Heap.region_closed n h0 = true).

Lemma deepcopy_spec (fuel : nat) : Heap.copies n h0 fuel (Heap.deepcopy fuel).
Proof.
  induction fuel as [|fuel IH]; intros x h memo stack Hinv Hx Hfuel.
  all: destruct x as [| | | |l];
    try (eexists _, h, memo; by (split; [reflexivity|])).
  all: simpl in Hx; apply bool_decide_eq_true in Hx.
  all: destruct (memo !! l) as [y|] eqn:Hl;
    [ exists (Heap.Ref y), h, memo; simpl; rewrite Hl;
      by (split; [reflexivity|]) | ].
  - pose proof (memo_size_bound memo n) as Hb.
    assert (size memo ≤ n); [|lia]. apply Hb. intros l1 y1 H1.
    by destruct (Heap.inv_memo _ _ _ _ _ Hinv l1 y1 H1).
  - destruct (region_closed_lookup n h0 l Hclosed Hx) as (o & Ho & Hvals & Hkeys).
    pose proof (Heap.inv_len _ _ _ _ _ Hinv) as Hlen.
    assert (l < length h0) as Hl0 by by apply lookup_lt_Some in Ho.
    assert (h !! l = Some o) as Hho
      by by rewrite (Heap.inv_old _ _ _ _ _ Hinv).
    assert (n < fuel + size (<[l := length h]> memo)) as Hfuel'
      by (rewrite map_size_insert_None by done; lia).
    assert (memo ⊆ <[l := length h]> memo) as Hsub
      by by apply insert_subseteq.
    assert ((h ++ [Heap.List []]) !! length h = Some (Heap.List [])) as HyL
      by by rewrite lookup_app_r, Nat.sub_diag.
    assert ((h ++ [Heap.Dict []]) !! length h = Some (Heap.Dict [])) as HyD
      by by rewrite lookup_app_r, Nat.sub_diag.
    assert (<[l := length h]> memo !! l = Some (length h)) as Hmemo
      by apply lookup_insert_eq.
    simpl. rewrite Hl, Hho. destruct o as [items|items].
    + pose proof (copy_inv_enter h memo stack l (Heap.List []) Hinv Hl Hx
                    eq_refl) as Hinv1.
      destruct (copy_list_spec fuel _ items IH [] [] _ _ stack l (length h)
                  Hinv1 Hmemo HyL)
        as (h' & memo' & items' & Hloop & Hinv' & Hsub' & Hframe & Hall & Hy);
        [constructor|done|done|].
      rewrite Hloop. simpl. exists (Heap.Ref (length h)), h', memo'.
      assert (memo' !! l = Some (length h)) as Hl'
        by by eapply lookup_weaken.
      split; [done|]. split; [|split; [by etrans|split]].
      * eapply copy_inv_leave; [done|done|].
        exists (Heap.List items), (Heap.List items'). by split.
      * intros l1 Hl1. rewrite Hframe; [|rewrite length_app; simpl; lia|lia].
        by rewrite lookup_app_l.
      * simpl. by rewrite Hl'.
    + pose proof (copy_inv_enter h memo stack l (Heap.Dict []) Hinv Hl Hx
                    eq_refl) as Hinv1.
      destruct (copy_dict_spec fuel _ items IH [] [] _ _ stack l (length h)
                  Hinv1 Hmemo HyD)
        as (h' & memo' & items' & Hloop & Hinv' & Hsub' & Hframe & Hall & Hy);
        [constructor|done|by apply Hkeys|done|].
      rewrite Hloop. simpl. exists (Heap.Ref (length h)), h', memo'.
      assert (memo' !! l = Some (length h)) as Hl'
        by by eapply lookup_weaken.
      split; [done|]. split; [|split; [by etrans|split]].
      * eapply copy_inv_leave; [done|done|].
        exists (Heap.Dict items), (Heap.Dict items'). by split.
      * intros l1 Hl1. rewrite Hframe; [|rewrite length_app; simpl; lia|lia].
        by rewrite lookup_app_l.
      * simpl. by rewrite Hl'.
Qed.
End Copy.

(** ** The object graph: what a value stands for *)

Lemma Forall2_transport {A B C} (P : A → B → Prop) (Q : A → C → Prop)
    (R : B → C → Prop) (xs : list A) (ys : list B) (zs : list C) :
  (∀ x y z, x ∈ xs → P x y → Q x z → R y z) →
  Forall2 P xs ys → Forall2 Q xs zs → Forall2 R ys zs.
Proof.
  intros HR HP. revert zs. induction HP as [|x y xs ys Hxy _ IH]; intros zs HQ.
  - inversion HQ. constructor.
  - inversion HQ as [|? z ? zs' Hxz HQ']; subst. constructor.
    + eapply HR; [|done|done]. apply elem_of_cons. by left.
    + apply IH; [|done]. intros ? ? ? Hin. apply HR. apply elem_of_cons.
      by right.
Qed.

Lemma unfold_ref (m : nat) (h : Heap.heap) (l : nat) :
  Heap.unfold (S m) h (Heap.Ref l)
  = match h !! l with
    | Some (Heap.List items) => VList <$> mapM (Heap.unfold m h) items
    | Some (Heap.Dict items) =>
        VDict <$> mapM (λ kv, pair kv.1 <$> Heap.unfold m h kv.2) items
    | None => None
    end.
Proof. done. Qed.

(** Two values whose objects unfold alike one level down unfold alike. *)
Lemma unfold_objects (m m' : nat) (h h' : Heap.heap) (o o' : Heap.obj)
    (R : Heap.val → Heap.val → Prop) (l l' : nat) (t : value) :
  h !! l = Some o → h' !! l' = Some o' → Heap.obj_lift R o o' →
  (∀ x y s, x ∈ Heap.obj_vals o → R x y →
            Heap.unfold m h x = Some s → Heap.unfold m' h' y = Some s) →
  Heap.unfold (S m) h (Heap.Ref l) = Some t →
  Heap.unfold (S m') h' (Heap.Ref l') = Some t.
Proof.
  intros Ho Ho' Hrel Hsub. rewrite !unfold_ref, Ho, Ho'.
  destruct o as [xs|xs], o' as [ys|ys]; try done.
  - intros (ts & Hts & ->)%fmap_Some. apply fmap_Some. exists ts.
    split; [|done]. apply mapM_Some. apply mapM_Some in Hts.
    eapply Forall2_transport; [|exact Hrel|exact Hts].
    intros x y s Hin HR Hx. by eapply Hsub.
  - intros (ts & Hts & ->)%fmap_Some. apply fmap_Some. exists ts.
    split; [|done]. apply mapM_Some. apply mapM_Some in Hts.
    eapply Forall2_transport; [|exact Hrel|exact Hts].
    intros [k x] [k' y] [k'' s] Hin [Hk HR]. simpl in *. subst k'.
    intros (s' & Hs' & Heq)%fmap_Some. simpl in Heq. simplify_eq.
    apply fmap_Some. eexists. split; [|reflexivity].
    eapply Hsub; [|done|done]. apply (list_elem_of_fmap_2 snd _ _ Hin).
Qed.

Lemma Forall2_same {A} (P : A → A → Prop) (l : list A) :
  (∀ x, x ∈ l → P x x) → Forall2 P l l.
Proof.
  induction l as [|x l IH]; intros H; constructor.
  - apply H. apply elem_of_cons. by left.
  - apply IH. intros y Hy. apply H. apply elem_of_cons. by right.
Qed.

Lemma obj_same (o : Heap.obj) : Heap.obj_lift eq o o.
Proof. destruct o; by apply Forall2_same. Qed.

Lemma unfold_scalar (m m' : nat) (h h' : Heap.heap) (x : Heap.val) (t : value) :
  (∀ l, x ≠ Heap.Ref l) →
  Heap.unfold m h x = Some t → Heap.unfold m' h' x = Some t.
Proof. intros Hx. destruct x, m, m'; simpl; try done; by destruct (Hx l). Qed.

(** More depth does not change a result. *)
Lemma unfold_S (m : nat) (h : Heap.heap) (x : Heap.val) (t : value) :
  Heap.unfold m h x = Some t → Heap.unfold (S m) h x = Some t.
Proof.
  revert x t. induction m as [|m IH]; intros x t.
  - destruct x; by simpl.
  - destruct x as [| | | |l]; try by simpl.
    destruct (h !! l) as [o|] eqn:Ho; [|by rewrite !unfold_ref, Ho].
    apply (unfold_objects m (S m) h h o o eq l l t Ho Ho (obj_same o)).
    intros x y s _ <-. apply IH.
Qed.

Lemma unfold_le (m m' : nat) (h : Heap.heap) (x : Heap.val) (t : value) :
  m ≤ m' → Heap.unfold m h x = Some t → Heap.unfold m' h x = Some t.
Proof.
  induction 1 as [|m' _ IH]; [done|]. intros Hm. by apply unfold_S, IH.
Qed.

(** The least depth at which a reference unfolds. *)
Lemma unfold_least (m : nat) (h : Heap.heap) (l : nat) (t : value) :
  Heap.unfold m h (Heap.Ref l) = Some t →
  ∃ r, r < m ∧ Heap.unfold (S r) h (Heap.Ref l) = Some t ∧
       ∀ m', m' ≤ r → Heap.unfold m' h (Heap.Ref l) = None.
Proof.
  induction m as [|m IH]; [done|]. intros Hm.
  destruct (Heap.unfold m h (Heap.Ref l)) as [t'|] eqn:Hm'.
  - pose proof (unfold_S _ _ _ _ Hm') as Hm''. rewrite Hm in Hm''.
    injection Hm'' as ->. destruct (IH eq_refl) as (r & Hr & H1 & H2).
    exists r. split; [lia|done].
  - exists m. split; [lia|]. split; [done|]. intros m' Hle.
    destruct (Heap.unfold m' h (Heap.Ref l)) as [t'|] eqn:Hm''; [|done].
    apply (unfold_le _ m) in Hm''; [|done]. congruence.
Qed.

(** Inside a closed region a value stands for the same tree in every heap
    that has the region. *)
Lemma unfold_region (n m : nat) (h h' : Heap.heap) (x : Heap.val) (t : value) :
  Heap.region_closed n h = true → (∀ l, l < n → h' !! l = h !! l) →
  Heap.val_below n x = true →
  Heap.unfold m h x = Some t → Heap.unfold m h' x = Some t.
Proof.
  intros Hclosed Hsame. revert x t. induction m as [|m IH]; intros x t Hx.
  - destruct x; by simpl.
  - destruct x as [| | | |l]; try by simpl.
    simpl in Hx. apply bool_decide_eq_true in Hx.
    destruct (region_closed_lookup n h l Hclosed Hx) as (o & Ho & Hvals & _).
    assert (h' !! l = Some o) as Ho' by by rewrite Hsame.
    apply (unfold_objects m m h h' o o eq l l t Ho Ho' (obj_same o)).
    intros x y s Hin <-. apply IH. rewrite Forall_forall in Hvals.
    by apply Hvals.
Qed.

(** A finished copy stands for the tree its original stands for; [b] is an
    original whose copy may have been changed since, and is not met above
    depth [r]. *)
Lemma unfold_copy (h0 h : Heap.heap) (memo : gmap nat nat) (b r : nat) :
  (∀ l y, memo !! l = Some y → l ≠ b → Heap.copied h0 h memo l y) →
  (∀ m, m ≤ r → Heap.unfold m h0 (Heap.Ref b) = None) →
  ∀ m x x' t, m ≤ r → Heap.ren memo x = Some x' →
    Heap.unfold m h0 x = Some t → Heap.unfold m h x' = Some t.
Proof.
  intros Hcop Hb. induction m as [|m IH]; intros x x' t Hm Hren Hx.
  - destruct x; simpl in *; by simplify_eq.
  - destruct x as [| | | |l]; simpl in Hren; try by simplify_eq.
    destruct (memo !! l) as [y|] eqn:Hl; [|done]. simpl in Hren.
    injection Hren as <-.
    assert (l ≠ b) as Hne by (intros ->; by rewrite Hb in Hx).
    destruct (Hcop l y Hl Hne) as (o & o' & Ho & Ho' & Hrel).
    apply (unfold_objects m m h0 h o o' _ l y t Ho Ho' Hrel); [|done].
    intros x y' s _ Hxy. apply IH; [lia|done].
Qed.

Lemma dict_set_Forall2 {A B} (R : A → B → Prop) (d : list (string * A))
    (d' : list (string * B)) (k : string) (v : A) (v' : B) :
  Forall2 (λ x y, x.1 = y.1 ∧ R x.2 y.2) d d' → R v v' →
  Forall2 (λ x y, x.1 = y.1 ∧ R x.2 y.2) (dict_set d k v) (dict_set d' k v').
Proof.
  intros Hd Hv. induction Hd as [|[k1 x] [k2 y] d d' [Hk Hxy] Hd IH]; simpl.
  - by repeat constructor.
  - simpl in Hk, Hxy. subst k2.
    destruct (String.eqb k1 k); (constructor; [by split|done]).
Qed.

Lemma Forall_dict_set {A} (P : A → Prop) (d : list (string * A))
    (k : string) (v : A) :
  Forall P (map snd d) → P v → Forall P (map snd (dict_set d k v)).
Proof.
  intros Hd Hv. induction d as [|[k1 x] d IH]; simpl.
  - by repeat constructor.
  - simpl in Hd. apply Forall_cons in Hd as [Hx Hd].
    destruct (String.eqb k1 k); simpl; constructor; auto.
Qed.

(** From a value in the new part of the heap only new objects are
    reached. *)
Lemma reach_new (a b : nat) (h : Heap.heap) (x : Heap.val) (l : nat) :
  (∀ l o, a ≤ l → h !! l = Some o →
          Forall (Heap.val_new a b) (Heap.obj_vals o)) →
  Heap.reach h x l → Heap.val_new a b x → a ≤ l.
Proof.
  intros Hnew. induction 1 as [l|l0 o x l Ho Hin _ IH]; simpl.
  - lia.
  - intros Hl0. apply IH. pose proof (Hnew l0 o (proj1 Hl0) Ho) as Hall.
    rewrite Forall_forall in Hall. by apply Hall.
Qed.

Lemma region_closed_agree (n : nat) (h h' : Heap.heap) :
  Heap.region_closed n h = true → (∀ l, l < n → h' !! l = h !! l) →
  Heap.region_closed n h' = true.
Proof.
  intros Hclosed Hsame. unfold Heap.region_closed in *.
  apply andb_true_iff in Hclosed as [Hlen Hall].
  apply bool_decide_eq_true in Hlen.
  assert (n ≤ length h') as Hlen'.
  { destruct n as [|n]; [lia|]. change (n < length h').
    apply lookup_lt_is_Some. rewrite Hsame by lia.
    apply lookup_lt_is_Some. lia. }
  apply andb_true_iff. split; [by apply bool_decide_eq_true|].
  replace (take n h') with (take n h); [done|].
  apply list_eq. intros i. destruct (decide (i < n)).
  - by rewrite !lookup_take_lt, Hsame.
  - by rewrite !lookup_take_ge by lia.
Qed.

Lemma copy_inv_start (n : nat) (h : Heap.heap) : Heap.copy_inv n h h ∅ [].
Proof.
  split; try done.
  - intros l o Hl Ho. apply lookup_lt_Some in Ho. lia.
Qed.

(** ** Example Source: every access is a new copy *)

Lemma unfold_item (m : nat) (h : Heap.heap) (kv : string * Heap.val)
    (tkv : string * value) :
  pair kv.1 <$> Heap.unfold m h kv.2 = Some tkv
  ↔ kv.1 = tkv.1 ∧ Heap.unfold m h kv.2 = Some tkv.2.
Proof.
  destruct kv as [k x], tkv as [k' s]. simpl. rewrite fmap_Some. split.
  - by intros (s' & -> & [= -> ->]).
  - intros [-> ->]. by exists s.
Qed.

Section Access.
Context (ID : string).

Lemma getitem_str_fresh_objects (n fuel depth : nat) (h : Heap.heap)
    (examples : nat) (items : list (string * Heap.val)) (k : string)
    (body : Heap.val) (t : list (string * value)) :
  Heap.region_closed n h = true → examples < n →
  h !! examples = Some (Heap.Dict items) →
  dict_get items k = Some body →
  Heap.unfold depth h body = Some (VDict t) →
  n < fuel →
  ∃ y h1,
    Heap.getitem_str ID fuel examples k h = Some (Ok (Heap.Ref y), h1) ∧
    length h ≤ y ∧
    (∀ l, Heap.reach h1 (Heap.Ref y) l → length h ≤ l) ∧
    (∀ l, l < length h → h1 !! l = h !! l) ∧
    Heap.unfold depth h1 (Heap.Ref y)
    = Some (VDict (dict_set t ID (VStr k))) ∧
    y < length h1 ∧
    (∀ l o, length h ≤ l → h1 !! l = Some o →
            Forall (Heap.val_new (length h) (length h1)) (Heap.obj_vals o)).
Proof.
  intros Hclosed Hex Hitems Hbody Ht Hfuel.
  (* the key is there, and the body is a dict inside the region *)
  pose proof (dict_get_Some_elem_of _ _ _ Hbody) as Hin.
  assert (str_in k (map fst items) = true) as Hk.
  { apply str_in_elem_of. apply (list_elem_of_fmap_2 fst _ _ Hin). }
  destruct (region_closed_lookup n h examples Hclosed Hex)
    as (o & Ho & Hvals & _).
  rewrite Hitems in Ho. injection Ho as <-. simpl in Hvals.
  assert (Heap.val_below n body = true) as Hbelow.
  { rewrite Forall_forall in Hvals. apply Hvals.
    apply (list_elem_of_fmap_2 snd _ _ Hin). }
  destruct body as [| | | |b]; try (destruct depth; simpl in Ht; congruence).
  destruct (unfold_least _ _ _ _ Ht) as (r & Hr & Hleast & Hnone).
  rewrite unfold_ref in Hleast.
  destruct (h !! b) as [[xs|d]|] eqn:Hb; try done;
    [by apply fmap_Some in Hleast as (? & _ & ?)|].
  apply fmap_Some in Hleast as (t' & Hd & [= <-]). apply mapM_Some in Hd.
  (* the copy *)
  destruct (deepcopy_spec n h Hclosed fuel (Heap.Ref b) h ∅ []
              (copy_inv_start n h) Hbelow)
    as (x' & h' & memo & Hcopy & Hinv & _ & Hframe & Hren);
    [rewrite map_size_empty; lia|].
  simpl in Hren. destruct (memo !! b) as [y|] eqn:Hy; [|done].
  injection Hren as <-.
  destruct (Heap.inv_memo _ _ _ _ _ Hinv b y Hy) as [_ [HyA HyB]].
  destruct (Heap.inv_copied _ _ _ _ _ Hinv b y Hy) as [Hnil|Hcop];
    [by apply elem_of_nil in Hnil|].
  destruct Hcop as (o & o' & Ho & Ho' & Hrel). rewrite Hb in Ho.
  injection Ho as <-. destruct o' as [|d']; [done|].
  unfold Heap.obj_rel in Hrel. simpl in Hrel.
  (* the identifier goes into the copy *)
  pose proof (lookup_setitem_at_eq h' y ID (Heap.Str k) d' Ho') as Hy1.
  assert (Heap.copy_inv n h (Heap.setitem_at h' y ID (Heap.Str k)) memo [b])
    as Hinv1.
  { eapply (copy_inv_update n h h'); [|done|apply length_setitem_at| |done|].
    - split; try apply Hinv. intros l1 y1 H1.
      destruct (Heap.inv_copied _ _ _ _ _ Hinv l1 y1 H1) as [Hnil|?];
        [by apply elem_of_nil in Hnil|by right].
    - intros l0 Hne. by apply lookup_setitem_at_ne.
    - simpl. apply Forall_dict_set; [|done].
      by apply (Heap.inv_new _ _ _ _ _ Hinv y (Heap.Dict d')). }
  exists y, (Heap.setitem_at h' y ID (Heap.Str k)).
  split; [|split; [done|split; [|split; [|split; [|split]]]]];
    [| | | |rewrite length_setitem_at; lia
     |exact (Heap.inv_new _ _ _ _ _ Hinv1)].
  - unfold Heap.getitem_str. rewrite Hitems, Hk, Hbody.
    rewrite Hcopy. simpl. by rewrite Ho'.
  - intros l Hl.
    apply (reach_new (length h)
             (length (Heap.setitem_at h' y ID (Heap.Str k))) _ _ _
             (Heap.inv_new _ _ _ _ _ Hinv1) Hl).
    simpl. rewrite length_setitem_at. lia.
  - intros l Hl. rewrite lookup_setitem_at_ne by lia. by apply Hframe.
  - apply (unfold_le (S r)); [lia|]. rewrite unfold_ref, Hy1.
    apply fmap_Some. eexists. split; [|reflexivity]. apply mapM_Some.
    eapply Forall2_impl; [|intros kv tkv H; apply unfold_item; exact H].
    apply (dict_set_Forall2
             (λ x s, Heap.unfold r (Heap.setitem_at h' y ID (Heap.Str k)) x
                     = Some s)); [|by destruct r].
    eapply Forall2_transport; [|exact Hrel|exact Hd].
    intros x x' s _ [Hkey Hren] [Hkey' Hs]%unfold_item.
    split; [congruence|].
    apply (unfold_copy h _ memo b r) with (x := x.2); try done.
    intros l1 y1 H1 Hne.
    destruct (Heap.inv_copied _ _ _ _ _ Hinv1 l1 y1 H1) as [Hin1|?]; [|done].
    apply list_elem_of_singleton in Hin1. done.
Qed.

Lemma getitem_str_fresh_copy (n fuel depth : nat) (h : Heap.heap)
    (examples : nat) (items : list (string * Heap.val)) (k : string)
    (body : Heap.val) (t : list (string * value)) :
  Heap.region_closed n h = true → examples < n →
  h !! examples = Some (Heap.Dict items) →
  dict_get items k = Some body →
  Heap.unfold depth h body = Some (VDict t) →
  n < fuel →
  ∃ y h1,
    Heap.getitem_str ID fuel examples k h = Some (Ok (Heap.Ref y), h1) ∧
    length h ≤ y ∧
    (∀ l, Heap.reach h1 (Heap.Ref y) l → length h ≤ l) ∧
    (∀ l, l < length h → h1 !! l = h !! l) ∧
    Heap.unfold depth h1 (Heap.Ref y) = Some (VDict (dict_set t ID (VStr k))).
Proof.
  intros Hclosed Hex Hitems Hbody Ht Hfuel.
  destruct (getitem_str_fresh_objects n fuel depth h examples items k body t)
    as (y & h1 & ? & ? & ? & ? & ? & _); try done.
  by exists y, h1.
Qed.

End Access.

(** ** The two models of the Example Source agree *)

Lemma dict_get_Forall2 {A B} (R : A → B → Prop) (d : list (string * A))
    (d' : list (string * B)) (k : string) (v : A) :
  Forall2 (λ x y, x.1 = y.1 ∧ R x.2 y.2) d d' → dict_get d k = Some v →
  ∃ v', dict_get d' k = Some v' ∧ R v v'.
Proof.
  induction 1 as [|[k1 x] [k2 y] d d' [Hk Hxy] _ IH]; simpl; [done|].
  simpl in Hk, Hxy. subst k2. destruct (String.eqb k1 k); [|done].
  intros [= <-]. by exists y.
Qed.

(** The tree of the copy that the object model returns is the value that
    the tree model computes from the tree of the source. *)
Lemma getitem_str_refines (ID : string) (n fuel depth : nat) (h : Heap.heap)
    (examples : nat) (k : string) (exs : list (string * value)) :
  Heap.region_closed n h = true → examples < n → n < fuel →
  Heap.unfold (S depth) h (Heap.Ref examples) = Some (VDict exs) →
  k ∈ map fst exs →
  (∀ v, dict_get exs k = Some v → ∃ t, v = VDict t) →
  ∃ y h1,
    Heap.getitem_str ID fuel examples k h = Some (Ok (Heap.Ref y), h1) ∧
    Ok <$> Heap.unfold depth h1 (Heap.Ref y)
    = Some (ExamplesIterator_getitem_str ID exs k).
Proof.
  intros Hclosed Hex Hfuel Hexs Hk Hdict. rewrite unfold_ref in Hexs.
  destruct (h !! examples) as [[xs|items]|] eqn:Hitems; try done;
    [by apply fmap_Some in Hexs as (? & _ & ?)|].
  apply fmap_Some in Hexs as (exs' & Hall & [= <-]). apply mapM_Some in Hall.
  assert (Forall2 (λ x s, x.1 = s.1 ∧ Heap.unfold depth h x.2 = Some s.2)
            items exs) as Hall'.
  { eapply Forall2_impl; [exact Hall|]. intros x s. apply unfold_item. }
  assert (∃ body, dict_get items k = Some body) as [body Hbody].
  { destruct (dict_get items k) as [body|] eqn:Hget; [by exists body|].
    apply dict_get_None_not_key in Hget. destruct Hget.
    replace (map fst items) with (map fst exs); [done|].
    clear -Hall'. induction Hall' as [|x s ? ? [Hxs _] _ IH]; [done|].
    simpl. by rewrite Hxs, IH. }
  destruct (dict_get_Forall2 (λ x s, Heap.unfold depth h x = Some s)
              _ _ _ _ Hall' Hbody) as (v & Hv & Hunf).
  destruct (Hdict v Hv) as [t ->].
  destruct (getitem_str_fresh_copy ID n fuel depth h examples items k body t)
    as (y & h1 & Hget & _ & _ & _ & Hunfold); try done.
  exists y, h1. split; [done|]. rewrite Hunfold. simpl. f_equal.
  unfold ExamplesIterator_getitem_str, ExamplesIterator_fetch, dict_getitem.
  rewrite (proj2 (str_in_elem_of _ _) Hk), Hv. done.
Qed.

(** ** Iteration over an Example Source *)

(** Objects added to the heap later do not change what a value stands
    for. *)
Lemma unfold_frame (m : nat) (h h' : Heap.heap) (x : Heap.val) (t : value) :
  (∀ l, l < length h → h' !! l = h !! l) →
  Heap.unfold m h x = Some t → Heap.unfold m h' x = Some t.
Proof.
  intros Hframe. revert x t. induction m as [|m IH]; intros x t.
  - destruct x; by simpl.
  - destruct x as [| | | |l]; try by simpl.
    destruct (h !! l) as [o|] eqn:Ho; [|by rewrite unfold_ref, Ho].
    assert (h' !! l = Some o) as Ho'.
    { rewrite Hframe; [done|]. by apply lookup_lt_Some in Ho. }
    apply (unfold_objects m m h h' o o eq l l t Ho Ho' (obj_same o)).
    intros x y s _ <-. apply IH.
Qed.

Lemma frame_length (h h' : Heap.heap) :
  (∀ l, l < length h → h' !! l = h !! l) → length h ≤ length h'.
Proof.
  intros Hframe. destruct (length h) as [|m] eqn:Hlen; [lia|].
  change (m < length h'). apply lookup_lt_is_Some. rewrite Hframe by lia.
  apply lookup_lt_is_Some. lia.
Qed.

(** From a value in [[a, b)] only objects in [[a, b)] are reached, when
    the objects there refer to one another only. *)
Lemma reach_within (a b : nat) (h : Heap.heap) (x : Heap.val) (l : nat) :
  (∀ l o, a ≤ l < b → h !! l = Some o →
          Forall (Heap.val_new a b) (Heap.obj_vals o)) →
  Heap.reach h x l → Heap.val_new a b x → a ≤ l < b.
Proof.
  intros Hnew. induction 1 as [l|l0 o x l Ho Hin _ IH]; simpl; [done|].
  intros Hl0. apply IH. pose proof (Hnew l0 o Hl0 Ho) as Hall.
  rewrite Forall_forall in Hall. by apply Hall.
Qed.

(** What a value stands for depends on the objects reached from it
    only. *)
Lemma unfold_agree (m : nat) (h h2 : Heap.heap) (x : Heap.val) :
  (∀ l, Heap.reach h x l → h2 !! l = h !! l) →
  Heap.unfold m h2 x = Heap.unfold m h x.
Proof.
  revert x. induction m as [|m IH]; intros x Hsame; [by destruct x|].
  destruct x as [| | | |l]; try done.
  rewrite !unfold_ref, (Hsame l (Heap.reach_here h l)).
  destruct (h !! l) as [[xs|d]|] eqn:Hl; [| |done].
  - f_equal.
    assert (∀ x, x ∈ xs → Heap.unfold m h2 x = Heap.unfold m h x) as Hxs.
    { intros x Hx. apply IH. intros l' Hl'.
      apply Hsame. by apply (Heap.reach_step h l (Heap.List xs) x). }
    clear Hl. induction xs as [|x xs IHxs]; [done|]. simpl.
    rewrite Hxs by (apply elem_of_cons; by left).
    rewrite IHxs; [done|]. intros x' Hx'. apply Hxs, elem_of_cons. by right.
  - f_equal.
    assert (∀ kv, kv ∈ d → Heap.unfold m h2 kv.2 = Heap.unfold m h kv.2)
      as Hd.
    { intros kv Hkv. apply IH. intros l' Hl'.
      apply Hsame. apply (Heap.reach_step h l (Heap.Dict d) kv.2); try done.
      simpl. by apply (list_elem_of_fmap_2 snd). }
    clear Hl. induction d as [|kv d IHd]; [done|]. simpl.
    rewrite Hd by (apply elem_of_cons; by left).
    rewrite IHd; [done|]. intros kv' Hkv'. apply Hd, elem_of_cons. by right.
Qed.

Section Iteration.
Context (ID : string) (n fuel depth : nat) (h : Heap.heap) (examples : nat).
Context (items : list (string * Heap.val)).
Context (Hclosed : Heap.region_closed n h = true) (Hex : examples < n).
Context (Hitems : h !! examples = Some (Heap.Dict items)).
Context (Hfuel : n < fuel).

Lemma iter_keys_fresh (kvs : list (string * Heap.val)) :
  Forall (λ kv, dict_get items kv.1 = Some kv.2
                ∧ ∃ t, Heap.unfold depth h kv.2 = Some (VDict t)) kvs →
  ∀ hc, (∀ l, l < n → hc !! l = h !! l) →
  ∃ outs h',
    Heap.iter_keys ID fuel examples (map fst kvs) hc = Some (outs, None, h') ∧
    (∀ l, l < length hc → h' !! l = hc !! l) ∧
    (∀ l o, length hc ≤ l → h' !! l = Some o →
            Forall (Heap.val_new (length hc) (length h')) (Heap.obj_vals o)) ∧
    Forall2 (Heap.yielded_for ID depth h hc h') outs kvs ∧
    (∀ i j oi oj l, i < j → outs !! i = Some oi → outs !! j = Some oj →
                    Heap.reach h' oi l → Heap.reach h' oj l → False).
Proof.
  induction 1 as [|[k body] kvs [Hbody [t Ht]] _ IH]; intros hc Hsame.
  - exists [], hc. split; [done|]. split; [done|]. split.
    + intros l o Hl Ho. apply lookup_lt_Some in Ho. lia.
    + split; [constructor|]. by intros i j oi oj l _ Hi.
  - simpl in Hbody, Ht.
    assert (Heap.val_below n body = true) as Hbelow.
    { destruct (region_closed_lookup n h examples Hclosed Hex)
        as (o & Ho & Hvals & _).
      rewrite Hitems in Ho. injection Ho as <-. simpl in Hvals.
      rewrite Forall_forall in Hvals. apply Hvals.
      apply (list_elem_of_fmap_2 snd _ (k, body)).
      by apply dict_get_Some_elem_of. }
    destruct (getitem_str_fresh_objects ID n fuel depth hc examples items k
                body t)
      as (y & h1 & Hget & Hy & _ & Hframe1 & Hunfold & Hylt & Hnew1);
      try done.
    { by eapply region_closed_agree. }
    { by rewrite Hsame. }
    { by eapply unfold_region. }
    pose proof (frame_length _ _ Hframe1) as Hlen1.
    pose proof (region_closed_agree _ _ _ Hclosed Hsame) as Hclosed'.
    assert (n ≤ length hc) as Hn.
    { unfold Heap.region_closed in Hclosed'.
      apply andb_true_iff in Hclosed' as [Hn _].
      by apply bool_decide_eq_true in Hn. }
    destruct (IH h1) as (outs & h' & Hrest & Hframe' & Hnew' & Hall & Hsep).
    { intros l Hl. rewrite Hframe1 by lia. by apply Hsame. }
    pose proof (frame_length _ _ Hframe') as Hlen'.
    assert (∀ l, Heap.reach h' (Heap.Ref y) l → length hc ≤ l < length h1)
      as Hfirst.
    { intros l Hl.
      apply (reach_within (length hc) (length h1) h' (Heap.Ref y)); try done.
      intros l0 o [Hl0 Hl1] Ho. rewrite Hframe' in Ho by done.
      by apply (Hnew1 l0 o). }
    exists (Heap.Ref y :: outs), h'. simpl. rewrite Hget. simpl.
    rewrite Hrest. simpl. split; [done|]. split; [|split; [|split]].
    + intros l Hl. rewrite Hframe' by lia. by apply Hframe1.
    + intros l o Hl Ho. destruct (decide (l < length h1)) as [Hl1|Hl1].
      * rewrite Hframe' in Ho by done.
        eapply Forall_impl; [exact (Hnew1 l o Hl Ho)|].
        intros x. by apply val_new_weaken.
      * eapply Forall_impl; [apply (Hnew' l o); [lia|done]|].
        intros x. destruct x; simpl; try done. lia.
    + constructor.
      * exists y, t. split; [done|]. split; [done|]. split.
        -- intros l Hl. by destruct (Hfirst l Hl).
        -- split; [done|]. simpl. by eapply unfold_frame.
      * eapply Forall2_impl; [exact Hall|].
        intros out kv (y' & t' & -> & Hy' & Hreach & Hkv & Hout).
        exists y', t'. split; [done|]. split; [lia|]. split; [|done].
        intros l Hl. specialize (Hreach l Hl). lia.
    + intros [|i] [|j] oi oj l Hij Hi Hj Hli Hlj; try lia.
      * simpl in Hi, Hj. injection Hi as <-.
        destruct (Forall2_lookup_l _ _ _ _ _ Hall Hj)
          as (kv & _ & y' & t' & -> & _ & Hreach & _).
        specialize (Hreach l Hlj). destruct (Hfirst l Hli). lia.
      * simpl in Hi, Hj. apply (Hsep i j oi oj l); [lia|done..].
Qed.
End Iteration.

(** ** Example Source: isolation *)

(** C4: a lookup by key in an Example Source whose stored bodies are
    mappings returns a mapping made of objects that did not exist before
    the call: nothing reachable from it is part of the source or of an
    example handed out earlier, the stored objects are as they were, and an
    assignment or an append to any object reachable from it leaves them so.
    In every later heap that still has the stored objects, the stored body
    and the result of a new lookup of the same key stand for the same trees
    as before.  A pass over the source, from any such later heap, leaves
    every object that was there before it as it was and hands out one
    mapping per entry, which stands for the stored body with its id; from
    it only objects made during the pass are reached, none of them reached
    from another example of the pass; and an assignment or an append to an
    object reached from one example changes neither an object that was
    there before the pass nor what the other examples stand for. *)
Theorem source_access_isolated (ID : string) (n fuel depth : nat) (h : Heap.heap)
    (examples : nat) (items : list (string * Heap.val)) (k : string)
    (body : Heap.val) (t : list (string * value)) :
  Heap.region_closed n h = true → examples < n →
  h !! examples = Some (Heap.Dict items) →
  dict_get items k = Some body →
  Heap.unfold depth h body = Some (VDict t) →
  n < fuel →
  (∃ y h1,
    Heap.getitem_str ID fuel examples k h = Some (Ok (Heap.Ref y), h1) ∧
    length h ≤ y ∧
    (∀ l, Heap.reach h1 (Heap.Ref y) l → length h ≤ l) ∧
    (∀ l, l < length h → h1 !! l = h !! l) ∧
    (∀ l' key a l, Heap.reach h1 (Heap.Ref y) l' → l < length h →
       Heap.setitem_at h1 l' key a !! l = h !! l ∧
       Heap.append_at h1 l' a !! l = h !! l) ∧
    Heap.unfold depth h1 (Heap.Ref y)
    = Some (VDict (dict_set t ID (VStr k))) ∧
    ∀ h2, (∀ l, l < n → h2 !! l = h !! l) →
      Heap.unfold depth h2 body = Some (VDict t) ∧
      ∃ y' h3,
        Heap.getitem_str ID fuel examples k h2
        = Some (Ok (Heap.Ref y'), h3) ∧
        length h2 ≤ y' ∧
        (∀ l, Heap.reach h3 (Heap.Ref y') l → length h2 ≤ l) ∧
        Heap.unfold depth h3 (Heap.Ref y')
        = Some (VDict (dict_set t ID (VStr k)))) ∧
  (Forall (λ kv, ∃ t', Heap.unfold depth h kv.2 = Some (VDict t')) items →
   ∀ h2, (∀ l, l < n → h2 !! l = h !! l) →
   ∃ outs h',
     Heap.iter ID fuel examples h2 = Some (outs, None, h') ∧
     (∀ l, l < length h2 → h' !! l = h2 !! l) ∧
     Forall2 (Heap.yielded_for ID depth h h2 h') outs items ∧
     (∀ i j oi oj l, i ≠ j → outs !! i = Some oi → outs !! j = Some oj →
        Heap.reach h' oi l → Heap.reach h' oj l → False) ∧
     (∀ i oi l' key a hw,
        outs !! i = Some oi → Heap.reach h' oi l' →
        hw = Heap.setitem_at h' l' key a ∨ hw = Heap.append_at h' l' a →
        (∀ l, l < length h2 → hw !! l = h2 !! l) ∧
        (∀ j oj, j ≠ i → outs !! j = Some oj →
           Heap.unfold depth hw oj = Heap.unfold depth h' oj))).
Proof.
  intros Hclosed Hex Hitems Hbody Ht Hfuel.
  assert (∀ hc, (∀ l, l < n → hc !! l = h !! l) →
          ∃ y h1,
            Heap.getitem_str ID fuel examples k hc
            = Some (Ok (Heap.Ref y), h1) ∧
            length hc ≤ y ∧
            (∀ l, Heap.reach h1 (Heap.Ref y) l → length hc ≤ l) ∧
            (∀ l, l < length hc → h1 !! l = hc !! l) ∧
            Heap.unfold depth h1 (Heap.Ref y)
            = Some (VDict (dict_set t ID (VStr k)))) as Haccess.
  { intros hc Hsame.
    destruct (region_closed_lookup n h examples Hclosed Hex)
      as (o & Ho & Hvals & _).
    rewrite Hitems in Ho. injection Ho as <-. simpl in Hvals.
    apply (getitem_str_fresh_copy ID n fuel depth hc examples items k body t);
      [by eapply region_closed_agree|done|by rewrite Hsame|done| |done].
    apply (unfold_region n depth h); [done|done| |done].
    rewrite Forall_forall in Hvals. apply Hvals.
    apply (list_elem_of_fmap_2 snd _ (k, body)).
    by apply dict_get_Some_elem_of. }
  split.
  - destruct (Haccess h) as (y & h1 & Hget & Hy & Hreach & Hframe & Hunfold);
      [done|].
    exists y, h1. do 4 (split; [done|]). split.
    { intros l' key a l Hl' Hl. pose proof (Hreach l' Hl').
      rewrite lookup_setitem_at_ne, lookup_append_at_ne by lia.
      split; by apply Hframe. }
    split; [done|]. intros h2 Hsame. split.
    + destruct (region_closed_lookup n h examples Hclosed Hex)
        as (o & Ho & Hvals & _).
      rewrite Hitems in Ho. injection Ho as <-. simpl in Hvals.
      apply (unfold_region n depth h); [done|done| |done].
      rewrite Forall_forall in Hvals. apply Hvals.
      apply (list_elem_of_fmap_2 snd _ (k, body)).
      by apply dict_get_Some_elem_of.
    + destruct (Haccess h2 Hsame) as (y' & h3 & ? & ? & ? & _ & ?).
      by exists y', h3.
  - intros Hdicts h2 Hsame. unfold Heap.iter.
    rewrite Hsame, Hitems by done.
    destruct (region_closed_lookup n h examples Hclosed Hex)
      as (o & Ho & _ & Hkeys).
    rewrite Hitems in Ho. injection Ho as <-.
    destruct (iter_keys_fresh ID n fuel depth h examples items Hclosed Hex
                Hitems Hfuel items) with (hc := h2)
      as (outs & h' & Hiter & Hframe & _ & Hall & Hsep); [|done|].
    { apply Forall_forall. intros [k' body'] Hin. split.
      - apply dict_get_elem_of; [by apply Hkeys|done].
      - rewrite Forall_forall in Hdicts. by apply Hdicts. }
    assert (∀ i j oi oj l, i ≠ j → outs !! i = Some oi → outs !! j = Some oj →
              Heap.reach h' oi l → Heap.reach h' oj l → False) as Hapart.
    { intros i j oi oj l Hij Hi Hj Hli Hlj.
      destruct (decide (i < j)) as [Hlt|Hge].
      - by apply (Hsep i j oi oj l).
      - apply (Hsep j i oj oi l); [lia|done..]. }
    exists outs, h'. do 4 (split; [done|]).
    intros i oi l' key a hw Hi Hl' Hhw.
    destruct (Forall2_lookup_l _ _ _ _ _ Hall Hi)
      as (kv & _ & y & t' & -> & _ & Hreach & _).
    pose proof (Hreach l' Hl') as Hnew.
    assert (∀ l, l ≠ l' → hw !! l = h' !! l) as Hother.
    { intros l Hne. destruct Hhw as [-> | ->];
        [by apply lookup_setitem_at_ne|by apply lookup_append_at_ne]. }
    split.
    + intros l Hl. rewrite Hother by lia. by apply Hframe.
    + intros j oj Hji Hj. apply unfold_agree. intros l Hl.
      apply Hother. intros ->. by apply (Hapart i j (Heap.Ref y) oj l').
Qed.

Lemma source_access_isolated_witness :
  Heap.region_closed 4 source_heap = true ∧
  Heap.unfold 3 source_heap (Heap.Ref 1)
  = Some (VDict [("x"%string, VInt 1);
                 ("paths"%string, VList [VStr "p"; VStr "q"])]) ∧
  ∃ y h1,
    Heap.getitem_str "example_id" 5 3 "a" source_heap
    = Some (Ok (Heap.Ref y), h1) ∧
    length source_heap ≤ y ∧
    Heap.unfold 3 h1 (Heap.Ref y)
    = Some (VDict [("x"%string, VInt 1);
                   ("paths"%string, VList [VStr "p"; VStr "q"]);
                   ("example_id"%string, VStr "a")]) ∧
    ∃ outs h',
      Heap.iter "example_id" 5 3 source_heap = Some (outs, None, h') ∧
      length outs = 2 ∧
      ∀ out l, out ∈ outs → Heap.reach h' out l → length source_heap ≤ l.
Proof.
  split; [reflexivity|]. split; [reflexivity|].
  destruct (source_access_isolated "example_id" 4 5 3 source_heap 3
              [("a"%string, Heap.Ref 1); ("b"%string, Heap.Ref 2)] "a"
              (Heap.Ref 1)
              [("x"%string, VInt 1);
               ("paths"%string, VList [VStr "p"; VStr "q"])])
    as [(y & h1 & Hget & Hy & _ & _ & _ & Hunfold & _) Hpass];
    [reflexivity|lia|reflexivity|reflexivity|reflexivity|lia|].
  exists y, h1. split; [exact Hget|]. split; [exact Hy|].
  split; [exact Hunfold|].
  destruct (Hpass ltac:(repeat constructor; by eexists) source_heap
              (λ _ _, eq_refl))
    as (outs & h' & Hiter & _ & Hall & _).
  exists outs, h'. split; [exact Hiter|].
  split; [exact (Forall2_length _ _ _ Hall)|].
  intros out l Hout Hl. apply list_elem_of_lookup_1 in Hout as [i Hi].
  destruct (Forall2_lookup_l _ _ _ _ _ Hall Hi)
    as (kv & _ & y' & t' & _ & _ & Hreach & _).
  exact (Hreach l Hl).
Defined.

(** ** Passes and their consumers *)

Lemma feed_nil (e : option exn) (body : value → result (list value)) :
  feed ([], e) body = ([], e).
Proof. done. Qed.

Lemma feed_cons (v : value) (out : list value) (e : option exn)
    (body : value → result (list value)) :
  feed (v :: out, e) body
  = match body v with
    | Raise eb => ([], Some eb)
    | Ok o => let (out', e') := feed (out, e) body in (o ++ out', e')
    end.
Proof.
  unfold feed. simpl. destruct (body v) as [o|eb]; [|done].
  by destruct (for_each (map Ok out) body) as [outs [e1|]].
Qed.

Lemma for_each_feed (xs : list (result value))
    (body : value → result (list value)) :
  for_each xs body = feed (for_each xs (λ x, Ok [x])) body.
Proof.
  induction xs as [|[v|e] xs IH]; [done| |done].
  rewrite !for_each_cons. simpl.
  destruct (for_each xs (λ x, Ok [x])) as [outs e'] eqn:Hxs. simpl.
  rewrite feed_cons, <-IH. by destruct (body v).
Qed.

Lemma feed_app (out1 out2 : list value) (e : option exn)
    (body : value → result (list value)) :
  feed (out1 ++ out2, e) body
  = let (o1, e1) := feed (out1, None) body in
    match e1 with
    | Some _ => (o1, e1)
    | None => let (o2, e2) := feed (out2, e) body in (o1 ++ o2, e2)
    end.
Proof.
  induction out1 as [|v out1 IH].
  - rewrite feed_nil. simpl. by destruct (feed (out2, e) body).
  - change ((v :: out1) ++ out2) with (v :: (out1 ++ out2)).
    rewrite !feed_cons. destruct (body v) as [o|eb]; [|done]. rewrite IH.
    destruct (feed (out1, None) body) as [o1 [e1|]]; [done|].
    destruct (feed (out2, e) body) as [o2 e2]. by rewrite app_assoc.
Qed.

Lemma feed_raised (out : list value) (e : exn)
    (body : value → result (list value)) :
  (feed (out, None) body).2 = None →
  feed (out, Some e) body = ((feed (out, None) body).1, Some e).
Proof.
  unfold feed. simpl. by destruct (for_each (map Ok out) body) as [o [e'|]].
Qed.

Lemma feed_fst (out : list value) (e : option exn)
    (body : value → result (list value)) :
  (feed (out, e) body).1 = (feed (out, None) body).1.
Proof.
  unfold feed. simpl. by destruct (for_each (map Ok out) body) as [o [e'|]].
Qed.

(** What [MapIterator.__iter__] adds to a pass. *)
Lemma feed_map (f : value → result value) (p : list value * option exn)
    (body : value → result (list value)) :
  feed (feed p (λ x, f x ≫= λ y, Ok [y])) body = feed p (λ x, f x ≫= body).
Proof.
  destruct p as [out e]. induction out as [|v out IH].
  - by rewrite !feed_nil.
  - rewrite !(feed_cons v). destruct (f v) as [y|ef]; simpl; [|done].
    destruct (feed (out, e) (λ x, f x ≫= λ y, Ok [y])) as [o1 e1].
    simpl. rewrite feed_cons, IH. by destruct (body y).
Qed.

(** What [FilterIterator.__iter__] does to a pass. *)
Lemma feed_filter (p : value → result bool)
    (ps : list value * option exn)
    (body : value → result (list value)) :
  feed (feed ps (λ x, keep ← p x; if keep : bool then Ok [x] else Ok []))
    body
  = feed ps (λ x, keep ← p x; if keep : bool then body x else Ok []).
Proof.
  destruct ps as [out e]. induction out as [|v out IH].
  - by rewrite !feed_nil.
  - rewrite !(feed_cons v). destruct (p v) as [[]|ef]; simpl; [| |done].
    + destruct (feed (out, e) (λ x, keep ← p x;
                                     if keep : bool then Ok [x] else Ok []))
        as [o1 e1].
      simpl. rewrite feed_cons, IH. by destruct (body v).
    + destruct (feed (out, e) (λ x, keep ← p x;
                                     if keep : bool then Ok [x] else Ok []))
        as [o1 e1].
      simpl. rewrite <-IH. by destruct (feed (o1, e1) body).
Qed.

Lemma same_stop_single (out : list value)
    (body : value → result (list value)) :
  same_stop out body (λ x, Ok [x]) ↔ (feed (out, None) body).2 = None.
Proof.
  induction out as [|v out IH]; [done|]. rewrite feed_cons. simpl.
  destruct (body v) as [o|eb]; [|done].
  rewrite IH. by destruct (feed (out, None) body).
Qed.

Lemma same_stop_raise (out : list value)
    (b1 b2 : value → result (list value)) :
  same_stop out b1 b2 →
  (feed (out, None) b1).2 = None ↔ (feed (out, None) b2).2 = None.
Proof.
  induction out as [|v out IH]; [done|]. rewrite !feed_cons. simpl.
  destruct (b1 v) as [o1|e1], (b2 v) as [o2|e2]; try done.
  intros H. specialize (IH H).
  by destruct (feed (out, None) b1), (feed (out, None) b2).
Qed.

Lemma same_stop_app (out1 out2 : list value)
    (b1 b2 : value → result (list value)) :
  same_stop (out1 ++ out2) b1 b2 →
  same_stop out1 b1 b2 ∧
  ((feed (out1, None) b1).2 = None → same_stop out2 b1 b2).
Proof.
  induction out1 as [|v out1 IH]; [done|]. simpl. rewrite feed_cons.
  destruct (b1 v) as [o1|e1], (b2 v) as [o2|e2]; try done.
  intros H. destruct (IH H) as [H1 H2]. split; [done|].
  by destruct (feed (out1, None) b1).
Qed.

Lemma same_stop_map (f : value → result value) (out : list value)
    (e : option exn) (b1 b2 : value → result (list value)) :
  same_stop (feed (out, e) (λ x, f x ≫= λ y, Ok [y])).1 b1 b2 →
  same_stop out (λ x, f x ≫= b1) (λ x, f x ≫= b2).
Proof.
  induction out as [|v out IH]; [done|]. rewrite feed_cons. simpl.
  destruct (f v) as [y|ef]; simpl; [|done].
  destruct (feed (out, e) (λ x, f x ≫= λ y, Ok [y])) as [o1' e1']. simpl.
  by destruct (b1 y), (b2 y).
Qed.

Lemma same_stop_filter (p : value → result bool) (out : list value)
    (e : option exn) (b1 b2 : value → result (list value)) :
  same_stop (feed (out, e)
               (λ x, keep ← p x; if keep : bool then Ok [x] else Ok [])).1
    b1 b2 →
  same_stop out (λ x, keep ← p x; if keep : bool then b1 x else Ok [])
    (λ x, keep ← p x; if keep : bool then b2 x else Ok []).
Proof.
  induction out as [|v out IH]; [done|]. rewrite feed_cons. simpl.
  destruct (p v) as [[]|ef]; simpl; [| |done].
  - destruct (feed (out, e)
                (λ x, keep ← p x; if keep : bool then Ok [x] else Ok []))
      as [o1' e1'].
    simpl. by destruct (b1 v), (b2 v).
  - by destruct (feed (out, e)
                   (λ x, keep ← p x; if keep : bool then Ok [x] else Ok []))
      as [o1' e1'].
Qed.

Ltac step_iterate := cbn [iterate].
Ltac step_chain := cbn [chain_iterate].
Ltac open_iter := unfold iter.
Ltac open_iter_all := unfold iter in *.

Section Fusion.
Context (ID : string) {rng : Type}.
Context (np_random_shuffle : rng → ndarray → ndarray * rng).

Local Abbreviation iterate := (iterate ID np_random_shuffle).
Local Abbreviation iter := (iter ID np_random_shuffle).
Local Abbreviation chain_iterate := (chain_iterate ID np_random_shuffle).
Local Abbreviation fuses := (fuses ID np_random_shuffle).

Lemma iterate_concatenate (o : nat) (its : list iterator)
    (body : value → result (list value)) (st : store rng) :
  iterate (ConcatenateIterator o its) body st = chain_iterate its body st.
Proof.
  step_iterate. revert st.
  induction its as [|i rest IH]; intros st; [done|].
  step_chain.
  destruct (iterate i body st) as [[out [e|]] st1]; [done|]. by rewrite IH.
Qed.

Lemma chain_fuses (its : list iterator) :
  Forall fuses its →
  (∀ body st, (chain_iterate its body st).1
              = feed (chain_iterate its (λ x, Ok [x]) st).1 body) ∧
  (∀ b1 b2 st, same_stop (chain_iterate its (λ x, Ok [x]) st).1.1 b1 b2 →
               (chain_iterate its b1 st).2 = (chain_iterate its b2 st).2).
Proof.
  induction 1 as [|i rest [Hpass Hstore] _ [IHpass IHstore]]; [done|].
  assert (∀ body st,
            (feed ((iter i st).1.1, None) body).2 = None →
            (iterate i body st).2 = (iter i st).2) as Hsingle.
  { intros body st Hok. apply Hstore. by apply same_stop_single. }
  split.
  - intros body st. step_chain.
    specialize (Hpass body st). specialize (Hsingle body st).
    specialize (IHpass body).
    open_iter_all.
    destruct (iterate i (λ x, Ok [x]) st) as [[p1 f1] s1'].
    destruct (iterate i body st) as [[o1 e1] s1]. simpl in *.
    destruct f1 as [ef|]; simpl.
    + rewrite <-Hpass. assert (is_Some e1) as [? ->]; [|done].
      unfold feed in Hpass. simpl in Hpass.
      destruct (for_each (map Ok p1) body) as [? [?|]];
        injection Hpass as -> ->; eauto.
    + specialize (IHpass s1').
      destruct (chain_iterate rest (λ x, Ok [x]) s1') as [[prest frest] srest].
      simpl in *. rewrite feed_app, <-Hpass.
      destruct e1 as [eb|]; [done|].
      rewrite Hsingle by by rewrite <-Hpass.
      destruct (chain_iterate rest body s1') as [[orest erest] s2].
      simpl in *. by rewrite <-IHpass.
  - intros b1 b2 st. step_chain.
    pose proof (Hpass b1 st) as Hp1. pose proof (Hpass b2 st) as Hp2.
    pose proof (Hsingle b1 st) as Hs1. pose proof (Hsingle b2 st) as Hs2.
    specialize (Hstore b1 b2 st). specialize (IHstore b1 b2).
    open_iter_all.
    destruct (iterate i (λ x, Ok [x]) st) as [[p1 f1] s1'].
    destruct (iterate i b1 st) as [[o1 e1] s1].
    destruct (iterate i b2 st) as [[o2 e2] s2]. simpl in *.
    destruct f1 as [ef|].
    + simpl. intros Hsame.
      assert (is_Some e1) as [? ->].
      { unfold feed in Hp1. simpl in Hp1.
        destruct (for_each (map Ok p1) b1) as [? [?|]];
          injection Hp1 as -> ->; eauto. }
      assert (is_Some e2) as [? ->].
      { unfold feed in Hp2. simpl in Hp2.
        destruct (for_each (map Ok p1) b2) as [? [?|]];
          injection Hp2 as -> ->; eauto. }
      by apply Hstore.
    + specialize (IHstore s1').
      destruct (chain_iterate rest (λ x, Ok [x]) s1') as [[prest frest] srest].
      simpl in *. intros [Hsame1 Hsame2]%same_stop_app.
      pose proof (same_stop_raise _ _ _ Hsame1) as Hiff.
      rewrite <-Hp1, <-Hp2 in Hiff. simpl in Hiff.
      rewrite <-Hp1 in Hs1, Hsame2. rewrite <-Hp2 in Hs2. simpl in *.
      destruct e1 as [eb1|], e2 as [eb2|].
      * by apply Hstore.
      * discriminate (proj2 Hiff eq_refl).
      * discriminate (proj1 Hiff eq_refl).
      * rewrite Hs1, Hs2 by done.
        destruct (chain_iterate rest b1 s1') as [[? ?] ?].
        destruct (chain_iterate rest b2 s1') as [[? ?] ?].
        simpl in *. by apply IHstore, Hsame2.
Qed.

Lemma iterate_fuses (u : iterator) : fuses u.
Proof.
  induction u as [ex|f i [IHp IHs]|p i _|o i _|s i _|f i [IHp IHs]|o its IH|]
    using iterator_nested_ind.
  - split; [|done]. intros body st. simpl. f_equal. apply for_each_feed.
  - split.
    + intros body st. open_iter. step_iterate.
      rewrite (IHp (λ example, f example ≫= body)).
      rewrite (IHp (λ example, f example ≫= λ example0, Ok [example0])).
      symmetry. apply feed_map.
    + intros b1 b2 st. open_iter. step_iterate.
      rewrite (IHp (λ example, f example ≫= λ example0, Ok [example0])).
      intros Hsame. apply IHs.
      eapply same_stop_map. rewrite <-surjective_pairing. exact Hsame.
  - split; [|done]. intros body st. simpl. f_equal. apply for_each_feed.
  - split.
    + intros body st. open_iter. step_iterate.
      destruct (np_random_shuffle _ _) as [p g]. simpl.
      apply for_each_feed.
    + intros b1 b2 st _. step_iterate.
      by destruct (np_random_shuffle _ _) as [p g].
  - split; [|done]. intros body st. simpl. f_equal. apply for_each_feed.
  - split.
    + intros body st. open_iter. step_iterate.
      rewrite (IHp (λ example, keep ← f example;
                               if keep : bool then body example else Ok [])).
      rewrite (IHp (λ example, keep ← f example;
                               if keep : bool then Ok [example] else Ok [])).
      symmetry. apply feed_filter.
    + intros b1 b2 st. open_iter. step_iterate.
      rewrite (IHp (λ example, keep ← f example;
                               if keep : bool then Ok [example] else Ok [])).
      intros Hsame. apply IHs.
      eapply same_stop_filter. rewrite <-surjective_pairing. exact Hsame.
  - destruct (chain_fuses its IH) as [Hp Hs]. split.
    + intros body st. open_iter.
      rewrite !iterate_concatenate. apply Hp.
    + intros b1 b2 st. open_iter.
      rewrite !iterate_concatenate. apply Hs.
  - by split.
Qed.
End Fusion.

(** ** Views whose iteration, length and positions agree *)

Lemma feed_total (out out' : list value) (e : option exn)
    (f : value → result value) :
  Forall2 (λ x y, f x = Ok y) out out' →
  feed (out, e) (λ x, f x ≫= λ y, Ok [y]) = (out', e).
Proof.
  induction 1 as [|x y out out' Hxy _ IH]; [done|].
  rewrite feed_cons, Hxy. simpl. by rewrite IH.
Qed.

Lemma same_stop_total (out out' : list value) (f : value → result value) :
  Forall2 (λ x y, f x = Ok y) out out' →
  same_stop out (λ x, f x ≫= λ y, Ok [y]) (λ x, Ok [x]).
Proof.
  induction 1 as [|x y out out' Hxy _ IH]; [done|]. simpl. by rewrite Hxy.
Qed.

Lemma for_each_positions (ID : string) (u : iterator) (out out' : list value)
    (p : list Z) :
  (∀ (i : nat) (x : value),
     out !! i = Some x → getitem_int ID u (Z.of_nat i) = Ok x) →
  Forall2 (λ idx x, (0 ≤ idx)%Z ∧ out !! Z.to_nat idx = Some x) p out' →
  for_each (map (getitem_int ID u) p) (λ x, Ok [x]) = (out', None).
Proof.
  intros Hpos. induction 1 as [|idx x p out' [Hidx Hx] _ IH]; [done|].
  change (map ?f (idx :: p)) with (f idx :: map f p).
  rewrite for_each_cons, IH.
  rewrite <-(Z2Nat.id idx) by done. by rewrite (Hpos _ _ Hx).
Qed.

Lemma examples_yields (ID : string) (examples : list (string * value))
    (out : list value) :
  NoDup (map fst examples) →
  Forall2 (λ kv x, (∃ body, kv.2 = VDict body) ∧ example_of ID kv = Ok x)
    examples out →
  yields ID (ExamplesIterator examples) out.
Proof.
  intros Hnd Hall. split; [|split].
  - simpl. by rewrite (Forall2_length _ _ _ Hall).
  - intros rng sh st. unfold iter. cbn [iterate]. f_equal.
    assert (∀ kvs outs,
              Forall2 (λ kv x, (∃ body, kv.2 = VDict body)
                               ∧ example_of ID kv = Ok x) kvs outs →
              (∀ kv, kv ∈ kvs → kv ∈ examples) →
              for_each (map (ExamplesIterator_getitem_str ID examples)
                          (map fst kvs)) (λ x, Ok [x]) = (outs, None))
      as Hsub; [|by apply Hsub].
    induction 1 as [|[k v] x kvs outs [[body Hbody] Hx] _ IH]; intros Hin;
      [done|].
    simpl in Hbody. subst v. cbn [map fst]. rewrite for_each_cons.
    rewrite (ExamplesIterator_getitem_str_dict ID examples k body Hnd).
    + unfold example_of, deepcopy in Hx. simpl in Hx. injection Hx as <-.
      simpl. rewrite IH; [done|]. intros kv Hkv. apply Hin.
      apply elem_of_cons. by right.
    + apply Hin. apply elem_of_cons. by left.
  - intros i x Hx.
    destruct (Forall2_lookup_r _ _ _ _ _ Hall Hx)
      as ([k v] & Hkv & [body Hbody] & Hex).
    simpl in Hbody. subst v.
    destruct (examples_position ID examples (Z.of_nat i) Hnd)
      as (k' & body' & Hkv' & _ & Hget).
    + clear -Hall. induction Hall as [|? ? ? ? [? _] _ IH]; by constructor.
    + apply lookup_lt_Some in Hkv. lia.
    + rewrite Nat2Z.id, Hkv in Hkv'. injection Hkv' as <- <-.
      rewrite Hget. unfold example_of, deepcopy in Hex. by simpl in Hex.
Qed.

Lemma source_ab_yields :
  yields "example_id" (ExamplesIterator source_ab) source_ab_examples.
Proof.
  apply examples_yields.
  - apply (bool_decide_unpack _). by vm_compute.
  - repeat constructor; by eexists.
Qed.

(** X1: an Example Source with unique ids whose bodies are mappings yields,
    in one pass, one example per entry in stored order, each the body with
    its id; nothing is raised, the store is not touched, [len] is the number
    of examples yielded and position [i] holds the [i]-th of them. *)
Theorem example_source_passes (ID : string) (examples : list (string * value))
    (out : list value) :
  NoDup (map fst examples) →
  Forall2 (λ kv x, (∃ body, kv.2 = VDict body) ∧ example_of ID kv = Ok x)
    examples out →
  yields ID (ExamplesIterator examples) out ∧
  map (λ x, value_getitem x ID) out = map (λ k, Ok (VStr k)) (map fst examples).
Proof.
  intros Hnd Hall. split; [by apply examples_yields|].
  clear Hnd. induction Hall as [|[k v] x ? ? [[body Hbody] Hx] _ IH]; [done|].
  simpl in *. subst v. rewrite IH. f_equal.
  unfold example_of, deepcopy in Hx. simpl in Hx. injection Hx as <-.
  simpl. unfold dict_getitem. by rewrite dict_get_set_eq.
Qed.

Lemma example_source_passes_witness :
  NoDup (map fst source_ab) ∧
  yields "example_id" (ExamplesIterator source_ab) source_ab_examples.
Proof.
  assert (NoDup (map fst source_ab)) as Hnd
    by (apply (bool_decide_unpack _); by vm_compute).
  split; [exact Hnd|].
  apply (example_source_passes "example_id" source_ab source_ab_examples Hnd).
  repeat constructor; by eexists.
Defined.

(** X2: over an upstream whose pass, length and positions agree, a Map view
    whose function succeeds on every upstream example agrees in the same
    way on the images: same length, the images in the same order, nothing
    raised, the store untouched. *)
Theorem map_view_passes (ID : string) (f : value → result value)
    (u : iterator) (out out' : list value) :
  yields ID u out → Forall2 (λ x y, f x = Ok y) out out' →
  yields ID (MapIterator f u) out'.
Proof.
  intros (Hlen & Hiter & Hpos) Hf. split; [|split].
  - simpl. by rewrite <-(Forall2_length _ _ _ Hf).
  - intros rng sh st.
    destruct (iterate_fuses ID sh u) as [Hpass Hstore].
    pose proof (Hpass (λ x, f x ≫= λ y, Ok [y]) st) as Hp.
    pose proof (Hstore (λ x, f x ≫= λ y, Ok [y]) (λ x, Ok [x]) st) as Hs.
    rewrite Hiter in Hp, Hs. simpl in Hp, Hs.
    rewrite (feed_total _ _ _ _ Hf) in Hp.
    specialize (Hs (same_stop_total _ _ _ Hf)).
    unfold iter in *. cbn [iterate]. rewrite Hiter in Hs. simpl in Hs.
    by apply injective_projections.
  - intros i y Hy.
    destruct (Forall2_lookup_r _ _ _ _ _ Hf Hy) as (x & Hx & Hxy).
    simpl. by rewrite (Hpos _ _ Hx).
Qed.

Lemma map_view_passes_witness :
  let f := λ x, value_setitem x "seen" (VBool true) in
  yields "example_id" (ExamplesIterator source_ab) source_ab_examples ∧
  yields "example_id" (MapIterator f (ExamplesIterator source_ab))
    [VDict [("x"%string, VInt 1); ("example_id"%string, VStr "a");
            ("seen"%string, VBool true)];
     VDict [("x"%string, VInt 2); ("example_id"%string, VStr "b");
            ("seen"%string, VBool true)]].
Proof.
  intros f. split; [exact source_ab_yields|].
  apply (map_view_passes "example_id" f _ source_ab_examples);
    [exact source_ab_yields|by repeat constructor].
Defined.

Lemma positions_yield (ID : string) (u : iterator) (out : list value)
    (p : list Z) :
  Forall (λ idx, (0 ≤ idx < Z.of_nat (length out))%Z) p →
  ∃ out', Forall2 (λ idx x, (0 ≤ idx)%Z ∧ out !! Z.to_nat idx = Some x)
            p out'.
Proof.
  induction 1 as [|idx p Hidx _ [out' IH]]; [by exists []|].
  destruct (lookup_lt_is_Some_2 out (Z.to_nat idx)) as [x Hx]; [lia|].
  exists (x :: out'). constructor; [split; [lia|done]|done].
Qed.

Lemma positions_lookup (out out' : list value) (p : list Z) (i : nat)
    (x : value) :
  Forall2 (λ idx x, (0 ≤ idx)%Z ∧ out !! Z.to_nat idx = Some x) p out' →
  out' !! i = Some x →
  ∃ idx, list_getitem p (Z.of_nat i) = Ok idx ∧ (0 ≤ idx)%Z ∧
         out !! Z.to_nat idx = Some x.
Proof.
  intros Hall Hx.
  destruct (Forall2_lookup_r _ _ _ _ _ Hall Hx) as (idx & Hidx & H0 & Hout).
  exists idx. split; [|done]. apply list_getitem_in_range; [lia|].
  by rewrite Nat2Z.id.
Qed.

(** X3: over an upstream whose pass, length and positions agree, a static
    Shuffle view with a permutation of the upstream positions agrees in the
    same way, and what it yields is a rearrangement of what the upstream
    yields: nothing is lost and nothing comes twice. *)
Theorem shuffle_view_passes (ID : string) (p : list Z) (u : iterator)
    (out : list value) :
  yields ID u out → p ≡ₚ arange (Z.of_nat (length out)) →
  ∃ out', yields ID (ShuffleIterator p u) out' ∧ out' ≡ₚ out.
Proof.
  intros (Hlen & Hiter & Hpos) Hp.
  assert (Forall (λ idx, (0 ≤ idx < Z.of_nat (length out))%Z) p) as Hrange.
  { apply Forall_forall. intros x Hx. apply elem_of_arange. by rewrite <-Hp. }
  destruct (positions_yield ID u out p Hrange) as [out' Hall].
  assert (length out' = length out) as Hlen'.
  { rewrite <-(Forall2_length _ _ _ Hall), Hp, length_arange. lia. }
  exists out'. split; [split; [|split]|].
  - simpl. by rewrite Hlen'.
  - intros rng sh st. unfold iter. cbn [iterate].
    by rewrite (for_each_positions ID u out out' p Hpos Hall).
  - intros i x Hx.
    destruct (positions_lookup _ _ _ _ _ Hall Hx) as (idx & Hidx & H0 & Hout).
    simpl. rewrite Hidx. simpl. rewrite <-(Z2Nat.id idx) by done.
    by apply Hpos.
  - assert (out' = (λ idx, default VNone (out !! Z.to_nat idx)) <$> p) as ->.
    { clear -Hall. induction Hall as [|? ? ? ? [_ Hx] _ IH]; [done|].
      simpl. by rewrite Hx, IH. }
    rewrite Hp. unfold arange. map_to_fmap. rewrite <-list_fmap_compose.
    replace ((λ idx, default VNone (out !! Z.to_nat idx)) ∘ Z.of_nat <$>
             seq 0 (Z.to_nat (Z.of_nat (length out)))) with out; [done|].
    apply list_eq. intros i. rewrite list_lookup_fmap, Nat2Z.id.
    destruct (decide (i < length out)) as [Hi|Hi].
    + rewrite lookup_seq_lt by done. simpl. rewrite Nat2Z.id.
      by destruct (lookup_lt_is_Some_2 out i Hi) as [x ->].
    + rewrite lookup_seq_ge by lia. by rewrite lookup_ge_None_2 by lia.
Qed.

Lemma shuffle_view_passes_witness :
  yields "example_id" (ExamplesIterator source_ab) source_ab_examples ∧
  [1; 0]%Z ≡ₚ arange 2 ∧
  ∃ out', yields "example_id"
            (ShuffleIterator [1; 0]%Z (ExamplesIterator source_ab)) out' ∧
          out' ≡ₚ source_ab_examples.
Proof.
  assert ([1; 0]%Z ≡ₚ arange 2) as Hp by apply Permutation_swap.
  split; [exact source_ab_yields|]. split; [exact Hp|].
  exact (shuffle_view_passes "example_id" [1; 0]%Z _ source_ab_examples
           source_ab_yields Hp).
Defined.

Lemma mapM_result_Forall2 {A B} (f : A → result B) (l : list A) (k : list B) :
  mapM f l = Ok k ↔ Forall2 (λ x y, f x = Ok y) l k.
Proof.
  revert k. induction l as [|x l IH]; intros k; simpl.
  - split; [intros [= <-]; constructor|by inversion 1].
  - destruct (f x) as [y|e] eqn:Hx; simpl.
    + destruct (mapM f l) as [k'|e] eqn:Hl; simpl.
      * split.
        -- intros [= <-]. constructor; [done|]. by apply IH.
        -- inversion 1 as [|? y' ? k'' Hy Hk]; subst.
           apply IH in Hk. unfold mret, result_ret. congruence.
      * split; [done|]. inversion 1 as [|? y' ? k'' Hy Hk]; subst.
        by apply IH in Hk.
    + split; [done|]. inversion 1; congruence.
Qed.

Lemma list_getitem_elem_of {A} (l : list A) (i : Z) (x : A) :
  list_getitem l i = Ok x → x ∈ l.
Proof.
  unfold list_getitem.
  destruct (_ <? 0)%Z; [done|].
  destruct (l !! _) as [y|] eqn:Hy; [|done]. intros [= <-].
  by eapply list_elem_of_lookup_2.
Qed.

Lemma ndarray_getitem_in_range (n : Z) (sel : selector) (sl : list Z) :
  ndarray_getitem (arange n) sel = Ok sl →
  Forall (λ idx, (0 ≤ idx < n)%Z) sl.
Proof.
  assert (∀ ps, mapM (list_getitem (arange n)) ps = Ok sl →
                Forall (λ idx, (0 ≤ idx < n)%Z) sl) as Hsub.
  { intros ps Hps. apply mapM_result_Forall2 in Hps.
    induction Hps as [|i x ? ? Hx _ IH]; constructor; [|done].
    by apply elem_of_arange, (list_getitem_elem_of _ i). }
  destruct sel as [start stop step|positions]; simpl.
  - destruct (slice_positions _ _ _ _) as [ps|e]; [apply Hsub|done].
  - destruct (index_array positions) as [idx|e]; [apply Hsub|done].
Qed.

(** X4: a Slice view, as its constructor builds it over an upstream whose
    pass, length and positions agree, agrees in the same way on the
    selected examples: it yields the upstream examples at the resolved
    positions, in that order, and [len] counts them. *)
Theorem slice_view_passes (ID : string) (sel : selector) (u v : iterator)
    (out : list value) :
  yields ID u out → SliceIterator_init sel u = Ok v →
  ∃ slice out',
    v = SliceIterator slice u ∧ yields ID v out' ∧
    Forall2 (λ idx x, (0 ≤ idx)%Z ∧ out !! Z.to_nat idx = Some x) slice out'.
Proof.
  intros (Hlen & Hiter & Hpos). unfold SliceIterator_init. rewrite Hlen. simpl.
  destruct (ndarray_getitem _ sel) as [slice|e] eqn:Hsel; [|done].
  simpl. intros [= <-].
  pose proof (ndarray_getitem_in_range _ _ _ Hsel) as Hrange.
  destruct (positions_yield ID u out slice Hrange) as [out' Hall].
  exists slice, out'. split; [done|]. split; [|done]. split; [|split].
  - simpl. by rewrite (Forall2_length _ _ _ Hall).
  - intros rng sh st. unfold iter. cbn [iterate].
    by rewrite (for_each_positions ID u out out' slice Hpos Hall).
  - intros i x Hx.
    destruct (positions_lookup _ _ _ _ _ Hall Hx) as (idx & Hidx & H0 & Hout).
    simpl. rewrite Hidx. simpl. rewrite <-(Z2Nat.id idx) by done.
    by apply Hpos.
Qed.

Lemma slice_view_passes_witness :
  let u := ExamplesIterator source_ab in
  yields "example_id" u source_ab_examples ∧
  SliceIterator_init (SelList [-1; 0]%Z) u = Ok (SliceIterator [1; 0]%Z u) ∧
  ∃ slice out',
    SliceIterator [1; 0]%Z u = SliceIterator slice u ∧
    yields "example_id" (SliceIterator [1; 0]%Z u) out' ∧
    Forall2 (λ idx x, (0 ≤ idx)%Z
                      ∧ source_ab_examples !! Z.to_nat idx = Some x)
      slice out'.
Proof.
  intros u. split; [exact source_ab_yields|]. split; [reflexivity|].
  exact (slice_view_passes "example_id" (SelList [-1; 0]%Z) u _
           source_ab_examples source_ab_yields eq_refl).
Defined.

Lemma chain_iterate_yields (ID : string) {rng : Type}
    (sh : rng → ndarray → ndarray * rng) (its : list iterator)
    (outs : list (list value)) (st : store rng) :
  Forall2 (yields ID) its outs →
  chain_iterate ID sh its (λ x, Ok [x]) st = ((concat outs, None), st).
Proof.
  induction 1 as [|i out its outs (_ & Hiter & _) _ IH]; [done|].
  cbn [chain_iterate]. specialize (Hiter rng sh st). unfold iter in Hiter.
  by rewrite Hiter, IH.
Qed.

Lemma sum_len_yields (ID : string) (its : list iterator)
    (outs : list (list value)) :
  Forall2 (yields ID) its outs →
  sum_len its = Ok (Z.of_nat (length (concat outs))).
Proof.
  induction 1 as [|i out its outs (Hlen & _) _ IH]; [done|].
  simpl. rewrite Hlen, IH. simpl. rewrite length_app. f_equal. lia.
Qed.

Lemma walk_yields (ID : string) (its : list iterator)
    (outs : list (list value)) (i : nat) (x : value) :
  Forall2 (yields ID) its outs → concat outs !! i = Some x →
  walk ID its (Z.of_nat i) = Ok x.
Proof.
  intros Hall. revert i.
  induction Hall as [|it out its outs (Hlen & _ & Hpos) _ IH]; intros i;
    [done|].
  simpl. rewrite Hlen. simpl. intros Hx.
  destruct (decide (i < length out)) as [Hi|Hi].
  - rewrite lookup_app_l in Hx by done.
    destruct (Z.leb_spec (Z.of_nat (length out)) (Z.of_nat i)); [lia|].
    by apply Hpos.
  - rewrite lookup_app_r in Hx by lia.
    destruct (Z.leb_spec (Z.of_nat (length out)) (Z.of_nat i)); [|lia].
    replace (Z.of_nat i - Z.of_nat (length out))%Z
      with (Z.of_nat (i - length out)) by lia.
    by apply IH.
Qed.

(** X5: a Concatenate view over upstreams whose passes, lengths and
    positions agree yields their examples one upstream after the other,
    its length is the number of examples yielded and position [i] holds
    the [i]-th of them; the key cache plays no part. *)
Theorem concatenate_view_passes (ID : string) (o : nat)
    (its : list iterator) (outs : list (list value)) :
  Forall2 (yields ID) its outs →
  yields ID (ConcatenateIterator o its) (concat outs).
Proof.
  intros Hall. split; [|split].
  - rewrite len_concatenate. by eapply sum_len_yields.
  - intros rng sh st. unfold iter. rewrite iterate_concatenate.
    by apply chain_iterate_yields.
  - intros i x Hx. rewrite getitem_int_concatenate. by eapply walk_yields.
Qed.

Lemma concatenate_view_passes_witness :
  let its := [ExamplesIterator source_ab; ExamplesIterator source_ab] in
  Forall2 (yields "example_id") its [source_ab_examples; source_ab_examples] ∧
  yields "example_id" (ConcatenateIterator 0 its)
    (source_ab_examples ++ source_ab_examples).
Proof.
  intros its.
  assert (Forall2 (yields "example_id") its
            [source_ab_examples; source_ab_examples]) as Hall
    by (constructor; [exact source_ab_yields|];
        constructor; [exact source_ab_yields|constructor]).
  split; [exact Hall|].
  exact (concatenate_view_passes "example_id" 0 its _ Hall).
Defined.

(** ** Map and Filter over any upstream *)

Lemma feed_stops (pre pre' rest : list value) (x : value) (e : option exn)
    (ef : exn) (f : value → result value) :
  Forall2 (λ x y, f x = Ok y) pre pre' → f x = Raise ef →
  feed (pre ++ x :: rest, e) (λ x, f x ≫= λ y, Ok [y]) = (pre', Some ef).
Proof.
  intros Hpre Hx. rewrite feed_app, (feed_total _ _ _ _ Hpre), feed_cons, Hx.
  simpl. by rewrite app_nil_r.
Qed.

(** X6: one pass over a Map view applies the function to the examples of
    the upstream pass in order.  If the function succeeds on all of them
    the pass yields the images, ends as the upstream pass ends and leaves
    the store as the upstream pass leaves it; at the first example on which
    the function raises, the pass ends with that exception after the
    images of the examples before it. *)
Theorem map_iteration (ID : string) (rng : Type)
    (np_random_shuffle : rng → ndarray → ndarray * rng)
    (f : value → result value) (u : iterator) (st : store rng) :
  let upstream := iter ID np_random_shuffle u st in
  let view := MapIterator f u in
  (∀ out', Forall2 (λ x y, f x = Ok y) upstream.1.1 out' →
           iter ID np_random_shuffle view st
           = ((out', upstream.1.2), upstream.2)) ∧
  (∀ pre pre' x rest ef,
     upstream.1.1 = pre ++ x :: rest →
     Forall2 (λ x y, f x = Ok y) pre pre' → f x = Raise ef →
     (iter ID np_random_shuffle view st).1 = (pre', Some ef)).
Proof.
  intros upstream view.
  destruct (iterate_fuses ID np_random_shuffle u) as [Hpass Hstore].
  pose proof (Hpass (λ x, f x ≫= λ y, Ok [y]) st) as Hp.
  fold upstream in Hp. destruct upstream as [[out e] st'] eqn:Hup.
  simpl in *. split.
  - intros out' Hf. unfold iter, view. cbn [iterate].
    apply injective_projections.
    + rewrite Hp. by apply feed_total.
    + simpl. rewrite (Hstore _ (λ x, Ok [x])).
      * fold (iter ID np_random_shuffle u st). unfold upstream in Hup.
        by rewrite Hup.
      * fold (iter ID np_random_shuffle u st). unfold upstream in Hup.
        rewrite Hup. simpl. by eapply same_stop_total.
  - intros pre pre' x rest ef -> Hpre Hx. unfold iter, view. cbn [iterate].
    rewrite Hp. by apply feed_stops.
Qed.

Lemma feed_keep (out : list value) (e : option exn)
    (p : value → result bool) (keep : value → bool) :
  (∀ x, x ∈ out → p x = Ok (keep x)) →
  feed (out, e) (λ x, k ← p x; if k : bool then Ok [x] else Ok [])
  = (List.filter keep out, e) ∧
  same_stop out (λ x, k ← p x; if k : bool then Ok [x] else Ok [])
    (λ x, Ok [x]).
Proof.
  induction out as [|v out IH]; intros Hp; [done|].
  assert (p v = Ok (keep v)) as Hv by (apply Hp, elem_of_cons; by left).
  destruct IH as [IH1 IH2].
  { intros x Hx. apply Hp, elem_of_cons. by right. }
  rewrite feed_cons, Hv, IH1. simpl. rewrite Hv.
  by destruct (keep v).
Qed.

Lemma filter_pass (ID : string) {rng : Type}
    (sh : rng → ndarray → ndarray * rng) (p : value → result bool)
    (keep : value → bool) (u : iterator) (st : store rng)
    (out : list value) (e : option exn) (st' : store rng) :
  iter ID sh u st = ((out, e), st') →
  (∀ x, x ∈ out → p x = Ok (keep x)) →
  iter ID sh (FilterIterator p u) st = ((List.filter keep out, e), st').
Proof.
  intros Hup Hp.
  destruct (iterate_fuses ID sh u) as [Hpass Hstore].
  pose proof (Hpass (λ x, k ← p x; if k : bool then Ok [x] else Ok []) st)
    as Hpa.
  pose proof (Hstore (λ x, k ← p x; if k : bool then Ok [x] else Ok [])
                (λ x, Ok [x]) st) as Hs.
  fold (iter ID sh u st) in Hs. rewrite Hup in Hpa, Hs. simpl in Hpa, Hs.
  destruct (feed_keep out e p keep Hp) as [Hfeed Hsame].
  unfold iter. cbn [iterate]. apply injective_projections.
  - by rewrite Hpa.
  - by apply Hs.
Qed.

(** X7: one pass over a Filter view whose predicate answers for every
    example of the upstream pass yields exactly the upstream examples on
    which it is true, in upstream order, ends as the upstream pass ends and
    leaves the store as the upstream pass leaves it. *)
Theorem filter_iteration (ID : string) (rng : Type)
    (np_random_shuffle : rng → ndarray → ndarray * rng)
    (p : value → result bool) (keep : value → bool) (u : iterator)
    (st : store rng) :
  let upstream := iter ID np_random_shuffle u st in
  (∀ x, x ∈ upstream.1.1 → p x = Ok (keep x)) →
  iter ID np_random_shuffle (FilterIterator p u) st
  = ((List.filter keep upstream.1.1, upstream.1.2), upstream.2).
Proof.
  intros upstream Hp. apply filter_pass; [|done].
  by rewrite <-!surjective_pairing.
Qed.

Lemma filter_iteration_witness :
  let keep := λ x, match value_getitem x "x" with
                   | Ok (VInt n) => (n =? 2)%Z
                   | _ => false
                   end in
  let p := λ x, v ← value_getitem x "x"; Ok (keep x) in
  iter "example_id" reversing_shuffle
    (FilterIterator p (ExamplesIterator source_ab)) empty_store
  = (([VDict [("x"%string, VInt 2); ("example_id"%string, VStr "b")]], None),
     empty_store).
Proof.
  intros keep p.
  apply (filter_iteration "example_id" nat reversing_shuffle p keep
           (ExamplesIterator source_ab) empty_store).
  intros x Hx. simpl in Hx.
  repeat (apply elem_of_cons in Hx as [->|Hx]; [by vm_compute|]).
  by apply elem_of_nil in Hx.
Defined.

(** ** Positions: bounds and negative indices *)

Lemma list_getitem_too_small {A} (l : list A) (i : Z) :
  (i < - Z.of_nat (length l))%Z → list_getitem l i = Raise IndexError.
Proof.
  intros Hi. unfold list_getitem.
  assert ((i <? 0)%Z = true) as -> by (apply Z.ltb_lt; lia).
  by assert ((i + Z.of_nat (length l) <? 0)%Z = true) as ->
    by (apply Z.ltb_lt; lia).
Qed.

Lemma list_getitem_wraps {A} (l : list A) (i : Z) :
  (- Z.of_nat (length l) ≤ i < 0)%Z →
  list_getitem l i = list_getitem l (i + Z.of_nat (length l)).
Proof.
  intros Hi. unfold list_getitem. cbv zeta.
  assert ((i <? 0)%Z = true) as -> by (apply Z.ltb_lt; lia).
  assert ((i + Z.of_nat (length l) <? 0)%Z = false) as E
    by (apply Z.ltb_ge; lia).
  by rewrite !E.
Qed.

(** X8: positions of an Example Source of N examples.  A position outside
    [-N, N) raises IndexError; a negative position in range counts from the
    end; and a position in [0, N) gives what the lookup by the key at that
    position gives. *)
Theorem examples_source_positions (ID : string) (rng : Type)
    (examples : list (string * value)) (i : Z) :
  let n := Z.of_nat (length examples) in
  let source := ExamplesIterator examples in
  ((i < - n ∨ n ≤ i)%Z → getitem_int ID source i = Raise IndexError) ∧
  ((- n ≤ i < 0)%Z →
   getitem_int ID source i = getitem_int ID source (i + n)) ∧
  (∀ (k : string) (st : store rng),
     (0 ≤ i)%Z → map fst examples !! Z.to_nat i = Some k →
     getitem_str ID source k st = (getitem_int ID source i, st)).
Proof.
  intros n source. subst n source. simpl.
  unfold ExamplesIterator_getitem_int, ExamplesIterator_getitem_str.
  pose proof (length_map fst examples) as Hlen.
  split; [|split].
  - intros [Hi|Hi].
    + rewrite list_getitem_too_small; [done|]. rewrite Hlen. lia.
    + rewrite list_getitem_too_large; [done|]. rewrite Hlen. lia.
  - intros Hi. rewrite list_getitem_wraps, Hlen; [done|]. rewrite Hlen. lia.
  - intros k st Hi Hk. rewrite (list_getitem_in_range _ _ _ Hi Hk). simpl.
    assert (str_in k (map fst examples) = true) as ->; [|done].
    apply str_in_elem_of. by eapply list_elem_of_lookup_2.
Qed.

Lemma walk_negative (ID : string) (it : iterator) (rest : list iterator)
    (total i : Z) :
  sum_len (it :: rest) = Ok total → (i < 0)%Z →
  walk ID (it :: rest) i = getitem_int ID it i.
Proof.
  intros Hs Hi. simpl in *. destruct (len it) as [m|] eqn:Hm; [|done].
  simpl. pose proof (len_nonneg _ _ Hm).
  by destruct (Z.leb_spec m i); [lia|].
Qed.

(** X9: positions of a Concatenate view whose upstreams all have a length.
    A position inside the stretch of one upstream is delegated to that
    upstream with the lengths of the upstreams before it subtracted; a
    position at or past the total length evaluates to [None] without an
    exception; and a negative position is handed to the first upstream as
    it is, so it never reaches the end of the concatenation. *)
Theorem concatenate_positions (ID : string) (o : nat) (its : list iterator)
    (total : Z) :
  sum_len its = Ok total →
  let view := ConcatenateIterator o its in
  len view = Ok total ∧
  (∀ pre it post s n i,
     its = pre ++ it :: post → sum_len pre = Ok s → len it = Ok n →
     (s ≤ i < s + n)%Z →
     getitem_int ID view i = getitem_int ID it (i - s)) ∧
  (∀ i, (total ≤ i)%Z → getitem_int ID view i = Ok VNone) ∧
  (∀ it rest i, its = it :: rest → (i < 0)%Z →
                getitem_int ID view i = getitem_int ID it i).
Proof.
  intros Hs view. subst view. split; [by rewrite len_concatenate|].
  split; [|split].
  - intros pre it post s n i -> Hpre Hn Hi. rewrite getitem_int_concatenate.
    by apply (walk_owner _ _ _ _ s n).
  - intros i Hi. rewrite getitem_int_concatenate.
    by apply (walk_past_end _ _ total).
  - intros it rest i -> Hi. rewrite getitem_int_concatenate.
    by apply (walk_negative _ _ _ total).
Qed.

Lemma concatenate_positions_witness :
  let view := ConcatenateIterator 0
                [ExamplesIterator source_ab; ExamplesIterator source_c] in
  getitem_int "example_id" view (-1)
  = Ok (VDict [("x"%string, VInt 2); ("example_id"%string, VStr "b")]) ∧
  getitem_int "example_id" view 2
  = Ok (VDict [("x"%string, VInt 3); ("example_id"%string, VStr "c")]) ∧
  getitem_int "example_id" view 7 = Ok VNone.
Proof.
  intros view. subst view.
  destruct (concatenate_positions "example_id" 0
              [ExamplesIterator source_ab; ExamplesIterator source_c] 3
              eq_refl) as (_ & Hin & Hpast & Hneg).
  split; [|split].
  - by rewrite (Hneg _ _ (-1)%Z eq_refl).
  - by rewrite (Hin [ExamplesIterator source_ab] (ExamplesIterator source_c)
                  [] 2%Z 1%Z 2%Z eq_refl eq_refl eq_refl).
  - by rewrite Hpast.
Defined.

(** ** Slice selectors *)

Lemma count_up (a b st i : Z) :
  (0 < st → a < b → 0 ≤ i < (b - a - 1) / st + 1 → a ≤ a + i * st < b)%Z.
Proof.
  intros Hst Hab Hi.
  pose proof (Z.mul_div_le (b - a - 1) st Hst).
  assert (i * st ≤ st * ((b - a - 1) / st))%Z by nia. nia.
Qed.

Lemma count_down (a b st i : Z) :
  (st < 0 → b < a → 0 ≤ i < (a - b - 1) / (- st) + 1 →
   b < a + i * st ≤ a)%Z.
Proof.
  intros Hst Hab Hi.
  assert (0 < - st)%Z as Hpos by lia.
  pose proof (Z.mul_div_le (a - b - 1) (- st) Hpos).
  assert (i * (- st) ≤ (- st) * ((a - b - 1) / (- st)))%Z by nia. nia.
Qed.

Lemma progression_Forall (P : Z → Prop) (s0 st count : Z) :
  (∀ i, (0 ≤ i < count)%Z → P (s0 + i * st)%Z) →
  Forall P (map (λ i, (s0 + Z.of_nat i * st)%Z) (seq 0 (Z.to_nat count))).
Proof.
  intros HP. apply Forall_forall. intros p Hp. map_to_fmap.
  apply list_elem_of_fmap in Hp as (i & -> & Hi).
  apply elem_of_seq in Hi. apply HP. lia.
Qed.

Ltac split_comparisons :=
  repeat match goal with
         | |- context [(?x <? ?y)%Z] => destruct (Z.ltb_spec x y)
         | |- context [(?x <=? ?y)%Z] => destruct (Z.leb_spec x y)
         end.

Lemma slice_positions_range (n : Z) (start stop step : option Z) :
  (0 ≤ n)%Z → default 1%Z step ≠ 0%Z →
  ∃ s0 count,
    slice_positions n start stop step
    = Ok (map (λ i, (s0 + Z.of_nat i * default 1%Z step)%Z) (seq 0 count)) ∧
    ∀ i, (0 ≤ i < Z.of_nat count)%Z →
         (0 ≤ s0 + i * default 1%Z step < n)%Z.
Proof.
  intros Hn Hstep. unfold slice_positions. cbv zeta.
  destruct (Z.eqb_spec (default 1%Z step) 0) as [|_]; [done|].
  eexists _, _. split; [reflexivity|].
  generalize dependent (default 1%Z step). intros st Hst i.
  destruct (Z.ltb_spec st 0) as [Hneg|Hpos].
  - set (a := match start with Some _ => _ | None => _ end).
    set (b := match stop with Some _ => _ | None => _ end).
    assert (-1 ≤ a ≤ n - 1)%Z as Ha.
    { subst a. destruct start as [s|]; [|lia].
      split_comparisons; lia. }
    assert (-1 ≤ b ≤ n - 1)%Z as Hb.
    { subst b. destruct stop as [s|]; [|lia].
      split_comparisons; lia. }
    clearbody a b. destruct (Z.ltb_spec b a) as [Hlt|Hge]; [|simpl; lia].
    intros Hi. rewrite Z2Nat.id in Hi.
    + pose proof (count_down a b st i Hneg Hlt Hi). lia.
    + assert (0 < - st)%Z as Hp by lia.
      pose proof (Z.div_pos (a - b - 1) (- st)). lia.
  - set (a := match start with Some _ => _ | None => _ end).
    set (b := match stop with Some _ => _ | None => _ end).
    assert (0 ≤ a ≤ n)%Z as Ha.
    { subst a. destruct start as [s|]; [|lia].
      split_comparisons; lia. }
    assert (0 ≤ b ≤ n)%Z as Hb.
    { subst b. destruct stop as [s|]; [|lia].
      split_comparisons; lia. }
    clearbody a b. destruct (Z.ltb_spec a b) as [Hlt|Hge]; [|simpl; lia].
    intros Hi. rewrite Z2Nat.id in Hi.
    + assert (0 < st)%Z as Hp by lia.
      pose proof (count_up a b st i Hp Hlt Hi). lia.
    + assert (0 < st)%Z as Hp by lia.
      pose proof (Z.div_pos (b - a - 1) st). lia.
Qed.

Lemma arange_getitem (n p : Z) :
  (0 ≤ p < n)%Z → list_getitem (arange n) p = Ok p.
Proof.
  intros Hp. apply list_getitem_in_range; [lia|].
  rewrite arange_lookup by lia. f_equal. lia.
Qed.

Lemma arange_getitem_all (n : Z) (ps : list Z) :
  Forall (λ p, (0 ≤ p < n)%Z) ps → mapM (list_getitem (arange n)) ps = Ok ps.
Proof.
  intros Hps. apply mapM_result_Forall2.
  induction Hps as [|p ps Hp _ IH]; constructor; [|done].
  by apply arange_getitem.
Qed.

(** X10: slicing a view that has a length N.  A slice with step 0 raises
    ValueError.  Any other slice resolves without an exception, whatever
    its bounds: the positions picked start somewhere and advance by the
    step, and all of them lie in [0, N).  A plain [a:b] with
    0 <= a <= b <= N picks a, a+1, ..., b-1. *)
Theorem slice_selector_resolves (u : iterator) (n : Z) :
  len u = Ok n →
  (∀ start stop,
     SliceIterator_init (SelSlice start stop (Some 0%Z)) u
     = Raise ValueError) ∧
  (∀ start stop step,
     step ≠ Some 0%Z →
     ∃ s0 count,
       SliceIterator_init (SelSlice start stop step) u
       = Ok (SliceIterator
               (map (λ i, (s0 + Z.of_nat i * default 1%Z step)%Z)
                  (seq 0 count)) u) ∧
       ∀ i, (0 ≤ i < Z.of_nat count)%Z →
            (0 ≤ s0 + i * default 1%Z step < n)%Z) ∧
  (∀ a b,
     (0 ≤ a ≤ b ≤ n)%Z →
     SliceIterator_init (SelSlice (Some a) (Some b) None) u
     = Ok (SliceIterator
             (map (λ i, (a + Z.of_nat i)%Z) (seq 0 (Z.to_nat (b - a)))) u)).
Proof.
  intros Hlen. pose proof (len_nonneg _ _ Hlen) as Hn.
  unfold SliceIterator_init. rewrite Hlen. simpl.
  rewrite length_arange, Z2Nat.id by done. split; [done|]. split.
  - intros start stop step Hstep.
    destruct (slice_positions_range n start stop step Hn)
      as (s0 & count & -> & Hrange).
    { destruct step as [s|]; simpl; [congruence|lia]. }
    exists s0, count. split; [|done]. simpl.
    rewrite arange_getitem_all; [done|].
    rewrite <-(Nat2Z.id count). apply progression_Forall.
    intros i Hi. apply Hrange. lia.
  - intros a b Hab. unfold slice_positions. simpl.
    assert ((a <? 0)%Z = false) as -> by (apply Z.ltb_ge; lia).
    assert ((b <? 0)%Z = false) as -> by (apply Z.ltb_ge; lia).
    assert ((if (n <=? a)%Z then n else a) = a) as ->
      by (destruct (Z.leb_spec n a); lia).
    assert ((if (n <=? b)%Z then n else b) = b) as ->
      by (destruct (Z.leb_spec n b); lia).
    assert ((if (a <? b)%Z then ((b - a - 1) `div` 1 + 1)%Z else 0%Z)
            = (b - a)%Z) as ->.
    { destruct (Z.ltb_spec a b); [rewrite Z.div_1_r|]; lia. }
    assert (map (λ i, (a + Z.of_nat i * 1)%Z) (seq 0 (Z.to_nat (b - a)))
            = map (λ i, (a + Z.of_nat i)%Z) (seq 0 (Z.to_nat (b - a)))) as ->.
    { apply map_ext. intros i. lia. }
    simpl. rewrite arange_getitem_all; [done|].
    apply Forall_forall. intros p Hp. map_to_fmap.
    apply list_elem_of_fmap in Hp as (i & -> & Hi).
    apply elem_of_seq in Hi. lia.
Qed.

Lemma slice_selector_resolves_witness :
  let u := ExamplesIterator (source_ab ++ source_c) in
  SliceIterator_init (SelSlice (Some 1%Z) (Some 3%Z) None) u
  = Ok (SliceIterator [1; 2]%Z u) ∧
  SliceIterator_init (SelSlice None None (Some 0%Z)) u = Raise ValueError.
Proof.
  intros u.
  destruct (slice_selector_resolves u 3 eq_refl) as (Hzero & _ & Hab).
  split; [|apply Hzero]. by rewrite Hab.
Defined.









(** ** Reshuffling Shuffle *)

Lemma permuted_pass (ID : string) (u : iterator) (out : list value)
    (p : list Z) :
  (∀ (i : nat) (x : value),
     out !! i = Some x → getitem_int ID u (Z.of_nat i) = Ok x) →
  p ≡ₚ arange (Z.of_nat (length out)) →
  ∃ out', for_each (map (getitem_int ID u) p) (λ x, Ok [x]) = (out', None) ∧
          out' ≡ₚ out.
Proof.
  intros Hpos Hp.
  assert (Forall (λ idx, (0 ≤ idx < Z.of_nat (length out))%Z) p) as Hrange.
  { apply Forall_forall. intros x Hx. apply elem_of_arange. by rewrite <-Hp. }
  destruct (positions_yield ID u out p Hrange) as [out' Hall].
  exists out'. split; [by apply (for_each_positions ID u out)|].
  assert (out' = (λ idx, default VNone (out !! Z.to_nat idx)) <$> p) as ->.
  { clear -Hall. induction Hall as [|? ? ? ? [_ Hx] _ IH]; [done|].
    simpl. by rewrite Hx, IH. }
  rewrite Hp. unfold arange. map_to_fmap. rewrite <-list_fmap_compose.
  replace ((λ idx, default VNone (out !! Z.to_nat idx)) ∘ Z.of_nat <$>
           seq 0 (Z.to_nat (Z.of_nat (length out)))) with out; [done|].
  apply list_eq. intros i. rewrite list_lookup_fmap, Nat2Z.id.
  destruct (decide (i < length out)) as [Hi|Hi].
  - rewrite lookup_seq_lt by done. simpl. rewrite Nat2Z.id.
    by destruct (lookup_lt_is_Some_2 out i Hi) as [x ->].
  - rewrite lookup_seq_ge by lia. by rewrite lookup_ge_None_2 by lia.
Qed.

Section Reshuffle.
Context (ID : string) {rng : Type}.
Context (np_random_shuffle : rng → ndarray → ndarray * rng).
Context (np_random_shuffle_permutes :
           ∀ g a, (np_random_shuffle g a).1 ≡ₚ a).

(** X12: a reshuffling Shuffle view over an upstream whose pass, length
    and positions agree.  Its constructor draws no random numbers and
    stores the upstream positions in order.  As long as the stored array is
    a rearrangement of the upstream positions, a pass shuffles it once,
    yields every upstream example exactly once without an exception, and
    leaves a rearrangement of the upstream positions behind: so every
    later pass does the same.  Positions are refused with TypeError. *)
Theorem reshuffle_passes (u : iterator) (out : list value) (st : store rng) :
  yields ID u out →
  ∃ oid st0,
    ReShuffleIterator_init u st = (Ok (ReShuffleIterator oid u), st0) ∧
    random_state st0 = random_state st ∧
    get_permutation st0 oid = arange (Z.of_nat (length out)) ∧
    (∀ i, getitem_int ID (ReShuffleIterator oid u) i = Raise TypeError) ∧
    ∀ st1,
      get_permutation st1 oid ≡ₚ arange (Z.of_nat (length out)) →
      ∃ out' st2,
        iter ID np_random_shuffle (ReShuffleIterator oid u) st1
        = ((out', None), st2) ∧
        out' ≡ₚ out ∧
        get_permutation st2 oid ≡ₚ arange (Z.of_nat (length out)) ∧
        random_state st2
        = (np_random_shuffle (random_state st1)
             (get_permutation st1 oid)).2.
Proof.
  intros (Hlen & _ & Hpos). unfold ReShuffleIterator_init. rewrite Hlen.
  eexists _, _. split; [reflexivity|]. split; [done|]. split.
  { unfold get_permutation, set_permutation. simpl.
    by rewrite lookup_insert_eq. }
  split; [done|]. intros st1 Hst1. unfold iter. cbn [iterate].
  pose proof (np_random_shuffle_permutes (random_state st1)
                (get_permutation st1 (fresh (dom (permutations st))))) as Hp.
  destruct (np_random_shuffle _ _) as [p g]. simpl in Hp.
  rewrite Hst1 in Hp.
  destruct (permuted_pass ID u out p Hpos Hp) as (out' & -> & Hout).
  eexists _, _. split; [reflexivity|]. split; [done|]. split; [|done].
  unfold get_permutation, set_random_state, set_permutation. simpl.
  by rewrite lookup_insert_eq.
Qed.
End Reshuffle.

Lemma reshuffle_passes_witness :
  let u := ExamplesIterator source_ab in
  (∀ g a, (reversing_shuffle g a).1 ≡ₚ a) ∧
  yields "example_id" u source_ab_examples ∧
  ∃ oid st0,
    ReShuffleIterator_init u empty_store
    = (Ok (ReShuffleIterator oid u), st0) ∧
    get_permutation st0 oid = arange 2.
Proof.
  intros u. split; [exact reversing_shuffle_permutes|].
  split; [exact source_ab_yields|].
  destruct (reshuffle_passes "example_id" reversing_shuffle
              reversing_shuffle_permutes u source_ab_examples empty_store
              source_ab_yields) as (oid & st0 & Hinit & _ & Hperm & _).
  exists oid, st0. split; [exact Hinit|exact Hperm].
Defined.

(** ** Concatenate: which upstream answers a lookup by key *)

Lemma ExamplesIterator_getitem_str_not_KeyError (ID : string)
    (examples : list (string * value)) (k : string) :
  ExamplesIterator_getitem_str ID examples k ≠ Raise KeyError.
Proof.
  unfold ExamplesIterator_getitem_str, ExamplesIterator_fetch, dict_getitem.
  destruct (str_in k (map fst examples)) eqn:Hk; [|done].
  apply str_in_elem_of in Hk.
  destruct (dict_get examples k) as [body|] eqn:Hget.
  - simpl. by destruct body.
  - by apply dict_get_None_not_key in Hget.
Qed.

Lemma chain_lookup_examples_first (ID : string) {rng : Type}
    (examples : list (string * value)) (rest : list iterator) (k : string)
    (st : store rng) :
  chain_lookup ID (ExamplesIterator examples :: rest) k st
  = (ExamplesIterator_getitem_str ID examples k, st).
Proof.
  simpl.
  pose proof (ExamplesIterator_getitem_str_not_KeyError ID examples k) as Hne.
  destruct (ExamplesIterator_getitem_str ID examples k) as [x|[]]; done.
Qed.

(** X13: a Concatenate view whose first upstream is an Example Source
    answers a lookup by key as that first upstream does, on the first
    lookup (view as built, upstream keys [kss] without a repeat) and on
    every later one: a key of the first upstream gives its example, and any
    other string raises IndexError, the keys of the later upstreams
    included, although [keys()] lists them.  The first lookup leaves the
    key cache and the chain map set. *)
Theorem concatenate_lookup_first_upstream (ID : string) (rng : Type)
    (o : nat) (examples : list (string * value)) (rest : list iterator)
    (st st' : store rng) (kss : list (list string)) :
  Forall (λ i, o ∉ concat_oids i) rest →
  get_attrs st o = concat_attrs_init →
  upstream_keys (ExamplesIterator examples :: rest) st = (Ok kss, st') →
  NoDup (concat kss) →
  let view := ConcatenateIterator o (ExamplesIterator examples :: rest) in
  let ready := set_attrs st' o (ConcatAttrs (Some (concat kss)) true) in
  keys view ready = (Ok (concat kss), ready) ∧
  (∀ k, getitem_str ID view k st
        = (ExamplesIterator_getitem_str ID examples k, ready)) ∧
  (∀ k (st2 : store rng), _chain_map (get_attrs st2 o) = true →
            getitem_str ID view k st2
            = (ExamplesIterator_getitem_str ID examples k, st2)) ∧
  (∀ k, k ∉ map fst examples →
        ExamplesIterator_getitem_str ID examples k = Raise IndexError).
Proof.
  intros Hrest Hfresh Hup Hnd view ready. subst view ready.
  assert (Forall (λ i, o ∉ concat_oids i) (ExamplesIterator examples :: rest))
    as Hits by (constructor; [apply not_elem_of_nil|done]).
  pose proof (keys_first_call _ _ _ _ _ Hits Hfresh Hup) as Hkeys.
  rewrite (proj2 (all_distinct_NoDup _) Hnd) in Hkeys.
  split; [|split; [|split]].
  - by rewrite keys_concatenate, get_attrs_set_eq.
  - intros k. rewrite getitem_str_concatenate, Hfresh.
    unfold concat_attrs_init. cbn [_chain_map]. rewrite Hkeys.
    rewrite get_attrs_set_eq, set_attrs_set_eq. cbn [_keys].
    apply chain_lookup_examples_first.
  - intros k st2 Hcm. rewrite getitem_str_concatenate, Hcm.
    apply chain_lookup_examples_first.
  - intros k. apply ExamplesIterator_getitem_str_missing.
Qed.

Lemma concatenate_lookup_first_upstream_witness :
  let view := ConcatenateIterator 0
                [ExamplesIterator source_ab; ExamplesIterator source_c] in
  (keys view empty_store).1 = Ok ["a"; "b"; "c"]%string ∧
  (getitem_str "example_id" view "c" empty_store).1 = Raise IndexError.
Proof.
  intros view. subst view. split; [reflexivity|].
  destruct (concatenate_lookup_first_upstream "example_id" nat 0 source_ab
              [ExamplesIterator source_c] empty_store empty_store
              [["a"; "b"]; ["c"]]%string) as (_ & Hfirst & _ & _).
  - repeat constructor. apply not_elem_of_nil.
  - reflexivity.
  - reflexivity.
  - apply (bool_decide_unpack _). vm_compute. exact I.
  - by rewrite Hfirst.
Defined.

(** ** Concatenate: the key cache after a failure *)

Lemma extend_keys_fails {rng : Type} (o : nat) (pre post : list iterator)
    (bad : iterator) (st st1 st2 : store rng) (kss : list (list string))
    (acc : list string) (cm : bool) (e : exn) :
  Forall (λ i, o ∉ concat_oids i) pre → o ∉ concat_oids bad →
  upstream_keys pre st = (Ok kss, st1) → keys bad st1 = (Raise e, st2) →
  extend_keys o (pre ++ bad :: post)
    (set_attrs st o (ConcatAttrs (Some acc) cm))
  = (Raise e, set_attrs st2 o (ConcatAttrs (Some (acc ++ concat kss)) cm)).
Proof.
  intros Hpre Hbad. revert st kss acc.
  induction Hpre as [|i rest Hi _ IH]; intros st kss acc Hup Hkeys;
    simpl in Hup.
  - injection Hup as <- <-. simpl. rewrite keys_frame by done.
    by rewrite Hkeys, app_nil_r.
  - simpl. rewrite keys_frame by done.
    destruct (keys i st) as [[ks|e'] st']; [|done].
    destruct (upstream_keys rest st') as [[kss'|e'] st''] eqn:Hrest; [|done].
    simpl in Hup. injection Hup as <- <-.
    rewrite get_attrs_set_eq, set_attrs_set_eq. simpl.
    rewrite (IH _ _ _ Hrest Hkeys). by rewrite app_assoc.
Qed.

(** X14: when [keys()] of one upstream raises, the first [keys()] of a
    Concatenate view as built raises the same exception, and so does the
    first lookup by key; but [_keys] is assigned by then, so the next
    [keys()] returns, without an exception, only the keys of the upstreams
    before the one that failed. *)
Theorem concatenate_keys_after_failure (ID : string) (rng : Type) (o : nat)
    (pre post : list iterator) (bad : iterator) (st st1 st2 : store rng)
    (kss : list (list string)) (e : exn) :
  Forall (λ i, o ∉ concat_oids i) pre → o ∉ concat_oids bad →
  get_attrs st o = concat_attrs_init →
  upstream_keys pre st = (Ok kss, st1) → keys bad st1 = (Raise e, st2) →
  let view := ConcatenateIterator o (pre ++ bad :: post) in
  let left := set_attrs st2 o (ConcatAttrs (Some (concat kss)) false) in
  keys view st = (Raise e, left) ∧
  (∀ k, getitem_str ID view k st = (Raise e, left)) ∧
  keys view left = (Ok (concat kss), left).
Proof.
  intros Hpre Hbad Hfresh Hup Hkeys view left. subst view left.
  assert (keys (ConcatenateIterator o (pre ++ bad :: post)) st
          = (Raise e,
             set_attrs st2 o (ConcatAttrs (Some (concat kss)) false)))
    as Hfirst.
  { rewrite keys_concatenate, Hfresh. simpl.
    by rewrite (extend_keys_fails o pre post bad st st1 st2 kss [] false e). }
  split; [done|]. split.
  - intros k. rewrite getitem_str_concatenate, Hfresh.
    unfold concat_attrs_init. cbn [_chain_map]. by rewrite Hfirst.
  - by rewrite keys_concatenate, get_attrs_set_eq.
Qed.

Lemma concatenate_keys_after_failure_witness :
  let view := ConcatenateIterator 0
                [ExamplesIterator source_ab;
                 FilterIterator (λ _, Ok true) (ExamplesIterator source_c)] in
  let '(r1, st1) := keys view empty_store in
  let '(r2, _) := keys view st1 in
  r1 = Raise NotImplementedError ∧ r2 = Ok ["a"; "b"]%string.
Proof.
  intros view. subst view.
  destruct (concatenate_keys_after_failure "example_id" nat 0
              [ExamplesIterator source_ab] []
              (FilterIterator (λ _, Ok true) (ExamplesIterator source_c))
              empty_store empty_store empty_store [["a"; "b"]]%string
              NotImplementedError) as (H1 & _ & H2).
  - repeat constructor. apply not_elem_of_nil.
  - apply not_elem_of_nil.
  - reflexivity.
  - reflexivity.
  - reflexivity.
  - simpl app in H1, H2. rewrite H1, H2. by split.
Defined.

(** ** Stacked Map and Filter views *)

Lemma for_each_ext (xs : list (result value))
    (b1 b2 : value → result (list value)) :
  (∀ x, b1 x = b2 x) → for_each xs b1 = for_each xs b2.
Proof.
  intros Hb. induction xs as [|x xs IH]; [done|]. simpl. rewrite IH.
  destruct x as [v|e]; simpl; [by rewrite Hb|done].
Qed.

Lemma iterate_ext (ID : string) {rng : Type}
    (sh : rng → ndarray → ndarray * rng) (u : iterator) :
  ∀ (b1 b2 : value → result (list value)) (st : store rng),
    (∀ x, b1 x = b2 x) → iterate ID sh u b1 st = iterate ID sh u b2 st.
Proof.
  induction u as [ex|f i IHi|p i IHi|o i IHi|s i IHi|f i IHi|o its IH|]
    using iterator_nested_ind; intros b1 b2 st Hb.
  - cbn [iterate]. by rewrite (for_each_ext _ b1 b2 Hb).
  - cbn [iterate]. apply IHi. intros x.
    destruct (f x); simpl; [apply Hb|done].
  - cbn [iterate]. by rewrite (for_each_ext _ b1 b2 Hb).
  - cbn [iterate]. destruct (sh _ _). by rewrite (for_each_ext _ b1 b2 Hb).
  - cbn [iterate]. by rewrite (for_each_ext _ b1 b2 Hb).
  - cbn [iterate]. apply IHi. intros x.
    destruct (f x) as [[]|]; simpl; [apply Hb|done|done].
  - rewrite !iterate_concatenate. revert st.
    induction IH as [|i rest Hi _ IHrest]; intros st; [done|].
    cbn [chain_iterate]. rewrite (Hi b1 b2 st Hb).
    destruct (iterate ID sh i b2 st) as [[out [e|]] st1]; [done|].
    by rewrite IHrest.
  - done.
Qed.

(** X15: two Map views stacked on an upstream are the one Map view with
    the composed function: same length, same keys, same answers to
    positions and to keys, and for every consumer the same pass and the
    same store after it. *)
Theorem map_views_compose (ID : string) (rng : Type)
    (np_random_shuffle : rng → ndarray → ndarray * rng)
    (f g : value → result value) (u : iterator) :
  let two := MapIterator g (MapIterator f u) in
  let one := MapIterator (λ x, f x ≫= g) u in
  len two = len one ∧
  (∀ st : store rng, keys two st = keys one st) ∧
  (∀ i, getitem_int ID two i = getitem_int ID one i) ∧
  (∀ k (st : store rng), getitem_str ID two k st = getitem_str ID one k st) ∧
  (∀ body (st : store rng),
     iterate ID np_random_shuffle two body st
     = iterate ID np_random_shuffle one body st).
Proof.
  intros two one. subst two one. split; [done|]. split; [done|].
  split; [|split].
  - intros i. cbn [getitem_int]. by destruct (getitem_int ID u i).
  - intros k st. cbn [getitem_str].
    by destruct (getitem_str ID u k st) as [[x|e] st'].
  - intros body st. cbn [iterate]. apply iterate_ext.
    intros x. by destruct (f x).
Qed.

(** X16: two Filter views stacked on an upstream are the one Filter view
    whose predicate asks the inner predicate first and the outer one only
    for the examples the inner one keeps: same answers to keys, and for
    every consumer the same pass and the same store after it. *)
Theorem filter_views_compose (ID : string) (rng : Type)
    (np_random_shuffle : rng → ndarray → ndarray * rng)
    (p q : value → result bool) (u : iterator) :
  let two := FilterIterator q (FilterIterator p u) in
  let one := FilterIterator
               (λ x, keep ← p x; if keep : bool then q x else Ok false) u in
  (∀ k (st : store rng), getitem_str ID two k st = getitem_str ID one k st) ∧
  (∀ body (st : store rng),
     iterate ID np_random_shuffle two body st
     = iterate ID np_random_shuffle one body st).
Proof.
  intros two one. subst two one. split.
  - intros k st. cbn [getitem_str].
    destruct (getitem_str ID u k st) as [[x|e] st']; [|done]. simpl.
    by destruct (p x) as [[]|].
  - intros body st. cbn [iterate]. apply iterate_ext.
    intros x. destruct (p x) as [[]|]; simpl; [|done|done].
    by destruct (q x) as [[]|].
Qed.

(** ** Filtering by id *)

Lemma Forall2_filter {A B} (R : A → B → Prop) (f : A → bool) (g : B → bool)
    (l : list A) (k : list B) :
  Forall2 R l k → (∀ x y, R x y → f x = g y) →
  Forall2 R (List.filter f l) (List.filter g k).
Proof.
  intros Hall Hfg. induction Hall as [|x y l k Hxy _ IH]; [done|].
  simpl. rewrite (Hfg x y Hxy). destruct (g y); [by constructor|done].
Qed.

Lemma IdFilter_call_example (ID : string) (ids : list string) (k : string)
    (body : list (string * value)) :
  IdFilter_call ID ids (VDict (dict_set body ID (VStr k)))
  = Ok (str_in k ids).
Proof.
  unfold IdFilter_call. simpl. unfold dict_getitem.
  by rewrite dict_get_set_eq.
Qed.

(** X17: a Filter view with an [IdFilter] over an Example Source with
    unique ids whose bodies are mappings.  One pass yields, in stored
    order and without an exception, exactly the examples whose id is in
    the id list; a lookup by a key of the source gives the example if the
    key is in the id list and raises IndexError if it is not. *)
Theorem id_filter_selects (ID : string) (rng : Type)
    (np_random_shuffle : rng → ndarray → ndarray * rng)
    (ids : list string) (examples : list (string * value))
    (out : list value) (st : store rng) :
  NoDup (map fst examples) →
  Forall2 (λ kv x, (∃ body, kv.2 = VDict body) ∧ example_of ID kv = Ok x)
    examples out →
  let view := FilterIterator (IdFilter_call ID ids)
                (ExamplesIterator examples) in
  (∃ sel,
     iter ID np_random_shuffle view st = ((sel, None), st) ∧
     Forall2 (λ kv x, (∃ body, kv.2 = VDict body) ∧ example_of ID kv = Ok x)
       (List.filter (λ kv, str_in kv.1 ids) examples) sel) ∧
  (∀ k body,
     (k, VDict body) ∈ examples →
     getitem_str ID view k st
     = (if str_in k ids then example_of ID (k, VDict body)
        else Raise IndexError, st)).
Proof.
  intros Hnd Hall view. subst view.
  destruct (examples_yields ID examples out Hnd Hall) as (_ & Hiter & _).
  set (keep := λ x, match value_getitem x ID with
                    | Ok eid => value_in_ids eid ids
                    | Raise _ => false
                    end).
  assert (∀ kv x, (∃ body, kv.2 = VDict body) ∧ example_of ID kv = Ok x →
                  IdFilter_call ID ids x = Ok (keep x)
                  ∧ str_in kv.1 ids = keep x) as Hkeep.
  { intros [k v] x [[body Hbody] Hx]. simpl in Hbody. subst v.
    unfold example_of, deepcopy in Hx. simpl in Hx. injection Hx as <-.
    unfold keep. rewrite IdFilter_call_example. simpl.
    unfold dict_getitem. by rewrite dict_get_set_eq. }
  split.
  - exists (List.filter keep out). split.
    + apply (filter_pass ID np_random_shuffle _ keep _ st out None st);
        [apply Hiter|].
      intros x Hx. apply list_elem_of_lookup_1 in Hx as [i Hi].
      destruct (Forall2_lookup_r _ _ _ _ _ Hall Hi) as (kv & _ & Hkv).
      by destruct (Hkeep kv x Hkv).
    + apply Forall2_filter; [done|]. intros kv x Hkv.
      by destruct (Hkeep kv x Hkv).
  - intros k body Hin. cbn [getitem_str].
    rewrite (ExamplesIterator_getitem_str_dict ID examples k body Hnd Hin).
    simpl. rewrite IdFilter_call_example. simpl.
    by destruct (str_in k ids).
Qed.

Lemma id_filter_selects_witness :
  let view := FilterIterator (IdFilter_call "example_id" ["b"; "z"]%string)
                (ExamplesIterator source_ab) in
  NoDup (map fst source_ab) ∧
  getitem_str "example_id" view "a" empty_store
  = (Raise IndexError, empty_store) ∧
  getitem_str "example_id" view "b" empty_store
  = (Ok (VDict [("x"%string, VInt 2); ("example_id"%string, VStr "b")]),
     empty_store).
Proof.
  intros view. subst view.
  assert (NoDup (map fst source_ab)) as Hnd
    by (apply (bool_decide_unpack _); by vm_compute).
  split; [exact Hnd|].
  destruct (id_filter_selects "example_id" nat reversing_shuffle
              ["b"; "z"]%string source_ab source_ab_examples empty_store Hnd)
    as [_ Hget].
  { repeat constructor; by eexists. }
  split.
  - rewrite (Hget "a"%string [("x"%string, VInt 1)]); [done|].
    repeat constructor.
  - rewrite (Hget "b"%string [("x"%string, VInt 2)]); [done|].
    repeat constructor.
Defined.

(** ** The alignment reader *)

Section Reader.
Context (ID ALI NAF : string).
Context (import : option string → result (list (string * value))).

Local Abbreviation call := (AlignmentReader_call ID ALI NAF import).

Lemma AlignmentReader_init_table (path : option string)
    (table : list (string * value)) :
  AlignmentReader_init ID path (Some table) None
  = Ok (MkAlignmentReader path (Some table) (λ x, value_getitem x ID)).
Proof.
  unfold AlignmentReader_init.
  by rewrite (bool_decide_eq_false_2 (Some table = None)), andb_false_r.
Qed.

Lemma AlignmentReader_call_hit (path : option string)
    (table d : list (string * value)) (k : string) (ali : value) (n : Z) :
  dict_get d ID = Some (VStr k) → dict_get table k = Some ali →
  value_len ali = Ok n →
  (call (MkAlignmentReader path (Some table) (λ x, value_getitem x ID))
     (VDict d)).1
  = Ok (VDict (dict_set (dict_set d ALI ali) NAF (VInt n))).
Proof.
  intros Hid Hali Hn.
  unfold AlignmentReader_call, AlignmentReader_attach. simpl.
  unfold dict_getitem. rewrite Hid. simpl. unfold dict_getitem.
  rewrite Hali. simpl. rewrite dict_get_set_eq. simpl. by rewrite Hn.
Qed.

Lemma AlignmentReader_call_miss (path : option string)
    (table d : list (string * value)) (k : string) :
  dict_get d ID = Some (VStr k) → dict_get table k = None →
  (call (MkAlignmentReader path (Some table) (λ x, value_getitem x ID))
     (VDict d)).1
  = Ok (VDict d).
Proof.
  intros Hid Hali.
  unfold AlignmentReader_call, AlignmentReader_attach. simpl.
  unfold dict_getitem. rewrite Hid. simpl. unfold dict_getitem.
  by rewrite Hali.
Qed.

(** X18: an [AlignmentReader] built with a table of alignments and the
    default id mapping, called on an example mapping.  The reader is left
    as it was and nothing is read from a path.  If the example has an id
    with an entry in the table, the entry is stored under the alignment
    field and its length under the frame-count field, the other fields
    staying as they are; an entry without a length raises TypeError.  If
    the id has no entry the example is returned unchanged.  If the example
    has no id field the KeyError leaves the call: the warning text looks
    the id up again. *)
Theorem alignment_reader_call (path : option string)
    (table : list (string * value)) (self : AlignmentReader)
    (d : list (string * value)) :
  AlignmentReader_init ID path (Some table) None = Ok self →
  (call self (VDict d)).2 = self ∧
  (∀ k ali n,
     dict_get d ID = Some (VStr k) → dict_get table k = Some ali →
     value_len ali = Ok n →
     (call self (VDict d)).1
     = Ok (VDict (dict_set (dict_set d ALI ali) NAF (VInt n)))) ∧
  (∀ k ali e,
     dict_get d ID = Some (VStr k) → dict_get table k = Some ali →
     value_len ali = Raise e →
     (call self (VDict d)).1 = Raise TypeError) ∧
  (∀ k,
     dict_get d ID = Some (VStr k) → dict_get table k = None →
     (call self (VDict d)).1 = Ok (VDict d)) ∧
  (dict_get d ID = None → (call self (VDict d)).1 = Raise KeyError).
Proof.
  rewrite AlignmentReader_init_table. intros [= <-].
  split; [done|]. split; [by apply AlignmentReader_call_hit|].
  split; [|split; [by apply AlignmentReader_call_miss|]];
    unfold AlignmentReader_call, AlignmentReader_attach; simpl;
    unfold dict_getitem.
  - intros k ali e -> Hali He. simpl. unfold dict_getitem. rewrite Hali.
    simpl. rewrite dict_get_set_eq. simpl. rewrite He. simpl.
    by destruct ali; simpl in He; try discriminate; injection He as <-.
  - by intros ->.
Qed.

(** X19: an [AlignmentReader] built with a path only reads the table on
    its first call and keeps it: the call answers as a reader built with
    that table answers, every later call finds the table in place, and a
    reader that holds a table never reads from the path.  If reading
    raises, the call raises the same and the reader is left without a
    table. *)
Theorem alignment_reader_loads_once (path : string)
    (fn : option (value → result value)) (self : AlignmentReader)
    (example : value) :
  AlignmentReader_init ID (Some path) None fn = Ok self →
  (∀ table,
     import (Some path) = Ok table →
     ∃ loaded,
       AlignmentReader_init ID (Some path) (Some table) fn = Ok loaded ∧
       call self example = call loaded example ∧
       (call self example).2 = loaded ∧
       ∀ other x,
         AlignmentReader_call ID ALI NAF other loaded x = call loaded x ∧
         (call loaded x).2 = loaded) ∧
  (∀ e, import (Some path) = Raise e → call self example = (Raise e, self)).
Proof.
  unfold AlignmentReader_init. simpl. intros [= <-]. split.
  - intros table Himp. eexists. split; [reflexivity|].
    unfold AlignmentReader_call. simpl. by rewrite Himp.
  - intros e Himp. unfold AlignmentReader_call. simpl. by rewrite Himp.
Qed.
End Reader.

Lemma alignment_reader_call_witness :
  let self := MkAlignmentReader None (Some alignments_a)
                (λ x, value_getitem x "example_id") in
  AlignmentReader_init "example_id" None (Some alignments_a) None = Ok self ∧
  (AlignmentReader_call "example_id" "alignment" "num_alignment_frames"
     (λ _, Raise ValueError) self
     (VDict [("x"%string, VInt 1); ("example_id"%string, VStr "a")])).1
  = Ok (VDict [("x"%string, VInt 1); ("example_id"%string, VStr "a");
               ("alignment"%string, VList [VInt 7; VInt 7; VInt 9]);
               ("num_alignment_frames"%string, VInt 3)]).
Proof.
  intros self. split; [reflexivity|].
  destruct (alignment_reader_call "example_id" "alignment"
              "num_alignment_frames" (λ _, Raise ValueError) None
              alignments_a self
              [("x"%string, VInt 1); ("example_id"%string, VStr "a")]
              eq_refl) as (_ & Hhit & _).
  by rewrite (Hhit "a"%string (VList [VInt 7; VInt 7; VInt 9]) 3%Z).
Defined.

Lemma alignment_reader_loads_once_witness :
  let self := MkAlignmentReader (Some "ali"%string) None
                (λ x, value_getitem x "example_id") in
  let import := λ _ : option string, Ok alignments_a in
  AlignmentReader_init "example_id" (Some "ali"%string) None None = Ok self ∧
  (AlignmentReader_call "example_id" "alignment" "num_alignment_frames"
     import self (VDict [("example_id"%string, VStr "a")])).2
  = MkAlignmentReader (Some "ali"%string) (Some alignments_a)
      (λ x, value_getitem x "example_id").
Proof.
  intros self import. split; [reflexivity|].
  destruct (alignment_reader_loads_once "example_id" "alignment"
              "num_alignment_frames" import "ali" None self
              (VDict [("example_id"%string, VStr "a")]) eq_refl)
    as [Hload _].
  destruct (Hload alignments_a eq_refl) as (loaded & Hinit & _ & Hstate & _).
  rewrite Hstate. by injection Hinit as <-.
Defined.

(** ** The alignment reader followed by the alignment check *)

Lemma remove_examples_without_alignment_frame (ALI NS OBS : string)
    (d : list (string * value)) (k : string) (v : value) :
  k ≠ ALI → k ≠ NS →
  remove_examples_without_alignment ALI NS OBS (dict_set d k v)
  = remove_examples_without_alignment ALI NS OBS d.
Proof.
  intros Hali Hns. unfold remove_examples_without_alignment, dict_getitem.
  by rewrite !dict_get_set_ne.
Qed.

(** X20: an example mapping with an id that went through an
    [AlignmentReader] (built with a table, default id mapping) and then
    through the alignment check, the three field names being distinct.
    With an entry of length [n] in the table, the check answers as it does
    on the example with that entry as its alignment: the frame count the
    reader added plays no part; and without a sample count the example is
    kept exactly when [n] is not 0.  Without an entry in the table and
    without an alignment of its own the example comes back unchanged and
    is dropped. *)
Theorem alignment_reader_then_check (ID ALI NAF NS OBS : string)
    (import : option string → result (list (string * value)))
    (path : option string) (table : list (string * value))
    (self : AlignmentReader) (d : list (string * value)) (k : string) :
  NAF ≠ ALI → NAF ≠ NS → ALI ≠ NS →
  AlignmentReader_init ID path (Some table) None = Ok self →
  dict_get d ID = Some (VStr k) →
  let check := remove_examples_without_alignment ALI NS OBS in
  let read := (AlignmentReader_call ID ALI NAF import self (VDict d)).1 in
  (∀ ali n,
     dict_get table k = Some ali → value_len ali = Ok n →
     ∃ d', read = Ok (VDict d') ∧
           dict_get d' ALI = Some ali ∧
           dict_get d' NAF = Some (VInt n) ∧
           check d' = check (dict_set d ALI ali) ∧
           (dict_get d NS = None → check d' = Ok (negb (n =? 0)%Z))) ∧
  (dict_get table k = None → dict_get d ALI = None →
   read = Ok (VDict d) ∧ check d = Ok false).
Proof.
  intros Hna Hnn Han. rewrite AlignmentReader_init_table. intros [= <-] Hid.
  intros check read. subst check read. split.
  - intros ali n Hali Hn. eexists. split; [|split; [|split; [|split]]].
    + by apply (AlignmentReader_call_hit ID ALI NAF import path table d k).
    + by rewrite dict_get_set_ne, dict_get_set_eq.
    + by rewrite dict_get_set_eq.
    + by apply remove_examples_without_alignment_frame.
    + intros Hns. rewrite remove_examples_without_alignment_frame by done.
      unfold remove_examples_without_alignment.
      rewrite dict_get_set_eq. simpl. rewrite Hn. simpl.
      destruct (n =? 0)%Z; [done|]. simpl.
      by rewrite dict_get_set_ne, Hns.
  - intros Hali Hnone. split.
    + by apply (AlignmentReader_call_miss ID ALI NAF import path table d k).
    + unfold remove_examples_without_alignment. by rewrite Hnone.
Qed.

Lemma alignment_reader_then_check_witness :
  let self := MkAlignmentReader None (Some alignments_a)
                (λ x, value_getitem x "example_id") in
  let read :=
    AlignmentReader_call "example_id" "alignment" "num_alignment_frames"
      (λ _, Raise ValueError) self in
  (∃ d', (read (VDict [("example_id"%string, VStr "a")])).1 = Ok (VDict d') ∧
         remove_examples_without_alignment "alignment" "num_samples"
           "observation" d' = Ok true) ∧
  (read (VDict [("example_id"%string, VStr "b")])).1
  = Ok (VDict [("example_id"%string, VStr "b")]).
Proof.
  intros self read. subst read. split.
  - destruct (alignment_reader_then_check "example_id" "alignment"
                "num_alignment_frames" "num_samples" "observation"
                (λ _, Raise ValueError) None alignments_a self
                [("example_id"%string, VStr "a")] "a")
      as [Hhit _]; [done|done|done|reflexivity|reflexivity|].
    destruct (Hhit (VList [VInt 7; VInt 7; VInt 9]) 3%Z eq_refl eq_refl)
      as (d' & Hread & _ & _ & _ & Hcheck).
    exists d'. split; [exact Hread|]. by apply Hcheck.
  - destruct (alignment_reader_then_check "example_id" "alignment"
                "num_alignment_frames" "num_samples" "observation"
                (λ _, Raise ValueError) None alignments_a self
                [("example_id"%string, VStr "b")] "b")
      as [_ Hmiss]; [done|done|done|reflexivity|reflexivity|].
    by destruct (Hmiss eq_refl eq_refl).
Defined.

(** ** [recursive_transform] *)

Section value_induction.
Context (P : value → Prop).
Context (HNone : P VNone) (HBool : ∀ b, P (VBool b)) (HInt : ∀ z, P (VInt z)).
Context (HStr : ∀ s, P (VStr s)).
Context (HList : ∀ items, Forall P items → P (VList items)).
Context (HDict : ∀ items, Forall (λ kv, P kv.2) items → P (VDict items)).

Fixpoint value_nested_ind (v : value) : P v :=
  match v with
  | VNone => HNone
  | VBool b => HBool b
  | VInt z => HInt z
  | VStr s => HStr s
  | VList items =>
      HList items
        ((fix go (items : list value) : Forall P items :=
            match items with
            | [] => Forall_nil_2 P
            | x :: rest => Forall_cons_2 P x rest (value_nested_ind x) (go rest)
            end) items)
  | VDict items =>
      HDict items
        ((fix go (items : list (string * value))
            : Forall (λ kv, P kv.2) items :=
            match items with
            | [] => Forall_nil_2 _
            | kv :: rest =>
                Forall_cons_2 (λ kv, P kv.2) kv rest
                  (value_nested_ind kv.2) (go rest)
            end) items)
  end.
End value_induction.

Section Transform.
Context (np_array : list value → result value).

Local Abbreviation rt := (recursive_transform np_array).

Lemma recursive_transform_list (f : value → result value)
    (items : list value) (l2a : bool) :
  rt f (VList items) l2a
  = l ← mapM (λ x, rt f x l2a) items;
    if l2a then np_array l else Ok (VList l).
Proof.
  cbn [recursive_transform].
  match goal with
  | |- ?go items ≫= _ = _ =>
      assert (go items = mapM (λ x, rt f x l2a) items) as ->; [|done]
  end.
  induction items as [|x rest IH]; [done|]. simpl. by rewrite IH.
Qed.

Lemma recursive_transform_dict (f : value → result value)
    (items : list (string * value)) (l2a : bool) :
  rt f (VDict items) l2a
  = d ← mapM (λ kv, v ← rt f kv.2 l2a; Ok (kv.1, v)) items; Ok (VDict d).
Proof.
  cbn [recursive_transform].
  match goal with
  | |- ?go items ≫= _ = _ =>
      assert (go items = mapM (λ kv, v ← rt f kv.2 l2a; Ok (kv.1, v)) items)
        as ->; [|done]
  end.
  induction items as [|[k x] rest IH]; [done|]. simpl. rewrite IH.
  by destruct (rt f x l2a).
Qed.
End Transform.

Lemma leaves_list (items : list value) :
  leaves (VList items) = concat (map leaves items).
Proof.
  cbn [leaves]. induction items as [|x rest IH]; [done|]. simpl.
  by rewrite IH.
Qed.

Lemma leaves_dict (items : list (string * value)) :
  leaves (VDict items) = concat (map (λ kv, leaves kv.2) items).
Proof.
  cbn [leaves]. induction items as [|[k x] rest IH]; [done|]. simpl.
  by rewrite IH.
Qed.

Lemma mapM_result_ext {A B} (f g : A → result B) (l : list A) :
  Forall (λ x, f x = g x) l → mapM f l = mapM g l.
Proof. induction 1 as [|x l Hx _ IH]; [done|]. simpl. by rewrite Hx, IH. Qed.

Lemma mapM_result_id {A} (f : A → result A) (l : list A) :
  Forall (λ x, f x = Ok x) l → mapM f l = Ok l.
Proof. induction 1 as [|x l Hx _ IH]; [done|]. simpl. by rewrite Hx, IH. Qed.

Lemma mapM_result_compose {A B C} (f : A → result B) (g : B → result C)
    (h : A → result C) (l : list A) (k : list B) :
  Forall (λ x, ∀ y, f x = Ok y → g y = h x) l →
  mapM f l = Ok k → mapM g k = mapM h l.
Proof.
  intros Hall. revert k. induction Hall as [|x l Hx _ IH]; intros k; simpl.
  - by intros [= <-].
  - destruct (f x) as [y|] eqn:Hy; [|done]. simpl.
    destruct (mapM f l) as [k'|] eqn:Hk; [|done]. simpl. intros [= <-].
    simpl. by rewrite (Hx y eq_refl), (IH k' eq_refl).
Qed.

(** X21: [recursive_transform] without stacking.  With a function that
    returns its argument the call returns the value it was given; and a
    second call on the result of a successful first call is the single
    call with the function that applies the first function to a leaf and
    transforms what comes back with the second. *)
Theorem recursive_transform_laws (np_array : list value → result value)
    (v : value) :
  recursive_transform np_array (λ x, Ok x) v false = Ok v ∧
  ∀ f g w,
    recursive_transform np_array f v false = Ok w →
    recursive_transform np_array g w false
    = recursive_transform np_array
        (λ x, y ← f x; recursive_transform np_array g y false) v false.
Proof.
  induction v as [|b|z|s|items IH|items IH] using value_nested_ind;
    try (split; [done|]; intros f g w Hw; simpl in *; by rewrite Hw).
  - split.
    + rewrite recursive_transform_list, mapM_result_id; [done|].
      eapply Forall_impl; [exact IH|]. by intros x [Hx _].
    + intros f g w. rewrite !recursive_transform_list.
      destruct (mapM _ items) as [l|] eqn:Hl; [|done]. simpl. intros [= <-].
      rewrite recursive_transform_list.
      match goal with
      | |- mapM ?a l ≫= _ = mapM ?b items ≫= _ =>
          assert (mapM a l = mapM b items) as ->; [|done]
      end.
      eapply mapM_result_compose; [|exact Hl].
      eapply Forall_impl; [exact IH|]. intros x [_ Hx] y Hy. by apply Hx.
  - split.
    + rewrite recursive_transform_dict, mapM_result_id; [done|].
      eapply Forall_impl; [exact IH|]. intros [k x] [Hx _]. simpl in *.
      by rewrite Hx.
    + intros f g w. rewrite !recursive_transform_dict.
      destruct (mapM _ items) as [d|] eqn:Hd; [|done]. simpl. intros [= <-].
      rewrite recursive_transform_dict.
      match goal with
      | |- mapM ?a d ≫= _ = mapM ?b items ≫= _ =>
          assert (mapM a d = mapM b items) as ->; [|done]
      end.
      eapply mapM_result_compose; [|exact Hd].
      eapply Forall_impl; [exact IH|]. intros [k x] [_ Hx] [k' y]. simpl in *.
      destruct (recursive_transform np_array f x false) as [y'|] eqn:Hy;
        [|done].
      simpl. intros [= <- <-]. simpl. by rewrite (Hx f g y' Hy).
Qed.

Lemma mapM_result_app {A B} (f : A → result B) (l1 l2 : list A) :
  mapM f (l1 ++ l2) = k1 ← mapM f l1; k2 ← mapM f l2; Ok (k1 ++ k2).
Proof.
  induction l1 as [|x l1 IH]; simpl.
  - by destruct (mapM f l2).
  - destruct (f x) as [y|]; [|done]. simpl. rewrite IH.
    destruct (mapM f l1) as [k1|]; [|done]. simpl.
    by destruct (mapM f l2).
Qed.

Lemma reaches_items {A} (proj : A → value) (mk : A → value → A)
    (f g : value → result value) (items : list A) :
  (∀ a v, proj (mk a v) = v) →
  Forall (λ a, reaches f (g (proj a)) (proj a)) items →
  match mapM (λ a, v ← g (proj a); Ok (mk a v)) items with
  | Ok l => ∃ ws, mapM f (concat (map (λ a, leaves (proj a)) items)) = Ok ws ∧
                  concat (map (λ a, leaves (proj a)) l)
                  = concat (map leaves ws)
  | Raise e => mapM f (concat (map (λ a, leaves (proj a)) items)) = Raise e
  end.
Proof.
  intros Hmk. induction 1 as [|a items Ha _ IH]; simpl.
  - by exists [].
  - rewrite mapM_result_app. unfold reaches in Ha.
    destruct (g (proj a)) as [w|e]; simpl.
    + destruct Ha as (ws & -> & Hws). simpl.
      destruct (mapM _ items) as [l|e]; simpl.
      * destruct IH as (ws' & -> & Hws'). simpl. exists (ws ++ ws').
        split; [done|]. rewrite Hmk, Hws, Hws'.
        by rewrite map_app, concat_app.
      * by rewrite IH.
    + by rewrite Ha.
Qed.

(** X22: a call of [recursive_transform] without stacking applies the
    function to the leaf values in order.  It raises exactly when the
    function raises on some leaf, and then what the function raised on the
    first such leaf; otherwise the leaves of the result are, in order,
    those of the values the function returned. *)
Theorem recursive_transform_leaves (np_array : list value → result value)
    (f : value → result value) (v : value) :
  reaches f (recursive_transform np_array f v false) v.
Proof.
  induction v as [|b|z|s|items IH|items IH] using value_nested_ind;
    try (unfold reaches; simpl;
         match goal with
         | |- context [f ?x] =>
             destruct (f x) as [w|e]; simpl; [|done];
             exists [w]; simpl; by rewrite app_nil_r
         end).
  - unfold reaches. rewrite recursive_transform_list, leaves_list.
    pose proof (reaches_items (λ x, x) (λ _ v, v) f
                  (λ x, recursive_transform np_array f x false) items
                  (λ _ _, eq_refl) IH) as Hitems.
    rewrite (mapM_result_ext _ (λ x, recursive_transform np_array f x false))
      in Hitems.
    + destruct (mapM _ items) as [l|e]; [|done].
      unfold mbind, result_bind. cbv beta iota. by rewrite leaves_list.
    + apply Forall_forall. intros x _. by destruct (recursive_transform _ _ _ _).
  - unfold reaches. rewrite recursive_transform_dict, leaves_dict.
    pose proof (reaches_items snd (λ kv v, (kv.1, v)) f
                  (λ x, recursive_transform np_array f x false) items
                  (λ _ _, eq_refl) IH) as Hitems.
    destruct (mapM _ items) as [d|e]; [|done].
    unfold mbind, result_bind. cbv beta iota. by rewrite leaves_dict.
Qed.

(** ** The alignment check in sample counts *)

Lemma value_len_nonneg (x : value) (m : Z) : value_len x = Ok m → (0 ≤ m)%Z.
Proof. destruct x; simpl; intros [= <-]; lia. Qed.

Lemma frames_of_samples (m n : Z) :
  (m = (n - 240) / 160 ↔ 160 * m + 240 ≤ n < 160 * m + 400)%Z.
Proof.
  pose proof (Z.div_mod (n - 240) 160).
  pose proof (Z.mod_pos_bound (n - 240) 160). lia.
Qed.

Lemma low_rate_frames (m f : Z) :
  (m = (f + (- f) mod 3) / 3 ↔ 3 * m - 2 ≤ f ≤ 3 * m)%Z.
Proof.
  pose proof (Z.div_mod (- f) 3). pose proof (Z.mod_pos_bound (- f) 3).
  pose proof (Z.div_mod (f + (- f) mod 3) 3).
  pose proof (Z.mod_pos_bound (f + (- f) mod 3) 3).
  assert ((f + (- f) mod 3) mod 3 = 0)%Z as Hz.
  { rewrite Z.add_mod_idemp_r, Z.add_opp_diag_r by lia. done. }
  lia.
Qed.

(** X23: the alignment check in terms of sample counts.  For an example
    whose alignment has [m] entries, [m] not 0, and whose sample count is
    the integer [n] (given directly or per modality, within 64 bits as
    numpy's remainder needs it), the check answers
    without an exception, and accepts exactly when [n] lies in
    [160 m + 240, 160 m + 400) or in [480 m - 80, 480 m + 400); so an
    example with fewer than 400 samples is always dropped. *)
Theorem alignment_check_sample_ranges (ALI NS OBS : string)
    (example : list (string * value)) (ali : value) (m n : Z) :
  dict_get example ALI = Some ali → value_len ali = Ok m → m ≠ 0%Z →
  dict_get example NS = Some (VInt n)
  ∨ (∃ d, dict_get example NS = Some (VDict d)
          ∧ dict_get d OBS = Some (VInt n)) →
  (- 2 ^ 63 ≤ n < 2 ^ 63)%Z →
  remove_examples_without_alignment ALI NS OBS example
  = Ok (bool_decide ((160 * m + 240 ≤ n < 160 * m + 400)%Z
                     ∨ (480 * m - 80 ≤ n < 480 * m + 400)%Z)) ∧
  ((n < 400)%Z →
   remove_examples_without_alignment ALI NS OBS example = Ok false).
Proof.
  intros Hali Hm Hm0 Hn _.
  pose proof (value_len_nonneg _ _ Hm) as Hpos.
  rewrite (remove_examples_without_alignment_counted _ _ _ _ _ _ _
             Hali Hm Hm0 Hn). cbv zeta.
  pose proof (frames_of_samples m n) as Hf.
  pose proof (low_rate_frames m ((n - 240) / 160)) as Hl.
  pose proof (frames_of_samples (3 * m - 2) n).
  pose proof (Z.div_mod (n - 240) 160).
  pose proof (Z.mod_pos_bound (n - 240) 160).
  split.
  - f_equal. apply bool_decide_ext. rewrite Hf, Hl. lia.
  - intros Hn400. rewrite bool_decide_eq_false_2; [done|].
    rewrite Hf, Hl. lia.
Qed.

Lemma alignment_check_sample_ranges_witness :
  remove_examples_without_alignment "alignment" "num_samples" "observation"
    [("alignment"%string, VList (replicate 10 (VInt 1)));
     ("num_samples"%string, VInt 1840)]
  = Ok true.
Proof.
  destruct (alignment_check_sample_ranges "alignment" "num_samples"
              "observation"
              [("alignment"%string, VList (replicate 10 (VInt 1)));
               ("num_samples"%string, VInt 1840)]
              (VList (replicate 10 (VInt 1))) 10 1840 eq_refl eq_refl)
    as [Heq _]; [done|by left|lia|].
  by rewrite Heq.
Defined.

(** ** Which views have a length *)

Lemma len_sized (u : iterator) :
  if sized u then ∃ n, len u = Ok n ∧ (0 ≤ n)%Z
  else len u = Raise NotImplementedError.
Proof.
  induction u as [ex|f i IHi|p i IHi|o i IHi|s i IHi|f i IHi|o its IH|]
    using iterator_nested_ind; try done.
  - simpl. eexists. split; [done|lia].
  - simpl. eexists. split; [done|lia].
  - rewrite len_concatenate. cbn [sized].
    induction IH as [|i rest Hi _ IHrest]; simpl.
    + exists 0%Z. split; [done|lia].
    + destruct (sized i); simpl.
      * destruct Hi as (n & -> & Hn). simpl.
        match type of IHrest with
        | if ?b then _ else _ => destruct b
        end.
        -- destruct IHrest as (s & -> & Hs). simpl. eexists.
           split; [done|lia].
        -- by rewrite IHrest.
      * by rewrite Hi.
Qed.

(** X24: which views have a length.  [len] returns a number that is not
    negative, or raises NotImplementedError; it raises exactly for a Filter
    or a Mix and for the views that take their length from one (Map,
    Shuffle, Concatenate over it), and then neither a Slice nor a Shuffle
    view can be built on the view: both constructors raise the same. *)
Theorem views_with_length (rng : Type)
    (np_random_shuffle : rng → ndarray → ndarray * rng) (u : iterator) :
  (sized u = true → ∃ n, len u = Ok n ∧ (0 ≤ n)%Z) ∧
  (sized u = false →
   len u = Raise NotImplementedError ∧
   (∀ sel, SliceIterator_init sel u = Raise NotImplementedError) ∧
   (∀ reshuffle (st : store rng),
      shuffle np_random_shuffle u reshuffle st
      = (Raise NotImplementedError, st))).
Proof.
  pose proof (len_sized u) as Hlen. split; intros Hs; rewrite Hs in Hlen.
  - done.
  - split; [done|]. split.
    + intros sel. unfold SliceIterator_init. by rewrite Hlen.
    + intros [] st; unfold shuffle, ReShuffleIterator_init,
        ShuffleIterator_init; by rewrite Hlen.
Qed.

Lemma views_with_length_witness :
  let view := MapIterator Ok
                (FilterIterator (λ _, Ok true) (ExamplesIterator source_ab)) in
  len view = Raise NotImplementedError ∧
  SliceIterator_init (SelSlice None None None) view
  = Raise NotImplementedError.
Proof.
  intros view.
  destruct (views_with_length nat reversing_shuffle view) as [_ Hno].
  destruct (Hno eq_refl) as (Hlen & Hslice & _).
  split; [exact Hlen|apply Hslice].
Defined.

(** ** What the operations do to the store *)

Section StoreEffects.
Context (ID : string) {rng : Type}.
Context (np_random_shuffle : rng → ndarray → ndarray * rng).
Implicit Types (st : store rng).

Lemma same_randomness_refl st : same_randomness st st.
Proof. done. Qed.

Lemma same_randomness_trans st1 st2 st3 :
  same_randomness st1 st2 → same_randomness st2 st3 →
  same_randomness st1 st3.
Proof. intros [? ?] [? ?]. split; congruence. Qed.

Lemma same_randomness_set_attrs st st' o a :
  same_randomness st st' → same_randomness st (set_attrs st' o a).
Proof. by intros [? ?]. Qed.

Lemma keys_same_randomness (u : iterator) :
  ∀ st, same_randomness st (keys u st).2.
Proof.
  induction u as [ex|f i IHi|p i IHi|o i IHi|s i IHi|f i IHi|o its IH|]
    using iterator_nested_ind; intros st; try done; try apply IHi.
  - cbn [keys]. specialize (IHi st). by destruct (keys i st).
  - rewrite keys_concatenate. destruct (_keys (get_attrs st o)); [done|].
    assert (∀ st0, same_randomness st0 (extend_keys o its st0).2) as Hext.
    { induction IH as [|i rest Hi _ IHrest]; intros st0; [done|].
      cbn [extend_keys]. specialize (Hi st0).
      destruct (keys i st0) as [[ks|e] st1]; [|done].
      eapply same_randomness_trans; [|apply IHrest].
      by apply same_randomness_set_attrs. }
    match goal with
    | |- context [extend_keys o its ?s] =>
        specialize (Hext s); destruct (extend_keys o its s) as [[[]|e] st1]
    end; simpl in Hext.
    + cbv zeta. by destruct (all_distinct _).
    + done.
Qed.

Lemma getitem_str_same_randomness (u : iterator) :
  ∀ k st, same_randomness st (getitem_str ID u k st).2.
Proof.
  induction u as [ex|f i IHi|p i IHi|o i IHi|s i IHi|f i IHi|o its IH|]
    using iterator_nested_ind; intros k st; try done; try apply IHi.
  - cbn [getitem_str]. specialize (IHi k st).
    by destruct (getitem_str ID i k st).
  - cbn [getitem_str].
    pose proof (keys_same_randomness (SliceIterator s i) st) as Hk.
    destruct (keys (SliceIterator s i) st) as [[ks|e] st1]; [|done].
    destruct (str_in k ks); [|done].
    eapply same_randomness_trans; [exact Hk|apply IHi].
  - cbn [getitem_str]. specialize (IHi k st).
    by destruct (getitem_str ID i k st).
  - assert (∀ st0, same_randomness st0 (chain_lookup ID its k st0).2)
      as Hchain.
    { induction IH as [|i rest Hi _ IHrest]; intros st0; [done|].
      cbn [chain_lookup]. specialize (Hi k st0).
      destruct (getitem_str ID i k st0) as [[x|[]] st1]; try done.
      eapply same_randomness_trans; [exact Hi|apply IHrest]. }
    rewrite getitem_str_concatenate.
    destruct (_chain_map (get_attrs st o)); [apply Hchain|].
    pose proof (keys_same_randomness (ConcatenateIterator o its) st) as Hk.
    destruct (keys (ConcatenateIterator o its) st) as [[ks|e] st1]; [|done].
    eapply same_randomness_trans; [|apply Hchain].
    by apply same_randomness_set_attrs.
Qed.

Lemma iterate_concatenations (u : iterator) :
  ∀ body st,
    concatenations (iterate ID np_random_shuffle u body st).2
    = concatenations st.
Proof.
  induction u as [ex|f i IHi|p i IHi|o i IHi|s i IHi|f i IHi|o its IH|]
    using iterator_nested_ind; intros body st; try done; try apply IHi.
  - cbn [iterate]. by destruct (np_random_shuffle _ _).
  - rewrite iterate_concatenate. revert st.
    induction IH as [|i rest Hi _ IHrest]; intros st; [done|].
    cbn [chain_iterate]. specialize (Hi body st).
    destruct (iterate ID np_random_shuffle i body st) as [[out [e|]] st1];
      [done|].
    specialize (IHrest st1).
    destruct (chain_iterate ID np_random_shuffle rest body st1)
      as [[outs e] st2].
    simpl in *. congruence.
Qed.

Lemma iterate_no_reshuffle (u : iterator) :
  reshuffles u = false →
  ∀ body st, (iterate ID np_random_shuffle u body st).2 = st.
Proof.
  induction u as [ex|f i IHi|p i IHi|o i IHi|s i IHi|f i IHi|o its IH|]
    using iterator_nested_ind; intros Hno body st; try done;
    try (by apply IHi).
  rewrite iterate_concatenate. cbn [reshuffles] in Hno. revert st.
  induction IH as [|i rest Hi _ IHrest]; intros st; [done|].
  apply orb_false_elim in Hno as [Hi' Hrest].
  cbn [chain_iterate]. specialize (Hi Hi' body st).
  destruct (iterate ID np_random_shuffle i body st) as [[out [e|]] st1];
    [done|].
  specialize (IHrest Hrest st1).
  destruct (chain_iterate ID np_random_shuffle rest body st1)
    as [[outs e] st2].
  simpl in *. congruence.
Qed.

(** X25: what the operations do to the store, for every view.  [keys()]
    and a lookup by key draw no random numbers and leave the stored
    permutations alone; a pass, whatever its consumer and however it ends,
    never asks for keys, so the key caches stay as they are; and a pass
    that runs no reshuffling Shuffle leaves the whole store as it is. *)
Theorem store_effects (u : iterator) :
  (∀ st, same_randomness st (keys u st).2) ∧
  (∀ k st, same_randomness st (getitem_str ID u k st).2) ∧
  (∀ body st,
     concatenations (iterate ID np_random_shuffle u body st).2
     = concatenations st) ∧
  (reshuffles u = false →
   ∀ body st, (iterate ID np_random_shuffle u body st).2 = st).
Proof.
  split; [apply keys_same_randomness|].
  split; [apply getitem_str_same_randomness|].
  split; [apply iterate_concatenations|apply iterate_no_reshuffle].
Qed.
End StoreEffects.

(** ** Example Source: a body that is no mapping *)

Lemma ExamplesIterator_getitem_str_not_dict (ID : string)
    (examples : list (string * value)) (k : string) (v : value) :
  NoDup (map fst examples) → (k, v) ∈ examples → (∀ body, v ≠ VDict body) →
  ExamplesIterator_getitem_str ID examples k = Raise TypeError.
Proof.
  intros Hnd Hin Hv. unfold ExamplesIterator_getitem_str.
  assert (str_in k (map fst examples) = true) as ->.
  { apply str_in_elem_of. apply (list_elem_of_fmap_2 fst _ _ Hin). }
  unfold ExamplesIterator_fetch, dict_getitem.
  rewrite (dict_get_elem_of _ _ _ Hnd Hin). simpl.
  destruct v; try done. by destruct (Hv items).
Qed.

Lemma for_each_examples_stops (ID : string)
    (examples pre post : list (string * value)) (k : string) (v : value)
    (outs : list value) :
  NoDup (map fst examples) →
  Forall2 (λ kv x, (∃ body, kv.2 = VDict body) ∧ example_of ID kv = Ok x)
    pre outs →
  (∀ body, v ≠ VDict body) →
  (∀ kv, kv ∈ pre ++ [(k, v)] → kv ∈ examples) →
  for_each (map (ExamplesIterator_getitem_str ID examples)
              (map fst (pre ++ (k, v) :: post))) (λ x, Ok [x])
  = (outs, Some TypeError).
Proof.
  intros Hnd Hall Hv.
  induction Hall as [|[k' v'] x pre outs [[body Hbody] Hx] _ IH]; intros Hin.
  - cbn [app map fst]. rewrite for_each_cons.
    rewrite (ExamplesIterator_getitem_str_not_dict ID examples k v); try done.
    apply Hin. apply elem_of_cons. by left.
  - simpl in Hbody. subst v'. cbn [app map fst]. rewrite for_each_cons.
    rewrite (ExamplesIterator_getitem_str_dict ID examples k' body Hnd).
    + unfold example_of, deepcopy in Hx. simpl in Hx. injection Hx as <-.
      simpl. rewrite IH; [done|]. intros kv Hkv. apply Hin.
      apply elem_of_cons. by right.
    + apply Hin. apply elem_of_cons. by left.
Qed.

(** X26: an Example Source with unique ids in which the body stored under
    one id is no mapping.  The lookup of that id and the position of that
    entry raise TypeError, as the id cannot be stored in the copy; and a
    pass yields the examples of the entries before it, when these are
    mappings, and ends there with TypeError, the store untouched. *)
Theorem example_source_bad_body (ID : string) (rng : Type)
    (np_random_shuffle : rng → ndarray → ndarray * rng)
    (pre post : list (string * value)) (k : string) (v : value)
    (out : list value) (st : store rng) :
  let examples := pre ++ (k, v) :: post in
  NoDup (map fst examples) → (∀ body, v ≠ VDict body) →
  Forall2 (λ kv x, (∃ body, kv.2 = VDict body) ∧ example_of ID kv = Ok x)
    pre out →
  getitem_str ID (ExamplesIterator examples) k st = (Raise TypeError, st) ∧
  getitem_int ID (ExamplesIterator examples) (Z.of_nat (length pre))
  = Raise TypeError ∧
  iter ID np_random_shuffle (ExamplesIterator examples) st
  = ((out, Some TypeError), st).
Proof.
  intros examples Hnd Hv Hall.
  assert ((k, v) ∈ examples) as Hin.
  { apply elem_of_app. right. apply elem_of_cons. by left. }
  pose proof (ExamplesIterator_getitem_str_not_dict ID examples k v Hnd Hin Hv)
    as Hget.
  split; [|split].
  - simpl. by rewrite Hget.
  - simpl. unfold ExamplesIterator_getitem_int.
    rewrite (list_getitem_in_range _ _ k); [|lia|].
    + simpl. unfold ExamplesIterator_getitem_str in Hget.
      assert (str_in k (map fst examples) = true) as Hk.
      { apply str_in_elem_of. apply (list_elem_of_fmap_2 fst _ _ Hin). }
      by rewrite Hk in Hget.
    + rewrite Nat2Z.id. unfold examples. map_to_fmap.
      rewrite fmap_app, lookup_app_r; rewrite length_fmap; [|done].
      by rewrite Nat.sub_diag.
  - unfold iter. cbn [iterate]. f_equal.
    apply for_each_examples_stops; try done.
    intros kv Hkv. unfold examples. apply elem_of_app in Hkv as [Hkv|Hkv].
    + apply elem_of_app. by left.
    + apply elem_of_app. right. apply elem_of_cons. left.
      by apply list_elem_of_singleton in Hkv.
Qed.

Lemma example_source_bad_body_witness :
  iter "example_id" reversing_shuffle
    (ExamplesIterator (source_ab ++ [("c"%string, VList [])])) empty_store
  = ((source_ab_examples, Some TypeError), empty_store).
Proof.
  apply (example_source_bad_body "example_id" nat reversing_shuffle
           source_ab [] "c" (VList []) source_ab_examples empty_store).
  - apply (bool_decide_unpack _). by vm_compute.
  - done.
  - repeat constructor; by eexists.
Defined.

(** ** Concatenate: a pass that ends early *)

(** X27: a pass over a Concatenate view runs the upstream passes in order
    and stops with the first one that ends with an exception: it has then
    yielded everything the upstreams before yielded and what the failing
    upstream yielded before it stopped, it ends with the same exception
    and the later upstreams are not started. *)
Theorem concatenate_pass_stops (ID : string) (rng : Type)
    (np_random_shuffle : rng → ndarray → ndarray * rng) (o : nat)
    (pre post : list iterator) (bad : iterator) (outs : list (list value))
    (out_b : list value) (e : exn) (st st' : store rng) :
  Forall2 (yields ID) pre outs →
  iter ID np_random_shuffle bad st = ((out_b, Some e), st') →
  ∀ post',
    iter ID np_random_shuffle (ConcatenateIterator o (pre ++ bad :: post)) st
    = ((concat outs ++ out_b, Some e), st') ∧
    iter ID np_random_shuffle (ConcatenateIterator o (pre ++ bad :: post')) st
    = iter ID np_random_shuffle (ConcatenateIterator o (pre ++ bad :: post))
        st.
Proof.
  intros Hpre Hbad.
  assert (∀ rest,
            iter ID np_random_shuffle
              (ConcatenateIterator o (pre ++ bad :: rest)) st
            = ((concat outs ++ out_b, Some e), st')) as Hstop.
  { intros rest. unfold iter in *. rewrite iterate_concatenate.
    induction Hpre as [|i out pre outs (_ & Hiter & _) _ IH].
    - simpl. by rewrite Hbad.
    - cbn [app chain_iterate]. specialize (Hiter rng np_random_shuffle st).
      unfold iter in Hiter. rewrite Hiter, IH. simpl.
      by rewrite app_assoc. }
  intros post'. by rewrite !Hstop.
Qed.

Lemma concatenate_pass_stops_witness :
  iter "example_id" reversing_shuffle
    (ConcatenateIterator 0
       [ExamplesIterator source_ab; MixIterator; ExamplesIterator source_c])
    empty_store
  = ((source_ab_examples, Some NotImplementedError), empty_store).
Proof.
  assert (Forall2 (yields "example_id") [ExamplesIterator source_ab]
            [source_ab_examples]) as Hpre
    by (constructor; [exact source_ab_yields|constructor]).
  exact (proj1 (concatenate_pass_stops "example_id" nat reversing_shuffle 0
                  [ExamplesIterator source_ab] [ExamplesIterator source_c]
                  MixIterator [source_ab_examples] [] NotImplementedError
                  empty_store empty_store Hpre eq_refl [])).
Defined.

(** ** Views stacked on views *)

Lemma for_each_bind {A} (g : A → result value) (f : value → result value)
    (l : list A) (body : value → result (list value)) :
  for_each (map (λ i, g i ≫= f) l) body
  = for_each (map g l) (λ x, f x ≫= body).
Proof.
  induction l as [|i l IH]; [done|].
  cbn [map]. rewrite !for_each_cons, IH. by destruct (g i).
Qed.

Lemma list_getitem_Forall2 {A B} (R : A → B → Prop) (l : list A)
    (k : list B) (i : Z) :
  Forall2 R l k →
  match list_getitem l i, list_getitem k i with
  | Ok x, Ok y => R x y
  | Raise e, Raise e' => e = e'
  | _, _ => False
  end.
Proof.
  intros Hall. unfold list_getitem. rewrite (Forall2_length _ _ _ Hall).
  destruct (_ <? 0)%Z; [done|].
  destruct (l !! _) as [x|] eqn:Hx.
  - by destruct (Forall2_lookup_l _ _ _ _ _ Hall Hx) as (y & -> & Hy).
  - apply lookup_ge_None_1 in Hx. rewrite (Forall2_length _ _ _ Hall) in Hx.
    by rewrite (lookup_ge_None_2 _ _ Hx).
Qed.

(** X28: a slice of a slice is a slice of the upstream.  A Slice view
    built by the constructor on a Slice view answers positions, and runs
    its pass for every consumer, as the one Slice view on the upstream
    whose positions are the inner positions picked by the outer ones; both
    have the same length. *)
Theorem slice_of_slice (ID : string) (rng : Type)
    (np_random_shuffle : rng → ndarray → ndarray * rng) (sel : selector)
    (s1 : list Z) (u v : iterator) :
  SliceIterator_init sel (SliceIterator s1 u) = Ok v →
  ∃ s2 s12,
    v = SliceIterator s2 (SliceIterator s1 u) ∧
    mapM (list_getitem s1) s2 = Ok s12 ∧
    len v = len (SliceIterator s12 u) ∧
    (∀ i, getitem_int ID v i = getitem_int ID (SliceIterator s12 u) i) ∧
    (∀ body (st : store rng),
       iterate ID np_random_shuffle v body st
       = iterate ID np_random_shuffle (SliceIterator s12 u) body st).
Proof.
  unfold SliceIterator_init. simpl.
  destruct (ndarray_getitem _ sel) as [s2|e] eqn:Hsel; [|done].
  simpl. intros [= <-].
  pose proof (ndarray_getitem_in_range _ _ _ Hsel) as Hrange.
  assert (∃ s12, Forall2 (λ p q, list_getitem s1 p = Ok q) s2 s12)
    as [s12 Hall].
  { clear Hsel. induction Hrange as [|p s2 Hp _ [s12 IH]]; [by exists []|].
    destruct (lookup_lt_is_Some_2 s1 (Z.to_nat p)) as [q Hq]; [lia|].
    exists (q :: s12). constructor; [|done].
    apply list_getitem_in_range; [lia|done]. }
  exists s2, s12. split; [done|].
  split; [by apply mapM_result_Forall2|]. split; [|split].
  - simpl. by rewrite (Forall2_length _ _ _ Hall).
  - intros i. cbn [getitem_int].
    pose proof (list_getitem_Forall2 _ s2 s12 i Hall) as Hi.
    destruct (list_getitem s2 i) as [p|e], (list_getitem s12 i) as [q|e'];
      try done; simpl.
    + by rewrite Hi.
    + by rewrite Hi.
  - intros body st. cbn [iterate]. f_equal. clear Hsel Hrange.
    induction Hall as [|p q s2 s12 Hpq _ IH]; [done|].
    cbn [map]. rewrite !for_each_cons, IH. cbn [getitem_int].
    by rewrite Hpq.
Qed.

Lemma slice_of_slice_witness :
  let u := ExamplesIterator (source_ab ++ source_c) in
  ∃ v, SliceIterator_init (SelSlice None None (Some (-1)%Z))
         (SliceIterator [1; 2]%Z u) = Ok v ∧
       getitem_int "example_id" v 0 = getitem_int "example_id" u 2.
Proof.
  intros u. eexists. split; [reflexivity|].
  destruct (slice_of_slice "example_id" nat reversing_shuffle
              (SelSlice None None (Some (-1)%Z)) [1; 2]%Z u _ eq_refl)
    as (s2 & s12 & Hv & Hs12 & _ & Hpos & _).
  injection Hv as <-. injection Hs12 as <-. by rewrite Hpos.
Defined.

(** X29: mapping commutes with selecting by position.  A Slice view or a
    static Shuffle view on a Map view behaves as the Map view on the Slice
    or Shuffle view of the upstream: same length, same answers to
    positions, and for every consumer the same pass and the same store
    after it; either way the function is applied to the selected examples
    only, in the order of the positions.  For the Shuffle view the keys and
    the lookups by key agree as well. *)
Theorem map_commutes_with_positions (ID : string) (rng : Type)
    (np_random_shuffle : rng → ndarray → ndarray * rng)
    (f : value → result value) (positions : list Z) (u : iterator) :
  (let outer := SliceIterator positions (MapIterator f u) in
   let inner := MapIterator f (SliceIterator positions u) in
   len outer = len inner ∧
   (∀ i, getitem_int ID outer i = getitem_int ID inner i) ∧
   (∀ body (st : store rng),
      iterate ID np_random_shuffle outer body st
      = iterate ID np_random_shuffle inner body st)) ∧
  (let outer := ShuffleIterator positions (MapIterator f u) in
   let inner := MapIterator f (ShuffleIterator positions u) in
   len outer = len inner ∧
   (∀ st : store rng, keys outer st = keys inner st) ∧
   (∀ i, getitem_int ID outer i = getitem_int ID inner i) ∧
   (∀ k (st : store rng),
      getitem_str ID outer k st = getitem_str ID inner k st) ∧
   (∀ body (st : store rng),
      iterate ID np_random_shuffle outer body st
      = iterate ID np_random_shuffle inner body st)).
Proof.
  assert (∀ i, (idx ← list_getitem positions i;
                example ← getitem_int ID u idx; f example)
               = (example ← (idx ← list_getitem positions i;
                             getitem_int ID u idx); f example)) as Hpos.
  { intros i. by destruct (list_getitem positions i). }
  split; cbv zeta.
  - split; [done|]. split; [exact Hpos|].
    intros body st. cbn [iterate getitem_int]. f_equal.
    apply (for_each_bind (getitem_int ID u) f).
  - split; [done|]. split; [done|]. split; [exact Hpos|]. split; [done|].
    intros body st. cbn [iterate getitem_int]. f_equal.
    apply (for_each_bind (getitem_int ID u) f).
Qed.

Lemma sum_len_app (its1 its2 : list iterator) :
  sum_len (its1 ++ its2)
  = n1 ← sum_len its1; n2 ← sum_len its2; Ok (n1 + n2)%Z.
Proof.
  induction its1 as [|it rest IH]; simpl.
  - by destruct (sum_len its2).
  - destruct (len it) as [m|]; [|done]. simpl. rewrite IH.
    destruct (sum_len rest) as [n1|]; [|done]. simpl.
    destruct (sum_len its2) as [n2|]; [|done]. simpl. f_equal. lia.
Qed.

Lemma walk_app (ID : string) (its1 its2 : list iterator) (n i : Z) :
  sum_len its1 = Ok n → (0 ≤ i)%Z ∨ its1 ≠ [] →
  walk ID (its1 ++ its2) i
  = if (n <=? i)%Z then walk ID its2 (i - n) else walk ID its1 i.
Proof.
  revert n i. induction its1 as [|it rest IH]; intros n i; simpl.
  - intros [= <-] [Hi|?]; [|done]. rewrite Z.sub_0_r.
    by destruct (Z.leb_spec 0 i); [|lia].
  - destruct (len it) as [m|] eqn:Hm; [|done]. simpl.
    destruct (sum_len rest) as [n'|] eqn:Hrest; [|done]. simpl.
    intros [= <-] _. pose proof (len_nonneg _ _ Hm).
    pose proof (sum_len_nonneg _ _ Hrest).
    destruct (Z.leb_spec m i).
    + rewrite (IH n' (i - m)%Z eq_refl) by (left; lia).
      destruct (Z.leb_spec n' (i - m)), (Z.leb_spec (m + n') i); try lia;
        [f_equal; lia|done].
    + by destruct (Z.leb_spec (m + n') i); [lia|].
Qed.

Lemma chain_iterate_app (ID : string) {rng : Type}
    (sh : rng → ndarray → ndarray * rng) (its1 its2 : list iterator)
    (body : value → result (list value)) (st : store rng) :
  chain_iterate ID sh (its1 ++ its2) body st
  = let '((out, e), st1) := chain_iterate ID sh its1 body st in
    match e with
    | Some _ => ((out, e), st1)
    | None =>
        let '((outs, e), st2) := chain_iterate ID sh its2 body st1 in
        ((out ++ outs, e), st2)
    end.
Proof.
  revert st. induction its1 as [|it rest IH]; intros st.
  - simpl. by destruct (chain_iterate ID sh its2 body st) as [[outs e] st2].
  - cbn [app chain_iterate].
    destruct (iterate ID sh it body st) as [[out [e|]] st1]; [done|].
    rewrite IH.
    destruct (chain_iterate ID sh rest body st1) as [[out1 [e1|]] st2];
      [done|].
    destruct (chain_iterate ID sh its2 body st2) as [[out2 e2] st3].
    by rewrite app_assoc.
Qed.

(** X30: a Concatenate view inside a Concatenate view can be flattened.
    The view over a Concatenate of [its1] followed by [its2] has the length
    of the view over [its1 ++ its2] and, for every consumer, the same pass
    and the same store after it; when the views of [its1] all have a
    length, a position gets the same answer from both, past the end
    included, unless it is negative and [its1] is empty: then the nested
    view answers [None] and the flat one asks the first view of [its2]. *)
Theorem concatenate_flattens (ID : string) (rng : Type)
    (np_random_shuffle : rng → ndarray → ndarray * rng) (o1 o2 o3 : nat)
    (its1 its2 : list iterator) :
  let nested := ConcatenateIterator o1 (ConcatenateIterator o2 its1 :: its2) in
  let flat := ConcatenateIterator o3 (its1 ++ its2) in
  len nested = len flat ∧
  (∀ body (st : store rng),
     iterate ID np_random_shuffle nested body st
     = iterate ID np_random_shuffle flat body st) ∧
  (∀ n i, sum_len its1 = Ok n → (0 ≤ i)%Z ∨ its1 ≠ [] →
          getitem_int ID nested i = getitem_int ID flat i) ∧
  (∀ i, its1 = [] → (i < 0)%Z → getitem_int ID nested i = Ok VNone).
Proof.
  intros nested flat. subst nested flat. split; [|split; [|split]].
  - rewrite !len_concatenate. cbn [sum_len]. rewrite len_concatenate.
    by rewrite sum_len_app.
  - intros body st. rewrite !iterate_concatenate. cbn [chain_iterate].
    by rewrite iterate_concatenate, chain_iterate_app.
  - intros n i Hn Hi. rewrite !getitem_int_concatenate. cbn [walk].
    rewrite len_concatenate, Hn, (walk_app ID its1 its2 n i Hn Hi).
    unfold mbind, result_bind. cbv beta iota.
    by rewrite getitem_int_concatenate.
  - intros i -> Hi. rewrite getitem_int_concatenate. simpl.
    by destruct (Z.leb_spec 0 i); [lia|].
Qed.
